(** * duplicateRemover.py: grouping, fingerprinting and consolidation of
      duplicate artifacts

    A shallow embedding of [src/duplicateRemover.py].  The file system the
    script works on is an explicit value ([world]); every function of the
    script that touches it becomes a state transformer; the one call that can
    raise past its caller ([_safe_ctime]) runs, with everything above it, in
    a small state-and-exception monad.

    What the model leaves out: [print] (the console), the text of exception
    messages, directories as glob matches (a directory is only the [pdir] of
    the files below it), names with the metacharacters of [glob], and an
    output folder lying inside the input folder.  The commented-out
    geodatabase class and pass are not part of the program. *)

From Stdlib Require Import ZArith List String Ascii Bool Lia Arith.
From Stdlib Require Import Permutation Sorted.
Import ListNotations.

Local Open Scope string_scope.
Local Open Scope list_scope.

(* ===================================================================== *)
(** * hashlib.sha256 *)
(* ===================================================================== *)

(** The digest of the standard library ([hashlib.sha256]) on a byte string,
    FIPS 180-4.  Words are 32-bit integers held in [Z], wrap-around written
    out with [w32]. *)
Module Sha256.
Local Open Scope Z_scope.

Definition w32 (x : Z) : Z := x mod 4294967296.
Definition add32 (x y : Z) : Z := w32 (x + y).
Definition rotr (n x : Z) : Z :=
  w32 (Z.lor (Z.shiftr x n) (Z.shiftl x (32 - n))).
Definition not32 (x : Z) : Z := Z.lxor x 4294967295.

Definition Ch (x y z : Z) := Z.lxor (Z.land x y) (Z.land (not32 x) z).
Definition Maj (x y z : Z) :=
  Z.lxor (Z.lxor (Z.land x y) (Z.land x z)) (Z.land y z).
Definition Sigma0 x := Z.lxor (Z.lxor (rotr 2 x) (rotr 13 x)) (rotr 22 x).
Definition Sigma1 x := Z.lxor (Z.lxor (rotr 6 x) (rotr 11 x)) (rotr 25 x).
Definition sigma0 x := Z.lxor (Z.lxor (rotr 7 x) (rotr 18 x)) (Z.shiftr x 3).
Definition sigma1 x := Z.lxor (Z.lxor (rotr 17 x) (rotr 19 x)) (Z.shiftr x 10).

(** The first 64 primes. *)
Definition primes : list Z :=
  [ 2; 3; 5; 7; 11; 13; 17; 19; 23; 29; 31; 37; 41; 43; 47; 53; 59; 61; 67;
    71; 73; 79; 83; 89; 97; 101; 103; 107; 109; 113; 127; 131; 137; 139; 149;
    151; 157; 163; 167; 173; 179; 181; 191; 193; 197; 199; 211; 223; 227; 229;
    233; 239; 241; 251; 257; 263; 269; 271; 277; 281; 283; 293; 307; 311 ].

(** The integer cube root, by bisection between [lo] and [hi]. *)
Fixpoint icbrt (fuel : nat) (lo hi n : Z) : Z :=
  match fuel with
  | O => lo
  | S fuel' =>
      let mid := (lo + hi) / 2 in
      if mid =? lo then lo
      else if mid * mid * mid <=? n then icbrt fuel' mid hi n
      else icbrt fuel' lo mid n
  end.

(** The round constants: the first 32 bits of the fractional part of the
    cube root of each prime. *)
Definition K : list Z :=
  Eval vm_compute in
    map (fun p => w32 (icbrt 40 0 (2 ^ 35) (p * 2 ^ 96))) primes.

(** The eight working variables a..h, also the chaining value. *)
Record regs := Regs { ra : Z; rb : Z; rc : Z; rd : Z;
                      re : Z; rf : Z; rg : Z; rh : Z }.

(** The initial value: the first 32 bits of the fractional part of the
    square root of each of the first eight primes. *)
Definition frac_sqrt (p : Z) : Z := w32 (Z.sqrt (p * 2 ^ 64)).
Definition H0 : regs :=
  Eval vm_compute in
    Regs (frac_sqrt 2) (frac_sqrt 3) (frac_sqrt 5) (frac_sqrt 7)
         (frac_sqrt 11) (frac_sqrt 13) (frac_sqrt 17) (frac_sqrt 19).

(** Padding: a 1 bit, zeros up to 56 mod 64, the bit length on 8 bytes. *)
Definition be_bytes (n : nat) (x : Z) : list Z :=
  map (fun i => Z.land (Z.shiftr x (8 * Z.of_nat i)) 255) (rev (seq 0 n)).

Definition pad (msg : list Z) : list Z :=
  let len := Z.of_nat (List.length msg) in
  let zeros := Z.to_nat ((55 - len) mod 64) in
  msg ++ [128] ++ repeat 0 zeros ++ be_bytes 8 (8 * len).

Fixpoint words (fuel : nat) (bs : list Z) : list Z :=
  match fuel, bs with
  | S fuel', b0 :: b1 :: b2 :: b3 :: rest =>
      (Z.shiftl b0 24 + Z.shiftl b1 16 + Z.shiftl b2 8 + b3) :: words fuel' rest
  | _, _ => []
  end.

(** Message schedule, most recent word first: [ws] holds W[t-1], W[t-2], ... *)
Fixpoint schedule (n : nat) (ws : list Z) : list Z :=
  match n with
  | O => ws
  | S n' =>
      let w := add32 (add32 (sigma1 (nth 1 ws 0)) (nth 6 ws 0))
                     (add32 (sigma0 (nth 14 ws 0)) (nth 15 ws 0)) in
      schedule n' (w :: ws)
  end.

Definition round (r : regs) (kw : Z * Z) : regs :=
  let t1 := add32 (add32 (add32 (rh r) (Sigma1 (re r)))
                         (add32 (Ch (re r) (rf r) (rg r)) (fst kw))) (snd kw) in
  let t2 := add32 (Sigma0 (ra r)) (Maj (ra r) (rb r) (rc r)) in
  Regs (add32 t1 t2) (ra r) (rb r) (rc r) (add32 (rd r) t1) (re r) (rf r) (rg r).

Definition compress (h : regs) (block : list Z) : regs :=
  let w := rev (schedule 48 (rev block)) in
  let r := fold_left round (combine K w) h in
  Regs (add32 (ra h) (ra r)) (add32 (rb h) (rb r)) (add32 (rc h) (rc r))
       (add32 (rd h) (rd r)) (add32 (re h) (re r)) (add32 (rf h) (rf r))
       (add32 (rg h) (rg r)) (add32 (rh h) (rh r)).

Fixpoint blocks (fuel : nat) (h : regs) (ws : list Z) : regs :=
  match fuel with
  | O => h
  | S fuel' =>
      match ws with
      | [] => h
      | _ => blocks fuel' (compress h (firstn 16 ws)) (skipn 16 ws)
      end
  end.

Definition digest (msg : list Z) : regs :=
  let p := pad msg in
  let ws := words (List.length p) p in
  blocks (List.length ws) H0 ws.

Definition hex_digit (d : Z) : ascii :=
  if d <? 10 then ascii_of_nat (Z.to_nat (48 + d))
  else ascii_of_nat (Z.to_nat (87 + d)).

Definition hex_word (x : Z) : string :=
  fold_right (fun i s => String (hex_digit (Z.land (Z.shiftr x (4 * Z.of_nat i)) 15)) s)
             EmptyString (rev (seq 0 8)).

Definition hex (r : regs) : string :=
  (hex_word (ra r) ++ hex_word (rb r) ++ hex_word (rc r) ++ hex_word (rd r) ++
   hex_word (re r) ++ hex_word (rf r) ++ hex_word (rg r) ++ hex_word (rh r))%string.

End Sha256.

Definition bytes := list Z.

Definition bytes_of_string (s : string) : bytes :=
  map (fun c => Z.of_nat (nat_of_ascii c)) (list_ascii_of_string s).

(* ===================================================================== *)
(** * Strings and paths *)
(* ===================================================================== *)

(** [str.lower()], on the ASCII letters. *)
Definition lower_ascii (c : ascii) : ascii :=
  let n := nat_of_ascii c in
  if (65 <=? n)%nat && (n <=? 90)%nat then ascii_of_nat (n + 32) else c.

Fixpoint lower (s : string) : string :=
  match s with
  | EmptyString => EmptyString
  | String c s' => String (lower_ascii c) (lower s')
  end.

(** [s.startswith(p)] is [String.prefix p s]; [s.endswith(suf)]. *)
Definition endswith (s suf : string) : bool :=
  (String.length suf <=? String.length s)%nat &&
  String.eqb (substring (String.length s - String.length suf)
                        (String.length suf) s) suf.

(** [any(name.lower().endswith(ext) for ext in extensions)].  The script
    also applies it to a whole path ([ImageGroup]); no extension holds a
    separator, so only the last component can match. *)
Definition matches_any (name : string) (extensions : list string) : bool :=
  existsb (fun ext => endswith (lower name) ext) extensions.

(** [p.rfind(c)], [None] standing for -1. *)
Fixpoint rfind (c : ascii) (s : string) : option nat :=
  match s with
  | EmptyString => None
  | String a s' =>
      match rfind c s' with
      | Some i => Some (S i)
      | None => if Ascii.eqb a c then Some O else None
      end
  end.

Fixpoint all_dots (n : nat) (s : string) : bool :=
  match n, s with
  | S n', String a s' => Ascii.eqb a "." && all_dots n' s'
  | _, _ => true
  end.

(** [os.path.splitext] ([genericpath._splitext]) on the last component of a
    path: the extension starts at the last dot, unless only dots come before
    it.  The directory part of a path never takes part, the separator index
    being the lower bound of the search. *)
Definition splitext (name : string) : string * string :=
  match rfind "." name with
  | Some d =>
      if all_dots d name then (name, "")
      else (substring 0 d name, substring d (String.length name - d) name)
  | None => (name, "")
  end.

(** [pathlib.PurePath.suffix]: the part from the last dot on, when that dot is
    neither the first nor the last character of the name. *)
Definition suffix (name : string) : string :=
  match rfind "." name with
  | Some i =>
      if (0 <? i)%nat && (i <? String.length name - 1)%nat
      then substring i (String.length name - i) name else ""
  | None => ""
  end.

(** [while base.suffix: base = base.with_suffix('')] of
    [MapInfoGroup._get_base_path]; each turn shortens the name, so the length
    of the name is fuel enough. *)
Fixpoint strip_suffixes (fuel : nat) (name : string) : string :=
  match fuel with
  | O => name
  | S fuel' =>
      match suffix name with
      | EmptyString => name
      | suf => strip_suffixes fuel'
                 (substring 0 (String.length name - String.length suf) name)
      end
  end.

(** The two trees of a run: [input_folder] and [output_folder].  They are
    configured as two separate shares, and the model keeps them apart. *)
Inductive tree := InputFolder | OutputFolder.

(** A path: the tree it lies in, the directories from the root of that tree
    down, and the last component.  [os.path.join(root, file)] of a walk is
    [Path InputFolder dir file]; [os.path.dirname] and [os.path.basename] are
    the projections; [os.path.relpath(os.path.dirname(f), input_folder)] is
    [pdir f]. *)
Record path := Path { ptree : tree; pdir : list string; pname : string }.

Definition tree_eqb (a b : tree) : bool :=
  match a, b with
  | InputFolder, InputFolder | OutputFolder, OutputFolder => true
  | _, _ => false
  end.

Fixpoint dir_eqb (a b : list string) : bool :=
  match a, b with
  | [], [] => true
  | x :: a', y :: b' => String.eqb x y && dir_eqb a' b'
  | _, _ => false
  end.

Definition path_eqb (p q : path) : bool :=
  tree_eqb (ptree p) (ptree q) && dir_eqb (pdir p) (pdir q) &&
  String.eqb (pname p) (pname q).

(** [os.path.splitext(p)[0]] and [os.path.splitext(p)[1]] *)
Definition path_stem (p : path) : path :=
  Path (ptree p) (pdir p) (fst (splitext (pname p))).
Definition path_ext (p : path) : string := snd (splitext (pname p)).

(** [os.path.join(output_folder, rel_path, os.path.basename(f))] with
    [rel_path = os.path.relpath(os.path.dirname(f), input_folder)] *)
Definition mirror (f : path) : path := Path OutputFolder (pdir f) (pname f).

(* ===================================================================== *)
(** * Configuration *)
(* ===================================================================== *)

Definition SHAPEFILE_EXTENSIONS : list string :=
  map lower [".shp"; ".shx"; ".dbf"; ".prj"; ".cpg"; ".sbn"; ".sbx"; ".shp.xml"].
Definition IMAGEFILE_EXTENSIONS : list string :=
  map lower [".tif"; ".jpg"; ".tfw"; ".aux.xml"; ".ovr"; ".rrd"; ".prj";
             ".tif.xml"; ".tif.aux.xml"; ".tif.ovr"; ".grd"; ".jpeg"; ".png";
             ".png.xml"; ".gif"; ".bmp"; ".tiff"; ".img"; ".jp2"; ".crf";
             ".psd"; ".ora"; ".bt"; ".dt2"; ".ecw"; ".dat"; ".lgg"; ".asc";
             ".hdr"; ".bip"; ".bil"; ".clr"; ".stx"; ".bag"; ".tff"; ".raw";
             ".ers"].
Definition MAPINFO_EXTENSIONS : list string :=
  map lower [".tab"; ".dat"; ".dbf"; ".map"; ".id"; ".ind"; ".mif"; ".mid";
             ".wor"; ".gml"; ".tab.xml"].
Definition GDB_EXTENSIONS : list string :=
  [".gdb"; ".geodatabase"; ".mdb"; ".accdb"; ".sde"].
Definition NON_GIS_DB_EXTENSIONS : list string := map lower [".sqlite"; ".sql"].
Definition PACKAGE_EXTENSIONS : list string :=
  map lower [".mpk"; ".mpkx"; ".lpk"; ".lpkx"].
Definition ZIP_EXTENSIONS : list string := map lower [".zip"; ".7z"].

(* ===================================================================== *)
(** * The world: file system, failure oracles, logs *)
(* ===================================================================== *)

(** A regular file.  [readable] is whether [open(f, 'rb')] succeeds,
    [removable] whether [os.remove(f)] does (a file in use or read-only on a
    Windows share cannot be removed). *)
Record file := File {
  content : bytes;
  ctime : Z;
  readable : bool;
  removable : bool }.

Inductive level := INFO | WARNING | ERROR.

(** The messages the script sends to its logger, by format string. *)
Inductive message :=
| MsgHashError (f : path)            (* Error calculating hash / Error reading .. for hash *)
| MsgCopied (src dst : path)         (* Copied: src -> dst *)
| MsgCopyFailed (src dst : path)     (* Copy failed src -> dst *)
| MsgDeleted (p : path)              (* Deleted file: p *)
| MsgDeleteFailed (p : path)         (* Delete failed: p *)
| MsgNoComponents (base : path)      (* No shapefile / MapInfo components found *)
| MsgComponents (base : path) (fs : list path)  (* MapInfo components for .. *)
| MsgRetaining (label : string) (p : path)      (* Retaining original .. *)
| MsgStarting                        (* Starting duplicate scan... *)
| MsgComplete.                       (* Duplicate processing complete. *)

(** One cell of a row of [actions_log]: a literal string or a path. *)
Inductive cell := CStr (s : string) | CPath (p : path).

(** What a pass did with its handler objects, kept as a history of the run
    (a ghost variable: the script has no such list).  The number is the
    identity of the object: [original = group[0]] chose it, or its [copy_to]
    or [delete] method was called. *)
Inductive call := Original (o : nat) | CallCopyTo (o : nat) | CallDelete (o : nat).

(** Everything the script reads or changes.
    - [fs]: the regular files, in the order directory listings enumerate
      them ([os.walk], [glob]); directories are the [pdir] of the files.
    - [write_denied]: destinations [shutil.copy2] cannot write.
    - [stat_denied]: paths on which [os.stat] fails with an [OSError] that is
      not [FileNotFoundError] (no search permission on the directory).
    - [clock]: the creation time given to a file written now.
    - [next_oid]: the identity of the next object constructed.
    - [actions_log]: the global list of that name.
    - [logger]: what went to the log file.
    - [report]: the rows of the CSV report, once written.
    - [calls]: the history of survivor choices and method calls. *)
Record world := World {
  fs : list (path * file);
  write_denied : list path;
  stat_denied : list path;
  clock : Z;
  next_oid : nat;
  actions_log : list (list cell);
  logger : list (level * message);
  report : option (list (list cell));
  calls : list call }.

Definition set_fs (l : list (path * file)) (w : world) : world :=
  World l (write_denied w) (stat_denied w) (clock w) (next_oid w)
        (actions_log w) (logger w) (report w) (calls w).
Definition log (lv : level) (m : message) (w : world) : world :=
  World (fs w) (write_denied w) (stat_denied w) (clock w) (next_oid w)
        (actions_log w) (logger w ++ [(lv, m)]) (report w) (calls w).
Definition actions_log_append (row : list cell) (w : world) : world :=
  World (fs w) (write_denied w) (stat_denied w) (clock w) (next_oid w)
        (actions_log w ++ [row]) (logger w) (report w) (calls w).
Definition record_call (c : call) (w : world) : world :=
  World (fs w) (write_denied w) (stat_denied w) (clock w) (next_oid w)
        (actions_log w) (logger w) (report w) (calls w ++ [c]).
Definition fresh_oid (w : world) : world * nat :=
  (World (fs w) (write_denied w) (stat_denied w) (clock w) (S (next_oid w))
         (actions_log w) (logger w) (report w) (calls w), next_oid w).
Definition set_report (rows : list (list cell)) (w : world) : world :=
  World (fs w) (write_denied w) (stat_denied w) (clock w) (next_oid w)
        (actions_log w) (logger w) (Some rows) (calls w).

Fixpoint lookup (p : path) (l : list (path * file)) : option file :=
  match l with
  | [] => None
  | (q, f) :: l' => if path_eqb q p then Some f else lookup p l'
  end.

Definition remove (p : path) (l : list (path * file)) : list (path * file) :=
  filter (fun e => negb (path_eqb (fst e) p)) l.

(** Writing a file: over the old one when the path exists, as a new directory
    entry otherwise. *)
Fixpoint write (p : path) (f : file) (l : list (path * file))
  : list (path * file) :=
  match l with
  | [] => [(p, f)]
  | (q, g) :: l' => if path_eqb q p then (q, f) :: l' else (q, g) :: write p f l'
  end.

Definition mem_path (p : path) (l : list path) : bool := existsb (path_eqb p) l.

(** [open(f, 'rb')] and reading to the end: the bytes, or [None] when an
    exception is raised (no such file, permission denied). *)
Definition read_file (w : world) (p : path) : option bytes :=
  match lookup p (fs w) with
  | Some f => if readable f then Some (content f) else None
  | None => None
  end.

(** [for (root, _, files) in os.walk(input_folder): for file in files]:
    the files below the input folder, in listing order. *)
Definition walk (w : world) : list path :=
  map fst (filter (fun e => tree_eqb (ptree (fst e)) InputFolder) (fs w)).

(** [glob(pattern)] for the three shapes of pattern the script builds from a
    base path: the files of the directory of [base] whose name matches, in
    listing order.  Names are taken without the metacharacters of [glob]
    (star, question mark, bracket), so a base path matches as a literal; a
    base name is never empty and starts with a dot only if the pattern does,
    so the rule of [glob] on hidden files changes nothing. *)
Definition glob_names (base : path) (ok : string -> bool) (w : world) : list path :=
  map fst (filter (fun e => tree_eqb (ptree (fst e)) (ptree base) &&
                            dir_eqb (pdir (fst e)) (pdir base) &&
                            ok (pname (fst e))) (fs w)).

(** [glob(f"{base}*")] *)
Definition glob_prefix (base : path) (w : world) : list path :=
  glob_names base (fun n => String.prefix (pname base) n) w.
(** [glob(f"{base}.*")] *)
Definition glob_dot_star (base : path) (w : world) : list path :=
  glob_names base (fun n => String.prefix (pname base ++ ".") n) w.
(** [glob(f"{base}{ext}")], a pattern without wildcard *)
Definition glob_exact (base : path) (ext : string) (w : world) : list path :=
  glob_names base (fun n => String.eqb n (pname base ++ ext)) w.

(* ===================================================================== *)
(** * Hashing *)
(* ===================================================================== *)

(** A [hashlib.sha256()] object is the bytes fed to it so far. *)
Definition sha256_new : bytes := [].
Definition sha256_update (sha chunk : bytes) : bytes := sha ++ chunk.
Definition hexdigest (sha : bytes) : string := Sha256.hex (Sha256.digest sha).

Definition chunk_size : nat := Z.to_nat 8192.

(** [iter(lambda: f.read(8192), b"")]: the chunks read until the empty one. *)
Fixpoint read_chunks (fuel : nat) (bs : bytes) : list bytes :=
  match fuel with
  | O => []
  | S fuel' =>
      match bs with
      | [] => []
      | _ => firstn chunk_size bs :: read_chunks fuel' (skipn chunk_size bs)
      end
  end.

(** [for chunk in iter(...): sha256.update(chunk)] *)
Definition feed (sha : bytes) (bs : bytes) : bytes :=
  fold_left sha256_update (read_chunks (List.length bs) bs) sha.

Definition get_file_hash (file_path : path) (w : world) : world * option string :=
  match read_file w file_path with
  | Some bs => (w, Some (hexdigest (feed sha256_new bs)))
  | None => (log ERROR (MsgHashError file_path) w, None)
  end.

(** The loop shared by the [hash] methods of the grouped classes: a member
    that cannot be read is logged and contributes nothing. *)
Fixpoint hash_members (files : list path) (sha : bytes) (w : world)
  : world * bytes :=
  match files with
  | [] => (w, sha)
  | f :: rest =>
      match read_file w f with
      | Some bs => hash_members rest (feed sha bs) w
      | None => hash_members rest sha (log ERROR (MsgHashError f) w)
      end
  end.

Definition hash_group (files : list path) (w : world) : world * option string :=
  let (w', sha) := hash_members files sha256_new w in
  (w', Some (hexdigest sha)).

(** [if file_hash:] holds for a string that is not empty. *)
Definition truthy (h : option string) : bool :=
  match h with
  | Some (String _ _) => true
  | _ => false
  end.

(* ===================================================================== *)
(** * File operations *)
(* ===================================================================== *)

(** [os.makedirs(os.path.dirname(dst), exist_ok=True); shutil.copy2(src, dst)]:
    the new state of the files, or [None] when either call raises (the source
    cannot be read, the destination cannot be written). *)
Definition copy2 (src dst : path) (w : world) : option (list (path * file)) :=
  match read_file w src with
  | Some bs =>
      if mem_path dst (write_denied w) then None
      else Some (write dst (File bs (clock w) true true) (fs w))
  | None => None
  end.

(** [os.remove(path)] *)
Definition os_remove (p : path) (w : world) : option (list (path * file)) :=
  match lookup p (fs w) with
  | Some f => if removable f then Some (remove p (fs w)) else None
  | None => None
  end.

Definition copy_file (src dst : path) (w : world) : world :=
  match copy2 src dst w with
  | Some fs' =>
      let w1 := set_fs fs' w in
      let w2 := log INFO (MsgCopied src dst) w1 in
      actions_log_append [CStr "Copied"; CPath src; CPath dst; CStr (path_ext src)] w2
  | None => log ERROR (MsgCopyFailed src dst) w
  end.

Definition delete_file (p : path) (w : world) : world :=
  match os_remove p w with
  | Some fs' =>
      let w1 := set_fs fs' w in
      let w2 := log INFO (MsgDeleted p) w1 in
      actions_log_append [CStr "Deleted"; CPath p; CStr ""; CStr (path_ext p)] w2
  | None => log ERROR (MsgDeleteFailed p) w
  end.

Definition write_csv_report (w : world) : world :=
  set_report ([CStr "Action"; CStr "Source"; CStr "Destination"; CStr "File Type"]
              :: actions_log w) w.

(* ===================================================================== *)
(** * Handler classes *)
(* ===================================================================== *)

(** One constructor per class, with the attributes its [__init__] sets and
    the identity of the object. *)
Inductive handler :=
| ShapefileGroup (oid : nat) (base_path : path) (files : list path)
| ImageGroup (oid : nat) (base_path : path) (files : list path)
| PackageFile (oid : nat) (file_path : path)
| MapInfoGroup (oid : nat) (tab_path base_path : path) (files : list path)
| ZipFileHandler (oid : nat) (file_path base_path : path)
| NonGISDatabase (oid : nat) (file_path base_path : path)
| GenericFile (oid : nat) (file_path base_path : path) (files : list path).

Definition oid_of (x : handler) : nat :=
  match x with
  | ShapefileGroup o _ _ | ImageGroup o _ _ | PackageFile o _
  | MapInfoGroup o _ _ _ | ZipFileHandler o _ _ | NonGISDatabase o _ _
  | GenericFile o _ _ _ => o
  end.

Definition base_path_attr (x : handler) : option path :=
  match x with
  | ShapefileGroup _ b _ | ImageGroup _ b _ | MapInfoGroup _ _ b _
  | ZipFileHandler _ _ b | NonGISDatabase _ _ b | GenericFile _ _ b _ => Some b
  | PackageFile _ _ => None
  end.

Definition file_path_attr (x : handler) : option path :=
  match x with
  | PackageFile _ p | ZipFileHandler _ p _ | NonGISDatabase _ p _
  | GenericFile _ p _ _ => Some p
  | _ => None
  end.

(** [getattr(x, 'base_path', getattr(x, 'file_path', ''))] *)
Definition identity_path (x : handler) : path :=
  match base_path_attr x with
  | Some b => b
  | None => match file_path_attr x with
            | Some p => p
            | None => Path InputFolder [] ""
            end
  end.

(** The files the methods of a handler read, copy and delete. *)
Definition members (x : handler) : list path :=
  match x with
  | ShapefileGroup _ _ fl | ImageGroup _ _ fl | MapInfoGroup _ _ _ fl
  | GenericFile _ _ _ fl => fl
  | PackageFile _ p | ZipFileHandler _ p _ | NonGISDatabase _ p _ => [p]
  end.

Definition new_ShapefileGroup (shp_path : path) (w : world) : world * handler :=
  let (w1, o) := fresh_oid w in
  let base := path_stem shp_path in
  let all_candidates := glob_dot_star base w1 in
  let files := filter (fun f => existsb (String.eqb (lower (path_ext f)))
                                        SHAPEFILE_EXTENSIONS) all_candidates in
  let w2 := match files with
            | [] => log WARNING (MsgNoComponents base) w1
            | _ => w1
            end in
  (w2, ShapefileGroup o base files).

Definition new_ImageGroup (file_path : path) (w : world) : world * handler :=
  let (w1, o) := fresh_oid w in
  let base := path_stem file_path in
  (w1, ImageGroup o base
         (filter (fun f => matches_any (pname f) IMAGEFILE_EXTENSIONS)
                 (glob_prefix base w1))).

Definition new_PackageFile (file_path : path) (w : world) : world * handler :=
  let (w1, o) := fresh_oid w in (w1, PackageFile o file_path).

(** [MapInfoGroup._get_base_path] *)
Definition _get_base_path (tab_path : path) : path :=
  Path (ptree tab_path) (pdir tab_path)
       (strip_suffixes (String.length (pname tab_path)) (pname tab_path)).

(** [MapInfoGroup._gather_components] *)
Definition _gather_components (base : path) (w : world) : world * list path :=
  let matched_files :=
    flat_map (fun ext => glob_exact base ext w ++
                         glob_exact base (ext ++ ".xml")%string w)
             MAPINFO_EXTENSIONS in
  match matched_files with
  | [] => (log WARNING (MsgNoComponents base) w, matched_files)
  | _ => (log INFO (MsgComponents base matched_files) w, matched_files)
  end.

Definition new_MapInfoGroup (tab_path : path) (w : world) : world * handler :=
  let (w1, o) := fresh_oid w in
  let base := _get_base_path tab_path in
  let (w2, files) := _gather_components base w1 in
  (w2, MapInfoGroup o tab_path base files).

Definition new_ZipFileHandler (file_path : path) (w : world) : world * handler :=
  let (w1, o) := fresh_oid w in (w1, ZipFileHandler o file_path file_path).

Definition new_NonGISDatabase (file_path : path) (w : world) : world * handler :=
  let (w1, o) := fresh_oid w in (w1, NonGISDatabase o file_path file_path).

(** [os.path.isfile] holds of every entry of [fs], which has regular files
    only. *)
Definition new_GenericFile (file_path : path) (w : world) : world * handler :=
  let (w1, o) := fresh_oid w in
  let base := path_stem file_path in
  (w1, GenericFile o file_path base (glob_prefix base w1)).

(** [sorted(self.files)]: the members of a group lie in one directory, where
    the order of the path strings is the order of the names. *)
Fixpoint insert_path (p : path) (l : list path) : list path :=
  match l with
  | [] => [p]
  | q :: l' => if String.leb (pname p) (pname q) then p :: q :: l'
               else q :: insert_path p l'
  end.
Definition sorted (l : list path) : list path := fold_right insert_path [] l.

(** The [hash] method, by class. *)
Definition hash (x : handler) (w : world) : world * option string :=
  match x with
  | ShapefileGroup _ _ fl | ImageGroup _ _ fl | GenericFile _ _ _ fl =>
      hash_group fl w
  | MapInfoGroup _ _ _ fl => hash_group (sorted fl) w
  | PackageFile _ p | ZipFileHandler _ p _ | NonGISDatabase _ p _ =>
      get_file_hash p w
  end.

(** The [copy_to(input_folder, output_folder)] method: every class copies
    each of its files to the mirrored place below the output folder. *)
Definition copy_to (x : handler) (w : world) : world :=
  fold_left (fun w f => copy_file f (mirror f) w) (members x)
            (record_call (CallCopyTo (oid_of x)) w).

(** The [delete] method. *)
Definition delete (x : handler) (w : world) : world :=
  fold_left (fun w f => delete_file f w) (members x)
            (record_call (CallDelete (oid_of x)) w).

(* ===================================================================== *)
(** * Exceptions that escape: a state and exception monad *)
(* ===================================================================== *)

(** [copy_file], [delete_file] and the [hash] methods catch every exception
    themselves.  [_safe_ctime] catches [FileNotFoundError] only: any other
    [OSError] of [os.path.getctime] leaves the pass, [run_all] and [main],
    none of which has a handler.  What was done before stays done. *)
Inductive exn := OSError (p : path).

Inductive result (A : Type) := Ok (a : A) | Raise (e : exn).
Arguments Ok {A} a.
Arguments Raise {A} e.

Definition M (A : Type) : Type := world -> world * result A.

Definition ret {A} (a : A) : M A := fun w => (w, Ok a).
Definition raise {A} (e : exn) : M A := fun w => (w, Raise e).
Definition bind {A B} (c : M A) (k : A -> M B) : M B :=
  fun w => match c w with
           | (w', Ok a) => k a w'
           | (w', Raise e) => (w', Raise e)
           end.
(** A step that cannot raise. *)
Definition step (f : world -> world) : M unit := fun w => (f w, Ok tt).
Definition call_ {A} (f : world -> world * A) : M A :=
  fun w => let (w', a) := f w in (w', Ok a).

Declare Scope py_scope.
Delimit Scope py_scope with py.
Notation "x <- c ;; k" := (bind c (fun x => k))
  (at level 61, c at next level, right associativity) : py_scope.
Notation "c ;; k" := (bind c (fun _ => k))
  (at level 61, right associativity) : py_scope.

(** [for x in l: body(x)] *)
Fixpoint for_each {A} (l : list A) (body : A -> M unit) : M unit :=
  match l with
  | [] => ret tt
  | x :: l' => bind (body x) (fun _ => for_each l' body)
  end.

Fixpoint map_M {A B} (f : A -> M B) (l : list A) : M (list B) :=
  match l with
  | [] => ret []
  | x :: l' => bind (f x) (fun y => bind (map_M f l') (fun ys => ret (y :: ys)))
  end.

(* ===================================================================== *)
(** * Creation times and the sort of a group *)
(* ===================================================================== *)

(** A creation time, or [float('inf')]. *)
Inductive timestamp := At (t : Z) | Infinity.

Definition ts_leb (a b : timestamp) : bool :=
  match a, b with
  | _, Infinity => true
  | Infinity, At _ => false
  | At x, At y => (x <=? y)%Z
  end.

Definition _safe_ctime (p : path) : M timestamp :=
  fun w =>
    if mem_path p (stat_denied w) then (w, Raise (OSError p))
    else match lookup p (fs w) with
         | Some f => (w, Ok (At (ctime f)))
         | None => (w, Ok Infinity)
         end.

(** [list.sort(key=...)] is stable: an element goes before the first one
    whose key is not smaller than its own. *)
Fixpoint insert_by_key {A} (x : timestamp * A) (l : list (timestamp * A))
  : list (timestamp * A) :=
  match l with
  | [] => [x]
  | y :: l' => if ts_leb (fst x) (fst y) then x :: y :: l'
               else y :: insert_by_key x l'
  end.

Definition stable_sort {A} (l : list (timestamp * A)) : list (timestamp * A) :=
  fold_right insert_by_key [] l.

(** [group.sort(key=lambda x: _safe_ctime(key_path(x)))]: the keys are
    computed first, in list order; an exception there leaves the sort. *)
Definition sort_group (key_path : handler -> path) (group : list handler)
  : M (list handler) :=
  (keys <- map_M (fun x => _safe_ctime (key_path x)) group ;;
   ret (map snd (stable_sort (combine keys group))))%py.

(* ===================================================================== *)
(** * DuplicateProcessor *)
(* ===================================================================== *)

(** A [defaultdict(list)] keyed by hash; a [dict] keeps insertion order. *)
Definition dict := list (string * list handler).

(** [d[h].append(obj)] *)
Fixpoint dict_append (h : string) (obj : handler) (d : dict) : dict :=
  match d with
  | [] => [(h, [obj])]
  | (k, v) :: d' => if String.eqb k h then (k, v ++ [obj]) :: d'
                    else (k, v) :: dict_append h obj d'
  end.

Definition values (d : dict) : list (list handler) := map snd d.

(** The first loop of every pass: each file of the walk that is an entry
    point is wrapped in its handler and hashed, and filed under its hash when
    that is truthy.  Nothing in the loop changes the file system, so the walk
    is the one of the start. *)
Fixpoint scan_loop (is_entry : string -> bool)
    (handler_class : path -> world -> world * handler)
    (paths : list path) (d : dict) (w : world) : world * dict :=
  match paths with
  | [] => (w, d)
  | p :: rest =>
      if is_entry (pname p) then
        let (w1, obj) := handler_class p w in
        let (w2, file_hash) := hash obj w1 in
        match file_hash with
        | Some h =>
            if truthy file_hash
            then scan_loop is_entry handler_class rest (dict_append h obj d) w2
            else scan_loop is_entry handler_class rest d w2
        | None => scan_loop is_entry handler_class rest d w2
        end
      else scan_loop is_entry handler_class rest d w
  end.

Definition scan (is_entry : string -> bool)
    (handler_class : path -> world -> world * handler) (w : world)
  : world * dict :=
  scan_loop is_entry handler_class (walk w) [] w.

(** The second loop of every pass, for one bucket.  [_process_files] also
    computes [dup_path] and [dst] and probes for [copy_to] and [delete]: the
    path is never empty, every class has both methods, [copy_to] takes the
    two folders in every class, so [continue] and the [TypeError] branch are
    never taken. *)
Definition consolidate_group (label : string) (retained : handler -> path)
    (group : list handler) : M unit :=
  if (1 <? List.length group)%nat then
    (sorted_group <- sort_group identity_path group ;;
     match sorted_group with
     | [] => ret tt
     | original :: duplicates =>
         step (record_call (Original (oid_of original))) ;;
         step (log INFO (MsgRetaining label (retained original))) ;;
         for_each duplicates (fun dup =>
           step (copy_to dup) ;;
           step (delete dup))
     end)%py
  else ret tt.

Definition consolidate (label : string) (retained : handler -> path)
    (d : dict) : M unit :=
  for_each (values d) (consolidate_group label retained).

Definition _process_files (handler_class : path -> world -> world * handler)
    (extensions : list string) (file_label : string) : M unit :=
  (hash_to_files <- call_ (scan (fun file => matches_any file extensions)
                                handler_class) ;;
   consolidate file_label identity_path hash_to_files)%py.

Definition _process_shapefiles : M unit :=
  (hash_to_shapes <- call_ (scan (fun file => endswith (lower file) ".shp")
                                 new_ShapefileGroup) ;;
   consolidate "Shapefile" identity_path hash_to_shapes)%py.

Definition _process_mapinfo : M unit :=
  (hash_to_groups <- call_ (scan (fun file => endswith (lower file) ".tab")
                                 new_MapInfoGroup) ;;
   consolidate "MapInfo" identity_path hash_to_groups)%py.

Definition known_exts : list string :=
  SHAPEFILE_EXTENSIONS ++ IMAGEFILE_EXTENSIONS ++ MAPINFO_EXTENSIONS ++
  GDB_EXTENSIONS ++ NON_GIS_DB_EXTENSIONS ++ PACKAGE_EXTENSIONS ++ ZIP_EXTENSIONS.

Definition is_generic (file : string) : bool :=
  negb (existsb (String.eqb (lower (snd (splitext file)))) known_exts).

Definition retained_file_path (x : handler) : path :=
  match file_path_attr x with
  | Some p => p
  | None => identity_path x
  end.

Definition _process_generic_files : M unit :=
  (hash_to_files <- call_ (scan is_generic new_GenericFile) ;;
   consolidate "file" retained_file_path hash_to_files)%py.

Definition run_all : M unit :=
  (_process_shapefiles ;;
   _process_mapinfo ;;
   _process_files new_ImageGroup IMAGEFILE_EXTENSIONS "Image" ;;
   _process_files new_PackageFile PACKAGE_EXTENSIONS "Package" ;;
   _process_files new_ZipFileHandler ZIP_EXTENSIONS "ZIP" ;;
   _process_files new_NonGISDatabase NON_GIS_DB_EXTENSIONS "Non-GIS Database" ;;
   _process_generic_files)%py.

(** [os.makedirs(output_folder)] and [setup_logger] come first; their
    files live in the output folder, which no pass reads. *)
Definition main : M unit :=
  (step (log INFO MsgStarting) ;;
   run_all ;;
   step write_csv_report ;;
   step (log INFO MsgComplete))%py.

(** The state a process starts in: [actions_log = []], nothing logged, no
    report, no object constructed. *)
Definition start (files : list (path * file)) (wd sd : list path) (now : Z)
  : world :=
  World files wd sd now 0 [] [] None [].

(* ===================================================================== *)
(** * Concrete trees *)
(* ===================================================================== *)

Definition inp (dir : list string) (name : string) : path :=
  Path InputFolder dir name.
Definition out (dir : list string) (name : string) : path :=
  Path OutputFolder dir name.

(** A readable, removable file with the given text and creation time. *)
Definition plain (text : string) (created : Z) : file :=
  File (bytes_of_string text) created true true.
(** A file that cannot be opened for reading (but can be removed: that
    takes write permission on the directory only). *)
Definition unreadable (text : string) (created : Z) : file :=
  File (bytes_of_string text) created false true.

(** [a/x.txt] and [b/x.txt] with the same content, [a/x.txt] the older one;
    the listing of the input folder gives [b] before [a]. *)
Definition tree_ab_b_first : world :=
  start [ (inp ["b"] "x.txt", plain "same" 200);
          (inp ["a"] "x.txt", plain "same" 100) ] [] [] 1000.

(** The same two files, [a] listed before [b]. *)
Definition tree_ab_a_first : world :=
  start [ (inp ["a"] "x.txt", plain "same" 100);
          (inp ["b"] "x.txt", plain "same" 200) ] [] [] 1000.

(** Two identical archives; the mirrored place of the newer one cannot be
    written. *)
Definition tree_zip_denied : world :=
  start [ (inp ["a"] "d.zip", plain "PK-archive" 100);
          (inp ["b"] "d.zip", plain "PK-archive" 200) ]
        [ out ["b"] "d.zip" ] [] 1000.

(** Two shapefiles of one component each, with different content, neither of
    which can be opened. *)
Definition tree_unreadable_shp : world :=
  start [ (inp ["a"] "roads.shp", unreadable "roads" 100);
          (inp ["b"] "rivers.shp", unreadable "rivers" 200) ] [] [] 1000.

(** Two shapefiles with the same two components, byte for byte; directory
    [a] lists the [.shp] first, directory [b] the [.dbf]. *)
Definition tree_shp_order : world :=
  start [ (inp ["a"] "p.shp", plain "SHAPE" 100);
          (inp ["a"] "p.dbf", plain "TABLE" 100);
          (inp ["b"] "q.dbf", plain "TABLE" 200);
          (inp ["b"] "q.shp", plain "SHAPE" 200) ] [] [] 1000.

(** The same components as MapInfo tables. *)
Definition tree_tab_order : world :=
  start [ (inp ["a"] "p.tab", plain "SHAPE" 100);
          (inp ["a"] "p.dat", plain "TABLE" 100);
          (inp ["b"] "q.dat", plain "TABLE" 200);
          (inp ["b"] "q.tab", plain "SHAPE" 200) ] [] [] 1000.

(** One raster with its world file, and nothing else. *)
Definition tree_one_raster : world :=
  start [ (inp ["img"] "x.tif", plain "pixels" 100);
          (inp ["img"] "x.tfw", plain "georef" 100) ] [] [] 1000.


(** Four text files: [a/w.txt] and [b/xy.txt] have one content, [b/x.txt]
    and [c/z.txt] another.  The base path of [b/x.txt] is a prefix of
    [b/xy.txt]. *)
Definition tree_prefix : world :=
  start [ (inp ["a"] "w.txt", plain "Q" 100);
          (inp ["b"] "x.txt", plain "P" 200);
          (inp ["b"] "xy.txt", plain "Q" 300);
          (inp ["c"] "z.txt", plain "P" 400) ] [] [] 1000.


(** Running the script again: a new process, so an empty [actions_log], on
    the files the first run left. *)
Definition restart (w : world) : world :=
  start (fs w) (write_denied w) (stat_denied w) (clock w).

(* ===================================================================== *)
(** * Vocabulary of the statements *)
(* ===================================================================== *)


(** The key [_safe_ctime] gives a path when it does not raise. *)
Definition creation_time (w : world) (p : path) : timestamp :=
  match lookup p (fs w) with
  | Some f => At (ctime f)
  | None => Infinity
  end.


Definition csv_header : list cell :=
  [CStr "Action"; CStr "Source"; CStr "Destination"; CStr "File Type"].


(** The two messages [copy_file] and [delete_file] log on success. *)
Definition success_message (lv : level) (m : message) : bool :=
  match lv, m with
  | INFO, MsgCopied _ _ | INFO, MsgDeleted _ => true
  | _, _ => false
  end.

(** The handler objects of a dictionary, bucket after bucket. *)
Definition all_objs (d : dict) : list handler := List.concat (values d).

(** The calls of the loop over [duplicates]. *)
Definition calls_on (duplicates : list handler) : list call :=
  flat_map (fun dup => [CallCopyTo (oid_of dup); CallDelete (oid_of dup)])
           duplicates.




(** The key of a handler in a state, for a given choice of path. *)
Definition key_in (w : world) (key_path : handler -> path) (x : handler)
  : timestamp :=
  creation_time w (key_path x).


(** The first path of a list whose lookup is refused. *)
Definition first_denied (w : world) (paths : list path) : option path :=
  find (fun p => mem_path p (stat_denied w)) paths.

Definition same_calls (w w' : world) : Prop := calls w' = calls w.

(** The families of [run_all], in the order it processes them, with the two
    loops of the pass of each. *)
Inductive family :=
| Shapefile | MapInfo | Image | Package | Zip | NonGISDb | Generic.

Definition family_entry (f : family) : string -> bool :=
  match f with
  | Shapefile => fun file => endswith (lower file) ".shp"
  | MapInfo => fun file => endswith (lower file) ".tab"
  | Image => fun file => matches_any file IMAGEFILE_EXTENSIONS
  | Package => fun file => matches_any file PACKAGE_EXTENSIONS
  | Zip => fun file => matches_any file ZIP_EXTENSIONS
  | NonGISDb => fun file => matches_any file NON_GIS_DB_EXTENSIONS
  | Generic => is_generic
  end.

Definition family_class (f : family) : path -> world -> world * handler :=
  match f with
  | Shapefile => new_ShapefileGroup
  | MapInfo => new_MapInfoGroup
  | Image => new_ImageGroup
  | Package => new_PackageFile
  | Zip => new_ZipFileHandler
  | NonGISDb => new_NonGISDatabase
  | Generic => new_GenericFile
  end.

Definition family_scan (f : family) : world -> world * dict :=
  scan (family_entry f) (family_class f).

Definition family_consolidate (f : family) : dict -> M unit :=
  match f with
  | Shapefile => consolidate "Shapefile" identity_path
  | MapInfo => consolidate "MapInfo" identity_path
  | Image => consolidate "Image" identity_path
  | Package => consolidate "Package" identity_path
  | Zip => consolidate "ZIP" identity_path
  | NonGISDb => consolidate "Non-GIS Database" identity_path
  | Generic => consolidate "file" retained_file_path
  end.

Definition family_pass (f : family) : M unit :=
  match f with
  | Shapefile => _process_shapefiles
  | MapInfo => _process_mapinfo
  | Image => _process_files new_ImageGroup IMAGEFILE_EXTENSIONS "Image"
  | Package => _process_files new_PackageFile PACKAGE_EXTENSIONS "Package"
  | Zip => _process_files new_ZipFileHandler ZIP_EXTENSIONS "ZIP"
  | NonGISDb =>
      _process_files new_NonGISDatabase NON_GIS_DB_EXTENSIONS "Non-GIS Database"
  | Generic => _process_generic_files
  end.

Definition oid_of_call (c : call) : nat :=
  match c with Original o | CallCopyTo o | CallDelete o => o end.

(** What the second loop adds to the history for one bucket: nothing (the
    bucket has one element, or the loop never got to it), or the choice of
    the first element of the sorted bucket as survivor, followed by the calls
    on all the others.  [w0] is the state in which the bucket was sorted. *)
Inductive group_calls : list handler -> list call -> Prop :=
| gc_none (g : list handler) : group_calls g []
| gc_some (g : list handler) (original : handler) (duplicates : list handler)
          (w0 : world) :
    (1 < List.length g)%nat ->
    snd (sort_group identity_path g w0) = Ok (original :: duplicates) ->
    Permutation g (original :: duplicates) ->
    group_calls g (Original (oid_of original) :: calls_on duplicates).

(** A constructor gives its object the next identity. *)
Definition fresh_class (hc : path -> world -> world * handler) : Prop :=
  forall p w, oid_of (snd (hc p w)) = next_oid w /\
              next_oid (fst (hc p w)) = S (next_oid w).

(** A shapefile with its projection file, and a text file next to a raster
    of the same base name. *)
Definition tree_shared_members : world :=
  start [ (inp ["a"] "s.shp", plain "SHAPE" 100);
          (inp ["a"] "s.prj", plain "WGS84" 100);
          (inp ["b"] "n.txt", plain "notes" 100);
          (inp ["b"] "n.tif", plain "pixels" 100) ] [] [] 1000.

(** The fingerprint [get_file_hash] gives a path in a state. *)
Definition digest_of (w : world) (p : path) : option string :=
  option_map (fun bs => hexdigest (feed sha256_new bs)) (read_file w p).

Definition has_digest (w : world) (k : string) (p : path) : bool :=
  match digest_of w p with
  | Some h => String.eqb h k
  | None => false
  end.

(** [d[k]], the empty list when the key is absent. *)
Fixpoint bucket (k : string) (d : dict) : list handler :=
  match d with
  | [] => []
  | (h, v) :: d' => if String.eqb h k then v else bucket k d'
  end.

(** A handler of a single-file class: its only member is its identity path,
    and its fingerprint is that of this file. *)
Definition atomic_obj (x : handler) : Prop :=
  members x = [identity_path x] /\
  forall w, hash x w = get_file_hash (identity_path x) w.

Definition atomic_class (hc : path -> world -> world * handler) : Prop :=
  forall p w, identity_path (snd (hc p w)) = p /\
              atomic_obj (snd (hc p w)) /\
              fs (fst (hc p w)) = fs w.

Definition atomic_family (f : family) : Prop :=
  f = Package \/ f = Zip \/ f = NonGISDb.

(** No file is a member of two objects, and no identity path belongs to
    two objects. *)
Definition claims_disjoint (objs : list handler) : Prop :=
  forall x y p, In x objs -> In y objs ->
    In p (members x) -> In p (members y) -> oid_of x = oid_of y.

Definition one_per_identity (objs : list handler) : Prop :=
  forall x y, In x objs -> In y objs ->
    identity_path x = identity_path y -> oid_of x = oid_of y.

Definition same_fs (w w' : world) : Prop := fs w' = fs w.

(** The state after the passes of the given families, in turn. *)
Definition run_passes (families : list family) (w : world) : world :=
  fold_left (fun w f => fst (family_pass f w)) families w.

(** From [w] to [w'] the files of the input folder can only go: whatever
    is in the input folder afterwards was there before, unchanged; no lookup
    becomes refused; paths stay unique. *)
Definition shrinks (w w' : world) : Prop :=
  stat_denied w' = stat_denied w /\
  (NoDup (map fst (fs w)) -> NoDup (map fst (fs w'))) /\
  (forall p f, ptree p = InputFolder ->
     lookup p (fs w') = Some f -> lookup p (fs w) = Some f).

Definition gone (p : path) (w : world) : Prop := lookup p (fs w) = None.

(** Nothing refuses a lookup, and every file of the input folder can be
    removed. *)
Definition cooperative (w : world) : Prop :=
  stat_denied w = [] /\
  (forall p f, ptree p = InputFolder ->
     lookup p (fs w) = Some f -> removable f = true).

(** No two entry files of the family have the same fingerprint. *)
Definition no_twins (f : family) (w : world) : Prop :=
  forall p q k, In p (walk w) -> In q (walk w) -> p <> q ->
    family_entry f (pname p) = true -> family_entry f (pname q) = true ->
    has_digest w k p = true -> has_digest w k q = true -> False.

(** A step that leaves the files, the audit trail and the history alone. *)
Definition quiet (w w' : world) : Prop :=
  fs w' = fs w /\ actions_log w' = actions_log w /\ calls w' = calls w /\
  stat_denied w' = stat_denied w.


(** No file of the walk is an entry point of the family. *)
Definition no_entries (f : family) (w : world) : Prop :=
  forall p, In p (walk w) -> family_entry f (pname p) = false.



Definition all_families : list family :=
  [Shapefile; MapInfo; Image; Package; Zip; NonGISDb; Generic].


(** The extensions of the lists of the script that start no pass: those of
    the components of a shapefile or of a MapInfo table other than the entry
    file, and those of the geodatabases, whose pass is commented out. *)
Definition never_entry_exts : list string :=
  [".shx"; ".dbf"; ".cpg"; ".sbn"; ".sbx"; ".map"; ".id"; ".ind"; ".mif";
   ".mid"; ".wor"; ".gml"; ".gdb"; ".geodatabase"; ".mdb"; ".accdb"; ".sde"].

(** The endings the loop of a family other than the generic one tests a file
    name against. *)
Definition entry_exts (f : family) : list string :=
  match f with
  | Shapefile => [".shp"]
  | MapInfo => [".tab"]
  | Image => IMAGEFILE_EXTENSIONS
  | Package => PACKAGE_EXTENSIONS
  | Zip => ZIP_EXTENSIONS
  | NonGISDb => NON_GIS_DB_EXTENSIONS
  | Generic => []
  end.

(** One of two endings is an ending of the other. *)
Definition comparable (x e : string) : bool := endswith x e || endswith e x.

(** What a [hash] method reads of a file: its bytes, nothing when it cannot
    be opened. *)
Definition readable_bytes (w : world) (p : path) : bytes :=
  match read_file w p with
  | Some bs => bs
  | None => []
  end.

Definition unreadable_in (w : world) (files : list path) : list path :=
  filter (fun f => match read_file w f with Some _ => false | None => true end)
         files.

(** One error in the log per file. *)
Definition log_hash_errors (files : list path) (w : world) : world :=
  fold_left (fun w f => log ERROR (MsgHashError f) w) files w.

(** The files a [hash] method goes through, in its order. *)
Definition hashed_files (x : handler) : list path :=
  match x with
  | MapInfoGroup _ _ _ fl => sorted fl
  | _ => members x
  end.

(** The classes whose [hash] method has the loop over [self.files]. *)
Definition grouped (x : handler) : bool :=
  match x with
  | PackageFile _ _ | ZipFileHandler _ _ _ | NonGISDatabase _ _ _ => false
  | _ => true
  end.

(** The file of the input folder whose mirrored place a path is. *)
Definition source_of (q : path) : path := Path InputFolder (pdir q) (pname q).

(** The bytes [copy_file] writes to the mirrored place of a file: those of
    the file, when it can be read and the place can be written. *)
Definition copied_bytes (w : world) (p : path) : option bytes :=
  if mem_path (mirror p) (write_denied w) then None else read_file w p.

(** Every member of the object lies in the input folder. *)
Definition input_obj (x : handler) : Prop :=
  Forall (fun p => ptree p = InputFolder) (members x).

(** The conditions under which every copy of a file of the input folder
    works: no place is refused to [shutil.copy2], and every file of the
    input folder can be read. *)
Definition copies_succeed (w : world) : Prop :=
  write_denied w = [] /\
  forall p f, ptree p = InputFolder ->
    lookup p (fs w) = Some f -> readable f = true.

(** Every file of the input folder of [w] is in [w'] where it was, as it
    was, or is gone from there with its bytes at the mirrored place. *)
Definition kept_or_mirrored (w w' : world) : Prop :=
  forall p f, ptree p = InputFolder -> lookup p (fs w) = Some f ->
    lookup p (fs w') = Some f \/
    (lookup p (fs w') = None /\
     exists g, lookup (mirror p) (fs w') = Some g /\ content g = content f).

(** From [w] to [w'], when every copy works: it still does; the input
    folder got no new file and no file of it changed; every file of it was
    kept or mirrored; and the mirrored place of a path that named no file is
    as it was. *)
Definition safely (w w' : world) : Prop :=
  copies_succeed w ->
  copies_succeed w' /\
  (forall p f, ptree p = InputFolder ->
     lookup p (fs w') = Some f -> lookup p (fs w) = Some f) /\
  kept_or_mirrored w w' /\
  (forall p, ptree p = InputFolder -> lookup p (fs w) = None ->
     lookup (mirror p) (fs w') = lookup (mirror p) (fs w)).

(** No file of the output folder goes. *)
Definition output_grows (w w' : world) : Prop :=
  forall q, ptree q = OutputFolder ->
    lookup q (fs w) <> None -> lookup q (fs w') <> None.

(** The files, what decides whether a copy or a lookup works, and the audit
    trail are the same. *)
Definition same_files (w w' : world) : Prop :=
  fs w' = fs w /\ write_denied w' = write_denied w /\
  stat_denied w' = stat_denied w /\ clock w' = clock w /\
  actions_log w' = actions_log w.

(** Two identical tables of a database format that starts no pass. *)
Definition tree_dbf_twins : world :=
  start [ (inp ["a"] "t.dbf", plain "TABLE" 100);
          (inp ["b"] "t.dbf", plain "TABLE" 200) ] [] [] 1000.

(** What a row of the audit trail says, between the state [w] a run began
    in and the state [w'] it ended in: a Copied row, that its source was a
    file of the input folder and the mirrored place holds its bytes; a
    Deleted row, that its source was a file of the input folder and is
    gone. *)
Definition row_holds (w w' : world) (row : list cell) : Prop :=
  exists p, ptree p = InputFolder /\
    ((row = [CStr "Copied"; CPath p; CPath (mirror p); CStr (path_ext p)] /\
      exists f g, lookup p (fs w) = Some f /\
                  lookup (mirror p) (fs w') = Some g /\
                  content g = content f) \/
     (row = [CStr "Deleted"; CPath p; CStr ""; CStr (path_ext p)] /\
      lookup p (fs w) <> None /\ lookup p (fs w') = None)).

(** From [w] to [w']: the input folder got no new file and no file of it
    changed; a file of the output folder is as it was or holds the bytes of
    the file it mirrors; and the new rows of the audit trail hold. *)
Definition reported (w w' : world) : Prop :=
  (forall p f, ptree p = InputFolder ->
     lookup p (fs w') = Some f -> lookup p (fs w) = Some f) /\
  (forall q, ptree q = OutputFolder ->
     lookup q (fs w') = lookup q (fs w) \/
     exists f g, lookup (source_of q) (fs w) = Some f /\
                 lookup q (fs w') = Some g /\ content g = content f) /\
  exists rows, actions_log w' = actions_log w ++ rows /\
               Forall (row_holds w w') rows.

(** The files of [tree_tab_order], each directory listed the other way
    round. *)
Definition tree_tab_listed_back : world :=
  start [ (inp ["a"] "p.dat", plain "TABLE" 100);
          (inp ["a"] "p.tab", plain "SHAPE" 100);
          (inp ["b"] "q.tab", plain "SHAPE" 200);
          (inp ["b"] "q.dat", plain "TABLE" 200) ] [] [] 1000.


(** Two versions of a table under one base name, and the table of that
    name. *)
Definition tree_tab_versions : world :=
  start [ (inp ["m"] "map.v1.tab", plain "first" 100);
          (inp ["m"] "map.v2.tab", plain "second" 200);
          (inp ["m"] "map.tab", plain "TABLE" 300) ] [] [] 1000.


(* ===================================================================== *)
(** * Proofs *)
(* ===================================================================== *)

(** ** Paths and the file table *)

Lemma tree_eqb_eq a b : tree_eqb a b = true <-> a = b.
Proof. destruct a, b; simpl; split; congruence. Qed.

Lemma dir_eqb_eq a : forall b, dir_eqb a b = true <-> a = b.
Proof.
  induction a as [|x a IH]; intros [|y b]; simpl; split; try congruence; auto.
  - intros H. apply andb_true_iff in H as [H1 H2].
    apply String.eqb_eq in H1. apply IH in H2. congruence.
  - intros H. inversion H; subst. rewrite String.eqb_refl. simpl.
    now apply IH.
Qed.

Lemma path_eqb_eq p q : path_eqb p q = true <-> p = q.
Proof.
  destruct p as [t d n], q as [t' d' n']; unfold path_eqb; simpl.
  rewrite !andb_true_iff, tree_eqb_eq, dir_eqb_eq, String.eqb_eq.
  split.
  - intros [[-> ->] ->]. reflexivity.
  - intros H. inversion H. auto.
Qed.

Lemma path_eqb_refl p : path_eqb p p = true.
Proof. now apply path_eqb_eq. Qed.

(** ** Hashing *)

Lemma chunk_size_pos : (0 < chunk_size)%nat.
Proof. unfold chunk_size. lia. Qed.

(** Reading in chunks of 8192 bytes feeds the digest the whole content. *)
Lemma feed_app bs : forall sha, feed sha bs = sha ++ bs.
Proof.
  unfold feed.
  assert (G : forall fuel bs sha, (List.length bs <= fuel)%nat ->
            fold_left sha256_update (read_chunks fuel bs) sha = sha ++ bs).
  { induction fuel as [|fuel IH]; intros l sha Hl.
    - destruct l; simpl in *; [now rewrite app_nil_r | lia].
    - destruct l as [|b l]; [simpl; now rewrite app_nil_r|].
      cbn [read_chunks fold_left]. rewrite IH.
      + unfold sha256_update. rewrite <- app_assoc.
        now rewrite firstn_skipn.
      + rewrite length_skipn. pose proof chunk_size_pos.
        cbn [List.length] in Hl |- *. lia. }
  intros sha. now apply G.
Qed.

Lemma hex_word_nonempty x : exists c s, Sha256.hex_word x = String c s.
Proof. unfold Sha256.hex_word. cbn [rev seq app fold_right]. eauto. Qed.

(** A hexadecimal digest is never the empty string: [if file_hash:] lets
    every digest through. *)
Lemma hexdigest_truthy sha : truthy (Some (hexdigest sha)) = true.
Proof.
  unfold hexdigest, Sha256.hex.
  destruct (hex_word_nonempty (Sha256.ra (Sha256.digest sha))) as (c & s & E).
  rewrite E. reflexivity.
Qed.

(** ** What the first loop of a pass keeps

    The scan logs and constructs objects, and nothing else: a relation that
    is reflexive, transitive and kept by these two steps is kept by the
    scan. *)
Section Scanning.
Variable R : world -> world -> Prop.
Hypothesis R_refl : forall w, R w w.
Hypothesis R_trans : forall a b c, R a b -> R b c -> R a c.
Hypothesis R_log : forall lv m w,
  success_message lv m = false -> R w (log lv m w).
Hypothesis R_oid : forall w, R w (fst (fresh_oid w)).

Lemma hash_members_keeps files :
  forall sha w, R w (fst (hash_members files sha w)).
Proof using R_refl R_trans R_log.
  induction files as [|f files IH]; intros sha w; simpl; auto.
  destruct (read_file w f); auto.
  eapply R_trans; [|apply IH]. now apply R_log.
Qed.

Lemma hash_group_fst files w :
  fst (hash_group files w) = fst (hash_members files sha256_new w).
Proof using. unfold hash_group. now destruct hash_members. Qed.

Lemma get_file_hash_keeps p w : R w (fst (get_file_hash p w)).
Proof using R_refl R_log.
  unfold get_file_hash. destruct (read_file w p); simpl; auto.
Qed.

Lemma hash_keeps x w : R w (fst (hash x w)).
Proof using R_refl R_trans R_log.
  destruct x; simpl; rewrite ?hash_group_fst;
    auto using hash_members_keeps, get_file_hash_keeps.
Qed.

Lemma new_ShapefileGroup_keeps p w : R w (fst (new_ShapefileGroup p w)).
Proof using R_refl R_trans R_log R_oid.
  unfold new_ShapefileGroup. cbn [fresh_oid].
  match goal with |- context [filter ?f ?l] => destruct (filter f l) end;
    cbn [fst].
  - eapply R_trans; [apply R_oid | now apply R_log].
  - apply R_oid.
Qed.

Lemma new_ImageGroup_keeps p w : R w (fst (new_ImageGroup p w)).
Proof using R_oid. apply R_oid. Qed.

Lemma new_PackageFile_keeps p w : R w (fst (new_PackageFile p w)).
Proof using R_oid. apply R_oid. Qed.

Lemma new_ZipFileHandler_keeps p w : R w (fst (new_ZipFileHandler p w)).
Proof using R_oid. apply R_oid. Qed.

Lemma new_NonGISDatabase_keeps p w : R w (fst (new_NonGISDatabase p w)).
Proof using R_oid. apply R_oid. Qed.

Lemma new_GenericFile_keeps p w : R w (fst (new_GenericFile p w)).
Proof using R_oid. apply R_oid. Qed.

Lemma new_MapInfoGroup_keeps p w : R w (fst (new_MapInfoGroup p w)).
Proof using R_trans R_log R_oid.
  unfold new_MapInfoGroup. cbn [fresh_oid].
  unfold _gather_components.
  match goal with |- context [flat_map ?f ?l] => destruct (flat_map f l) end;
    cbn [fst]; (eapply R_trans; [apply R_oid | now apply R_log]).
Qed.

Lemma scan_loop_keeps is_entry hc :
  (forall p w, R w (fst (hc p w))) ->
  forall paths d w, R w (fst (scan_loop is_entry hc paths d w)).
Proof using R_refl R_trans R_log.
  intros Hhc. induction paths as [|p paths IH]; intros d w; simpl; auto.
  destruct (is_entry (pname p)); auto.
  destruct (hc p w) as [w1 obj] eqn:E1.
  destruct (hash obj w1) as [w2 h] eqn:E2.
  assert (R w w2).
  { eapply R_trans.
    - specialize (Hhc p w). rewrite E1 in Hhc. exact Hhc.
    - pose proof (hash_keeps obj w1) as Hh. rewrite E2 in Hh. exact Hh. }
  destruct h as [h|]; [destruct (truthy (Some h))|];
    (eapply R_trans; [eassumption | apply IH]).
Qed.

Lemma scan_keeps is_entry hc :
  (forall p w, R w (fst (hc p w))) ->
  forall w, R w (fst (scan is_entry hc w)).
Proof using R_refl R_trans R_log.
  intros. unfold scan. now apply scan_loop_keeps.
Qed.
End Scanning.

(** ** What a whole pass keeps

    The second loop also rewrites the file table, appends to [actions_log]
    and to the history. *)
Section Running.
Variable R : world -> world -> Prop.
Hypothesis R_refl : forall w, R w w.
Hypothesis R_trans : forall a b c, R a b -> R b c -> R a c.
Hypothesis R_log : forall lv m w,
  success_message lv m = false -> R w (log lv m w).
Hypothesis R_oid : forall w, R w (fst (fresh_oid w)).
Hypothesis R_copied : forall src fs' w, copy2 src (mirror src) w = Some fs' ->
  R w (actions_log_append
         [CStr "Copied"; CPath src; CPath (mirror src); CStr (path_ext src)]
         (log INFO (MsgCopied src (mirror src)) (set_fs fs' w))).
Hypothesis R_deleted : forall p fs' w, os_remove p w = Some fs' ->
  R w (actions_log_append
         [CStr "Deleted"; CPath p; CStr ""; CStr (path_ext p)]
         (log INFO (MsgDeleted p) (set_fs fs' w))).
Hypothesis R_call : forall c w, R w (record_call c w).

Lemma copy_file_keeps src w : R w (copy_file src (mirror src) w).
Proof using R_log R_copied.
  unfold copy_file. destruct (copy2 src (mirror src) w) eqn:E; auto.
Qed.

Lemma delete_file_keeps p w : R w (delete_file p w).
Proof using R_log R_deleted.
  unfold delete_file. destruct (os_remove p w) eqn:E; auto.
Qed.

Lemma fold_left_keeps {A} (f : world -> A -> world) :
  (forall w a, R w (f w a)) -> forall l w, R w (fold_left f l w).
Proof using R_refl R_trans.
  intros Hf. induction l as [|a l IH]; intros w; simpl; auto.
  eapply R_trans; [apply Hf | apply IH].
Qed.

Lemma copy_to_keeps x w : R w (copy_to x w).
Proof using R_refl R_trans R_log R_copied R_call.
  unfold copy_to. eapply R_trans; [apply R_call|].
  apply fold_left_keeps. intros. apply copy_file_keeps.
Qed.

Lemma delete_keeps x w : R w (delete x w).
Proof using R_refl R_trans R_log R_deleted R_call.
  unfold delete. eapply R_trans; [apply R_call|].
  apply fold_left_keeps. intros. apply delete_file_keeps.
Qed.













End Running.

(** ** The audit trail *)










(** ** Which errors end a run *)









(** With no refused lookup, [_safe_ctime] gives the creation time of the
    path, infinity when there is no such file. *)
Lemma _safe_ctime_ok p w :
  stat_denied w = [] -> _safe_ctime p w = (w, Ok (creation_time w p)).
Proof.
  intros H. unfold _safe_ctime, creation_time. rewrite H. simpl.
  now destruct lookup.
Qed.

Lemma map_M_ctime_ok {A} (key_path : A -> path) w :
  stat_denied w = [] ->
  forall l, map_M (fun x => _safe_ctime (key_path x)) l w =
            (w, Ok (map (fun x => creation_time w (key_path x)) l)).
Proof.
  intros H. induction l as [|a l IH]; simpl; auto.
  unfold bind. rewrite _safe_ctime_ok by auto. now rewrite IH.
Qed.

Lemma sort_group_ok key_path group w :
  stat_denied w = [] ->
  sort_group key_path group w =
  (w, Ok (map snd (stable_sort
       (combine (map (fun x => creation_time w (key_path x)) group) group)))).
Proof.
  intros H. unfold sort_group, bind. now rewrite map_M_ctime_ok.
Qed.








(** ** The digest against its published test vectors *)

Example sha256_of_nothing :
  hexdigest [] =
  "e3b0c44298fc1c149afbf4c8996fb92427ae41e4649b934ca495991b7852b855".
Proof. vm_compute. reflexivity. Qed.

Example sha256_of_abc :
  hexdigest (bytes_of_string "abc") =
  "ba7816bf8f01cfea414140de5dae2223b00361a396177a9cb410ff61f20015ad".
Proof. vm_compute. reflexivity. Qed.

Example sha256_of_two_blocks :
  hexdigest (bytes_of_string
    "abcdbcdecdefdefgefghfghighijhijkijkljklmklmnlmnomnopnopq") =
  "248d6a61d20638b8e5c026930c3e6039a33ce45964ff2167f6ecedd419db06c1".
Proof. vm_compute. reflexivity. Qed.

(** ** The sort of a group *)





Section StableSort.
Context {A : Type}.
Implicit Types (x : timestamp * A) (l : list (timestamp * A)).

Lemma insert_by_key_perm x l : Permutation (x :: l) (insert_by_key x l).
Proof.
  induction l as [|y l IH]; simpl; auto.
  destruct (ts_leb (fst x) (fst y)); auto.
  rewrite perm_swap. now constructor.
Qed.

Lemma stable_sort_perm l : Permutation l (stable_sort l).
Proof.
  induction l as [|x l IH]; simpl; auto.
  rewrite <- insert_by_key_perm. now constructor.
Qed.




End StableSort.

(** Decorating a list with keys and sorting: what is left after the keys
    are dropped. *)
Section Decorated.
Context {A : Type} (key : A -> timestamp).

Lemma map_snd_decorate (l : list A) : map snd (combine (map key l) l) = l.
Proof. induction l; simpl; congruence. Qed.


Lemma sort_decorated_perm (l : list A) :
  Permutation l (map snd (stable_sort (combine (map key l) l))).
Proof.
  rewrite <- (map_snd_decorate l) at 1.
  apply Permutation_map, stable_sort_perm.
Qed.




End Decorated.

Lemma map_M_ctime_spec {A} (key_path : A -> path) w l :
  map_M (fun x => _safe_ctime (key_path x)) l w =
  (w, match first_denied w (map key_path l) with
      | Some p => Raise (OSError p)
      | None => Ok (map (fun x => creation_time w (key_path x)) l)
      end).
Proof.
  induction l as [|a l IH]; auto.
  cbn [map_M map first_denied find]. unfold bind at 1.
  unfold _safe_ctime at 1.
  destruct (mem_path (key_path a) (stat_denied w)); auto.
  fold (first_denied w (map key_path l)).
  assert (E : forall t, bind (map_M (fun x => _safe_ctime (key_path x)) l)
                          (fun ys => ret (t :: ys)) w =
              (w, match first_denied w (map key_path l) with
                  | Some p => Raise (OSError p)
                  | None => Ok (t :: map (fun x => creation_time w (key_path x)) l)
                  end)).
  { intros t. unfold bind. rewrite IH. now destruct first_denied. }
  unfold creation_time at 1. destruct (lookup (key_path a) (fs w)); apply E.
Qed.

Lemma sort_group_spec key_path group w :
  sort_group key_path group w =
  (w, match first_denied w (map key_path group) with
      | Some p => Raise (OSError p)
      | None => Ok (map snd (stable_sort
                      (combine (map (key_in w key_path) group) group)))
      end).
Proof.
  unfold sort_group, bind. rewrite map_M_ctime_spec.
  now destruct first_denied.
Qed.



(** ** The history of calls *)

Lemma calls_copy_file src dst w : calls (copy_file src dst w) = calls w.
Proof. unfold copy_file. now destruct copy2. Qed.

Lemma calls_delete_file p w : calls (delete_file p w) = calls w.
Proof. unfold delete_file. now destruct os_remove. Qed.

Lemma calls_fold_left {A} (f : world -> A -> world) :
  (forall w a, calls (f w a) = calls w) ->
  forall l w, calls (fold_left f l w) = calls w.
Proof.
  intros Hf. induction l as [|a l IH]; intros w; simpl; auto.
  now rewrite IH, Hf.
Qed.

Lemma calls_copy_to x w : calls (copy_to x w) = calls w ++ [CallCopyTo (oid_of x)].
Proof.
  unfold copy_to. rewrite calls_fold_left; auto.
  intros. apply calls_copy_file.
Qed.

Lemma calls_delete x w : calls (delete x w) = calls w ++ [CallDelete (oid_of x)].
Proof.
  unfold delete. rewrite calls_fold_left; auto.
  intros. apply calls_delete_file.
Qed.

Lemma duplicates_loop_cons d ds w :
  for_each (d :: ds)
    (fun dup => bind (step (copy_to dup)) (fun _ => step (delete dup))) w =
  for_each ds
    (fun dup => bind (step (copy_to dup)) (fun _ => step (delete dup)))
    (delete d (copy_to d w)).
Proof. reflexivity. Qed.

Lemma duplicates_loop duplicates :
  forall w,
    snd (for_each duplicates
           (fun dup => bind (step (copy_to dup)) (fun _ => step (delete dup))) w)
      = Ok tt /\
    calls (fst (for_each duplicates
           (fun dup => bind (step (copy_to dup)) (fun _ => step (delete dup))) w))
      = calls w ++ calls_on duplicates.
Proof.
  induction duplicates as [|d ds IH]; intros w.
  - simpl. now rewrite app_nil_r.
  - rewrite duplicates_loop_cons.
    destruct (IH (delete d (copy_to d w))) as [E1 E2].
    split; [exact E1|].
    rewrite E2, calls_delete, calls_copy_to. cbn [calls_on flat_map].
    now rewrite <- !app_assoc.
Qed.

(** [consolidate_group], its binds unfolded. *)
Lemma consolidate_group_eq label retained group w :
  consolidate_group label retained group w =
  if (1 <? List.length group)%nat then
    match sort_group identity_path group w with
    | (w1, Ok []) => (w1, Ok tt)
    | (w1, Ok (original :: duplicates)) =>
        for_each duplicates
          (fun dup => bind (step (copy_to dup)) (fun _ => step (delete dup)))
          (log INFO (MsgRetaining label (retained original))
               (record_call (Original (oid_of original)) w1))
    | (w1, Raise e) => (w1, Raise e)
    end
  else (w, Ok tt).
Proof.
  unfold consolidate_group.
  destruct (1 <? List.length group)%nat; [|reflexivity].
  unfold bind at 1.
  destruct (sort_group identity_path group w) as [w1 [[|o ds]|e]]; reflexivity.
Qed.

(** What [consolidate_group] adds to the history, and how it ends. *)
Lemma consolidate_group_calls label retained group w :
  calls (fst (consolidate_group label retained group w)) =
    calls w ++
    (if (1 <? List.length group)%nat then
       match snd (sort_group identity_path group w) with
       | Ok (original :: duplicates) =>
           Original (oid_of original) :: calls_on duplicates
       | _ => []
       end
     else []) /\
  snd (consolidate_group label retained group w) =
    (if (1 <? List.length group)%nat then
       match snd (sort_group identity_path group w) with
       | Ok _ => Ok tt
       | Raise e => Raise e
       end
     else Ok tt).
Proof.
  rewrite consolidate_group_eq.
  destruct (1 <? List.length group)%nat; [|simpl; now rewrite app_nil_r].
  rewrite sort_group_spec. cbn [snd].
  destruct (first_denied w (map identity_path group));
    [cbn [fst snd]; now rewrite app_nil_r|].
  destruct (map snd _) as [|original duplicates];
    [cbn [fst snd]; now rewrite app_nil_r|].
  match goal with |- context [for_each duplicates ?b ?w0] =>
    destruct (duplicates_loop duplicates w0) as [E1 E2] end.
  split; [|exact E1].
  rewrite E2. cbn [calls log record_call]. now rewrite <- app_assoc.
Qed.



(** ** Object identities in a scan *)

Lemma all_objs_dict_append h obj d :
  Permutation (all_objs (dict_append h obj d)) (obj :: all_objs d).
Proof.
  unfold all_objs, values.
  induction d as [|[k v] d IH]; simpl; auto.
  destruct (String.eqb k h); simpl.
  - rewrite <- app_assoc. simpl.
    rewrite <- Permutation_middle. reflexivity.
  - rewrite IH. rewrite Permutation_middle. reflexivity.
Qed.

Lemma next_oid_hash x w : next_oid (fst (hash x w)) = next_oid w.
Proof.
  apply (hash_keeps (fun w w' => next_oid w' = next_oid w));
    intros; simpl; congruence.
Qed.

Lemma fresh_classes :
  fresh_class new_ShapefileGroup /\ fresh_class new_MapInfoGroup /\
  fresh_class new_ImageGroup /\ fresh_class new_PackageFile /\
  fresh_class new_ZipFileHandler /\ fresh_class new_NonGISDatabase /\
  fresh_class new_GenericFile.
Proof.
  unfold fresh_class.
  split; [|split; [|repeat split]].
  - intros p w. unfold new_ShapefileGroup. cbn [fresh_oid].
    now destruct (filter _ _).
  - intros p w. unfold new_MapInfoGroup, _gather_components. cbn [fresh_oid].
    now destruct (flat_map _ _).
Qed.

Lemma scan_loop_oids is_entry hc :
  fresh_class hc ->
  forall paths d w,
    (forall x, In x (all_objs d) -> (oid_of x < next_oid w)%nat) ->
    NoDup (map oid_of (all_objs d)) ->
    (forall x, In x (all_objs (snd (scan_loop is_entry hc paths d w))) ->
               (oid_of x < next_oid (fst (scan_loop is_entry hc paths d w)))%nat) /\
    NoDup (map oid_of (all_objs (snd (scan_loop is_entry hc paths d w)))).
Proof.
  intros Hhc. induction paths as [|p paths IH]; intros d w Hlt Hnd; simpl; auto.
  destruct (is_entry (pname p)); auto.
  destruct (Hhc p w) as [Ho Hn].
  destruct (hc p w) as [w1 obj]. cbn [fst snd] in Ho, Hn.
  pose proof (next_oid_hash obj w1) as Hh.
  destruct (hash obj w1) as [w2 h]. cbn [fst] in Hh.
  assert (Hlt2 : forall x, In x (all_objs d) -> (oid_of x < next_oid w2)%nat).
  { intros x Hx. specialize (Hlt x Hx). lia. }
  destruct h as [h|]; [destruct (truthy (Some h))|]; auto.
  apply IH.
  - intros x Hx. apply (Permutation_in _ (all_objs_dict_append h obj d)) in Hx.
    destruct Hx as [<-|Hx]; auto. lia.
  - rewrite (Permutation_map oid_of (all_objs_dict_append h obj d)).
    simpl. constructor; auto.
    intros Hin. apply in_map_iff in Hin as (x & Ex & Hx).
    specialize (Hlt x Hx). lia.
Qed.

Lemma scan_oids is_entry hc w :
  fresh_class hc ->
  NoDup (map oid_of (all_objs (snd (scan is_entry hc w)))).
Proof.
  intros Hhc. unfold scan.
  apply scan_loop_oids; auto; simpl; [contradiction | constructor].
Qed.

Lemma family_scan_oids f w :
  NoDup (map oid_of (all_objs (snd (family_scan f w)))).
Proof.
  destruct fresh_classes as (H1 & H2 & H3 & H4 & H5 & H6 & H7).
  destruct f; simpl; now apply scan_oids.
Qed.

Lemma family_pass_eq f w :
  family_pass f w =
  family_consolidate f (snd (family_scan f w)) (fst (family_scan f w)).
Proof.
  destruct f; unfold family_scan; simpl;
    unfold _process_shapefiles, _process_mapinfo, _process_files,
      _process_generic_files, bind, call_;
    now destruct (scan _ _ w).
Qed.

(** ** The calls of the second loop *)

Lemma NoDup_app_disjoint {A} (l1 l2 : list A) a :
  NoDup (l1 ++ l2) -> In a l1 -> In a l2 -> False.
Proof.
  induction l1 as [|b l1 IH]; simpl; [tauto|].
  intros Hn H1 H2. apply NoDup_cons_iff in Hn as [Hb Hn].
  destruct H1 as [->|H1].
  - apply Hb. apply in_or_app. now right.
  - now apply IH.
Qed.

Lemma in_calls_on c ds :
  In c (calls_on ds) ->
  exists d, In d ds /\ (c = CallCopyTo (oid_of d) \/ c = CallDelete (oid_of d)).
Proof.
  unfold calls_on. intros H. apply in_flat_map in H as (d & Hd & Hc).
  exists d. simpl in Hc. intuition auto.
Qed.

Lemma group_calls_oids g tr :
  group_calls g tr ->
  forall c, In c tr ->
    (1 < List.length g)%nat /\ In (oid_of_call c) (map oid_of g).
Proof.
  destruct 1 as [g|g o ds w0 Hlen _ Hp]; intros c Hc; [contradiction|].
  split; auto.
  rewrite (Permutation_map oid_of Hp).
  destruct Hc as [<-|Hc]; [now left|].
  apply in_calls_on in Hc as (d & Hd & [->| ->]); right; simpl;
    now apply in_map.
Qed.

Lemma group_calls_survivor g tr :
  group_calls g tr -> NoDup (map oid_of g) ->
  forall o, In (Original o) tr ->
    ~ In (CallCopyTo o) tr /\ ~ In (CallDelete o) tr.
Proof.
  destruct 1 as [g|g orig ds w0 Hlen _ Hp]; intros Hn o Ho; [contradiction|].
  rewrite (Permutation_map oid_of Hp) in Hn. simpl in Hn.
  apply NoDup_cons_iff in Hn as [Hnot _].
  assert (o = oid_of orig) as ->.
  { destruct Ho as [E|Ho]; [congruence|].
    apply in_calls_on in Ho as (d & _ & [E|E]); discriminate. }
  split; intros [E|Hc]; try discriminate;
    apply in_calls_on in Hc as (d & Hd & [E|E]); try discriminate;
    inversion E as [E']; apply Hnot; rewrite E'; now apply in_map.
Qed.

Lemma all_calls_oids gs trs :
  Forall2 group_calls gs trs ->
  forall c, In c (List.concat trs) ->
    exists g, In g gs /\ (1 < List.length g)%nat /\
              In (oid_of_call c) (map oid_of g).
Proof.
  induction 1 as [|g tr gs trs Hg Hf IH]; simpl; [contradiction|].
  intros c Hc. apply in_app_or in Hc as [Hc|Hc].
  - exists g. destruct (group_calls_oids _ _ Hg c Hc). auto.
  - destruct (IH c Hc) as (g' & ? & ? & ?). exists g'. auto.
Qed.

Lemma oid_in_one_group (gs : list (list handler)) :
  NoDup (map oid_of (List.concat gs)) ->
  forall g g' o, In g gs -> In g' gs ->
    In o (map oid_of g) -> In o (map oid_of g') -> g = g'.
Proof.
  induction gs as [|h gs IH]; simpl; [contradiction|].
  rewrite map_app. intros Hn g g' o [<-|Hg] [<-|Hg'] Ho Ho'; auto.
  - exfalso. apply (NoDup_app_disjoint _ _ o Hn Ho).
    rewrite concat_map. apply in_concat. exists (map oid_of g').
    split; auto. now apply in_map.
  - exfalso. apply (NoDup_app_disjoint _ _ o Hn Ho').
    rewrite concat_map. apply in_concat. exists (map oid_of g).
    split; auto. now apply in_map.
  - apply NoDup_app_remove_l in Hn. eauto.
Qed.

Lemma in_concat_oids (gs : list (list handler)) g o :
  In g gs -> In o (map oid_of g) -> In o (map oid_of (List.concat gs)).
Proof.
  intros Hg Ho. rewrite concat_map. apply in_concat.
  exists (map oid_of g). split; auto. now apply in_map.
Qed.

Lemma all_calls_survivor gs trs :
  Forall2 group_calls gs trs ->
  NoDup (map oid_of (List.concat gs)) ->
  forall o, In (Original o) (List.concat trs) ->
    ~ In (CallCopyTo o) (List.concat trs) /\
    ~ In (CallDelete o) (List.concat trs).
Proof.
  induction 1 as [|g tr gs trs Hg Hf IH]; simpl; [contradiction|].
  rewrite map_app. intros Hn o Ho.
  assert (Hcross : forall c c', oid_of_call c = oid_of_call c' ->
            In c tr -> In c' (List.concat trs) -> False).
  { intros c c' E Hc Hc'.
    destruct (group_calls_oids _ _ Hg c Hc) as [_ H1].
    destruct (all_calls_oids _ _ Hf c' Hc') as (g' & Hg' & _ & H2).
    rewrite <- E in H2.
    eapply NoDup_app_disjoint; eauto using in_concat_oids. }
  apply in_app_or in Ho as [Ho|Ho].
  - destruct (group_calls_survivor _ _ Hg (NoDup_app_remove_r _ _ Hn) o Ho)
      as [N1 N2].
    split; intros Hc; apply in_app_or in Hc as [Hc|Hc]; auto.
    + now apply (Hcross (Original o) (CallCopyTo o)).
    + now apply (Hcross (Original o) (CallDelete o)).
  - destruct (IH (NoDup_app_remove_l _ _ Hn) o Ho) as [N1 N2].
    split; intros Hc; apply in_app_or in Hc as [Hc|Hc]; auto.
    + now apply (Hcross (CallCopyTo o) (Original o)).
    + now apply (Hcross (CallDelete o) (Original o)).
Qed.

Lemma consolidate_group_gc g w :
  group_calls g
    (if (1 <? List.length g)%nat then
       match snd (sort_group identity_path g w) with
       | Ok (original :: duplicates) =>
           Original (oid_of original) :: calls_on duplicates
       | _ => []
       end
     else []).
Proof.
  destruct (1 <? List.length g)%nat eqn:El; [|constructor].
  destruct (snd (sort_group identity_path g w)) as [[|original duplicates]|e]
    eqn:Es; try constructor.
  apply gc_some with (w0 := w); auto.
  - now apply Nat.ltb_lt.
  - rewrite sort_group_spec in Es. cbn [snd] in Es.
    destruct (first_denied w (map identity_path g)); [discriminate|].
    inversion Es as [Es']. apply sort_decorated_perm.
Qed.

Lemma skipped_groups (gs : list (list handler)) :
  Forall2 group_calls gs (map (fun _ => []) gs) /\
  List.concat (map (fun _ : list handler => @nil call) gs) = [].
Proof.
  induction gs as [|g gs [IH1 IH2]]; simpl; split; auto;
    constructor; auto; constructor.
Qed.

Lemma consolidate_gc label retained :
  forall gs w, exists trs,
    Forall2 group_calls gs trs /\
    calls (fst (for_each gs (consolidate_group label retained) w)) =
    calls w ++ List.concat trs.
Proof.
  induction gs as [|g gs IH]; intros w.
  - exists []. split; [constructor|]. simpl. now rewrite app_nil_r.
  - cbn [for_each]. unfold bind.
    destruct (consolidate_group_calls label retained g w) as [Ec _].
    pose proof (consolidate_group_gc g w) as Hg.
    destruct (consolidate_group label retained g w) as [w1 [[]|e]];
      cbn [fst] in *.
    + destruct (IH w1) as (trs & Hf & E).
      eexists (_ :: trs). split; [constructor; eauto|].
      rewrite E, Ec. simpl. now rewrite app_assoc.
    + destruct (skipped_groups gs) as [Hf E].
      eexists (_ :: _). split; [constructor; eauto|].
      rewrite Ec. simpl. now rewrite E, app_nil_r.
Qed.

Lemma calls_scan is_entry hc w :
  (forall p w, same_calls w (fst (hc p w))) ->
  calls (fst (scan is_entry hc w)) = calls w.
Proof.
  intros H. apply (scan_keeps same_calls); unfold same_calls in *;
    intros; simpl; auto; congruence.
Qed.

Lemma calls_family_scan f w : calls (fst (family_scan f w)) = calls w.
Proof.
  assert (Hr : forall w, same_calls w w) by reflexivity.
  assert (Ht : forall a b c, same_calls a b -> same_calls b c -> same_calls a c)
    by (unfold same_calls; congruence).
  assert (Hl : forall lv m w, success_message lv m = false ->
                              same_calls w (log lv m w)) by reflexivity.
  assert (Ho : forall w, same_calls w (fst (fresh_oid w))) by reflexivity.
  destruct f; simpl; apply calls_scan; intros p w'.
  - now apply new_ShapefileGroup_keeps.
  - now apply new_MapInfoGroup_keeps.
  - now apply new_ImageGroup_keeps.
  - now apply new_PackageFile_keeps.
  - now apply new_ZipFileHandler_keeps.
  - now apply new_NonGISDatabase_keeps.
  - now apply new_GenericFile_keeps.
Qed.

Lemma family_consolidate_gc f d w :
  exists trs,
    Forall2 group_calls (values d) trs /\
    calls (fst (family_consolidate f d w)) = calls w ++ List.concat trs.
Proof. destruct f; apply consolidate_gc. Qed.

(** C10.  In every family pass, written as its two loops, the history grows
    by one piece per bucket of the scan: nothing for a bucket of one element,
    and otherwise the choice of the first element of the sorted bucket as
    survivor followed by [copy_to] and [delete] on each of the others.  So
    every call is on an object of a bucket of more than one element, no
    object chosen as survivor has either method called on it, and no object
    of a bucket of one element has. *)
Theorem calls_only_on_duplicates (f : family) (w : world) :
  family_pass f w =
    family_consolidate f (snd (family_scan f w)) (fst (family_scan f w)) /\
  exists pieces,
    calls (fst (family_pass f w)) = calls w ++ List.concat pieces /\
    Forall2 group_calls (values (snd (family_scan f w))) pieces /\
    (forall c, In c (List.concat pieces) ->
       exists g, In g (values (snd (family_scan f w))) /\
                 (1 < List.length g)%nat /\
                 In (oid_of_call c) (map oid_of g)) /\
    (forall o, In (Original o) (List.concat pieces) ->
       ~ In (CallCopyTo o) (List.concat pieces) /\
       ~ In (CallDelete o) (List.concat pieces)) /\
    (forall g x, In g (values (snd (family_scan f w))) ->
       (List.length g <= 1)%nat -> In x g ->
       ~ In (CallCopyTo (oid_of x)) (List.concat pieces) /\
       ~ In (CallDelete (oid_of x)) (List.concat pieces)).
Proof.
  split; [apply family_pass_eq|].
  rewrite family_pass_eq.
  pose proof (family_scan_oids f w) as Hn.
  pose proof (calls_family_scan f w) as Hc.
  destruct (family_scan f w) as [w1 d]. cbn [fst snd] in *.
  destruct (family_consolidate_gc f d w1) as (pieces & Hf & E).
  exists pieces. rewrite E, Hc.
  split; [reflexivity|]. split; [exact Hf|].
  split; [exact (all_calls_oids _ _ Hf)|].
  split; [exact (all_calls_survivor _ _ Hf Hn)|].
  intros g x Hg Hlen Hx.
  assert (G : forall c, oid_of_call c = oid_of x ->
                        ~ In c (List.concat pieces)).
  { intros c Ec Hin.
    destruct (all_calls_oids _ _ Hf c Hin) as (g' & Hg' & Hlen' & Ho).
    assert (g = g').
    { apply (oid_in_one_group (values d) Hn g g' (oid_of x)); auto.
      - now apply in_map.
      - now rewrite <- Ec. }
    subst g'. lia. }
  split; apply G; reflexivity.
Qed.

(** ** Runs on concrete trees *)

(** C1, on the failing input.  The two archives of [tree_zip_denied] are
    duplicates; the copy of [b/d.zip] to its mirrored place fails, and
    [delete] is called all the same: after the run [b/d.zip] is neither in
    the input folder nor in the output folder, and the audit trail has its
    Deleted row and no Copied row. *)
Theorem failed_copy_is_still_deleted :
  copy2 (inp ["b"] "d.zip") (out ["b"] "d.zip") tree_zip_denied = None /\
  lookup (inp ["b"] "d.zip") (fs tree_zip_denied) = Some (plain "PK-archive" 200) /\
  lookup (inp ["b"] "d.zip") (fs (fst (main tree_zip_denied))) = None /\
  lookup (out ["b"] "d.zip") (fs (fst (main tree_zip_denied))) = None /\
  actions_log (fst (main tree_zip_denied)) =
    [[CStr "Deleted"; CPath (inp ["b"] "d.zip"); CStr ""; CStr ".zip"]] /\
  logger (fst (main tree_zip_denied)) =
    [ (INFO, MsgStarting);
      (INFO, MsgRetaining "ZIP" (inp ["a"] "d.zip"));
      (ERROR, MsgCopyFailed (inp ["b"] "d.zip") (out ["b"] "d.zip"));
      (INFO, MsgDeleted (inp ["b"] "d.zip"));
      (INFO, MsgComplete) ].
Proof. vm_compute. repeat split. Qed.

(** The [hash] of a grouped class whose members all fail to open is the
    digest of no bytes at all, a string that is not empty. *)
Lemma hash_members_unreadable files :
  forall sha w, (forall f, In f files -> read_file w f = None) ->
                snd (hash_members files sha w) = sha.
Proof.
  induction files as [|f files IH]; intros sha w H; simpl; auto.
  rewrite (H f) by now left.
  apply IH. intros g Hg. apply (H g). now right.
Qed.

Lemma hash_group_unreadable files w :
  (forall f, In f files -> read_file w f = None) ->
  snd (hash_group files w) = Some (hexdigest []) /\
  truthy (snd (hash_group files w)) = true.
Proof.
  intros H. unfold hash_group.
  pose proof (hash_members_unreadable files sha256_new w H) as E.
  destruct (hash_members files sha256_new w) as [w' sha]. cbn [fst snd] in *.
  subst sha. split; [reflexivity | exact (hexdigest_truthy sha256_new)].
Qed.

(** The single-file classes do return no fingerprint. *)
Lemma get_file_hash_unreadable p w :
  read_file w p = None -> snd (get_file_hash p w) = None.
Proof. intros H. unfold get_file_hash. now rewrite H. Qed.

(** C2, on the failing input.  Neither shapefile of [tree_unreadable_shp]
    can be opened, and their contents differ.  Each gets the digest of the
    empty input as fingerprint, so both land in one bucket; the first is
    retained, the second one's copy fails and it is deleted. *)
Theorem unreadable_group_is_clustered :
  read_file tree_unreadable_shp (inp ["a"] "roads.shp") = None /\
  read_file tree_unreadable_shp (inp ["b"] "rivers.shp") = None /\
  snd (family_scan Shapefile tree_unreadable_shp) =
    [ ("e3b0c44298fc1c149afbf4c8996fb92427ae41e4649b934ca495991b7852b855",
       [ ShapefileGroup 0 (inp ["a"] "roads") [inp ["a"] "roads.shp"];
         ShapefileGroup 1 (inp ["b"] "rivers") [inp ["b"] "rivers.shp"] ]) ] /\
  calls (fst (main tree_unreadable_shp)) =
    [ Original 0; CallCopyTo 1; CallDelete 1 ] /\
  lookup (inp ["b"] "rivers.shp") (fs (fst (main tree_unreadable_shp))) = None /\
  lookup (out ["b"] "rivers.shp") (fs (fst (main tree_unreadable_shp))) = None /\
  actions_log (fst (main tree_unreadable_shp)) =
    [[CStr "Deleted"; CPath (inp ["b"] "rivers.shp"); CStr ""; CStr ".shp"]].
Proof. vm_compute. repeat split. Qed.

(** C4, on the failing input.  The two shapefiles of [tree_shp_order] have
    the same two components byte for byte, listed in a different order by
    their directories.  [ShapefileGroup.hash] reads the members in listing
    order, the fingerprints differ, and nothing is consolidated. *)
Theorem shapefile_hash_follows_listing_order :
  snd (family_scan Shapefile tree_shp_order) =
    [ ("eed941306a7f5577eb80f4e64629076a0c6ef5a56ebb5e0bfbd2a2dce7a57710",
       [ ShapefileGroup 0 (inp ["a"] "p") [inp ["a"] "p.shp"; inp ["a"] "p.dbf"] ]);
      ("1ca98fe582cc24e0d1a3c417842060b62065bbc1c9e72ceda0d3c6ba66bac5e5",
       [ ShapefileGroup 1 (inp ["b"] "q") [inp ["b"] "q.dbf"; inp ["b"] "q.shp"] ]) ] /\
  map (fun f => option_map content (lookup f (fs tree_shp_order)))
      [inp ["a"] "p.shp"; inp ["a"] "p.dbf"] =
  map (fun f => option_map content (lookup f (fs tree_shp_order)))
      [inp ["b"] "q.shp"; inp ["b"] "q.dbf"] /\
  fs (fst (main tree_shp_order)) = fs tree_shp_order /\
  actions_log (fst (main tree_shp_order)) = [].
Proof. vm_compute. repeat split. Qed.

(** The sibling class sorts its members before hashing: the same components
    as MapInfo tables get one fingerprint, and the newer table is
    consolidated. *)
Lemma mapinfo_hash_ignores_listing_order :
  map fst (snd (family_scan MapInfo tree_tab_order)) =
    [ "1ca98fe582cc24e0d1a3c417842060b62065bbc1c9e72ceda0d3c6ba66bac5e5" ] /\
  map fst (fs (fst (main tree_tab_order))) =
    [ inp ["a"] "p.tab"; inp ["a"] "p.dat"; out ["b"] "q.tab"; out ["b"] "q.dat" ].
Proof. vm_compute. repeat split. Qed.

(** C7, on the failing input.  [a/x.txt] is the older file, and the input
    folder lists [b] first.  The sort looks up the creation time of the base
    paths [b/x] and [a/x], which name no file: both keys are infinity, the
    order of the walk stands, [b/x.txt] is retained and [a/x.txt], the older
    one, is copied to [out/a/x.txt] and deleted. *)
Theorem older_file_is_consolidated :
  option_map ctime (lookup (inp ["a"] "x.txt") (fs tree_ab_b_first)) = Some 100%Z /\
  option_map ctime (lookup (inp ["b"] "x.txt") (fs tree_ab_b_first)) = Some 200%Z /\
  snd (family_scan Generic tree_ab_b_first) =
    [ ("0967115f2813a3541eaef77de9d9d5773f1c0c04314b0bbfe4ff3b3b1c55b5d5",
       [ GenericFile 0 (inp ["b"] "x.txt") (inp ["b"] "x") [inp ["b"] "x.txt"];
         GenericFile 1 (inp ["a"] "x.txt") (inp ["a"] "x") [inp ["a"] "x.txt"] ]) ] /\
  creation_time tree_ab_b_first (inp ["a"] "x") = Infinity /\
  creation_time tree_ab_b_first (inp ["b"] "x") = Infinity /\
  map fst (fs (fst (main tree_ab_b_first))) =
    [ inp ["b"] "x.txt"; out ["a"] "x.txt" ] /\
  report (fst (main tree_ab_b_first)) =
    Some [ csv_header;
           [CStr "Copied"; CPath (inp ["a"] "x.txt"); CPath (out ["a"] "x.txt");
            CStr ".txt"];
           [CStr "Deleted"; CPath (inp ["a"] "x.txt"); CStr ""; CStr ".txt"] ].
Proof. vm_compute. repeat split. Qed.

(** When the listing gives [a] first the run ends as the scenario says. *)
Lemma newer_file_is_consolidated_when_listed_last :
  map fst (fs (fst (main tree_ab_a_first))) =
    [ inp ["a"] "x.txt"; out ["b"] "x.txt" ] /\
  report (fst (main tree_ab_a_first)) =
    Some [ csv_header;
           [CStr "Copied"; CPath (inp ["b"] "x.txt"); CPath (out ["b"] "x.txt");
            CStr ".txt"];
           [CStr "Deleted"; CPath (inp ["b"] "x.txt"); CStr ""; CStr ".txt"] ].
Proof. vm_compute. repeat split. Qed.

(** ** The scan of a single-file family *)

Lemma same_fs_scan_ingredients :
  (forall w, same_fs w w) /\
  (forall a b c, same_fs a b -> same_fs b c -> same_fs a c) /\
  (forall lv m w, success_message lv m = false -> same_fs w (log lv m w)) /\
  (forall w, same_fs w (fst (fresh_oid w))).
Proof. unfold same_fs. repeat split; intros; simpl; congruence. Qed.

Lemma fs_hash x w : fs (fst (hash x w)) = fs w.
Proof.
  destruct same_fs_scan_ingredients as (H1 & H2 & H3 & _).
  now apply (hash_keeps same_fs).
Qed.

Lemma read_file_fs w w' p : fs w' = fs w -> read_file w' p = read_file w p.
Proof. unfold read_file. now intros ->. Qed.

Lemma digest_of_fs w w' p : fs w' = fs w -> digest_of w' p = digest_of w p.
Proof. unfold digest_of. intros H. now rewrite (read_file_fs _ _ _ H). Qed.

Lemma get_file_hash_digest p w : snd (get_file_hash p w) = digest_of w p.
Proof. unfold get_file_hash, digest_of. now destruct (read_file w p). Qed.

Lemma digest_of_truthy w p h : digest_of w p = Some h -> truthy (Some h) = true.
Proof.
  unfold digest_of. destruct (read_file w p); cbn [option_map]; [|discriminate].
  intros E. injection E as <-. apply hexdigest_truthy.
Qed.

Lemma atomic_classes :
  atomic_class new_PackageFile /\ atomic_class new_ZipFileHandler /\
  atomic_class new_NonGISDatabase.
Proof. unfold atomic_class, atomic_obj. repeat split. Qed.

Lemma bucket_dict_append k h obj d :
  bucket k (dict_append h obj d) =
  if String.eqb h k then bucket k d ++ [obj] else bucket k d.
Proof.
  induction d as [|[h' v] d IH]; simpl.
  - now destruct (String.eqb h k).
  - destruct (String.eqb h' h) eqn:E; simpl.
    + apply String.eqb_eq in E. subst h'.
      now destruct (String.eqb h k).
    + rewrite IH. destruct (String.eqb h' k) eqn:E'; auto.
      apply String.eqb_eq in E'. subst h'.
      rewrite String.eqb_sym in E. now rewrite E.
Qed.

Lemma in_keys_dict_append h obj d k :
  In k (map fst (dict_append h obj d)) -> k = h \/ In k (map fst d).
Proof.
  induction d as [|[h' v] d IH]; simpl.
  - intuition auto.
  - destruct (String.eqb h' h); simpl; intuition auto.
Qed.

Lemma keys_dict_append h obj d :
  NoDup (map fst d) -> NoDup (map fst (dict_append h obj d)).
Proof.
  induction d as [|[h' v] d IH]; simpl; intros Hn.
  - repeat constructor. auto.
  - apply NoDup_cons_iff in Hn as [Hh Hn].
    destruct (String.eqb h' h) eqn:E; simpl.
    + now constructor.
    + constructor; auto.
      intros Hin. apply in_keys_dict_append in Hin as [->|Hin]; auto.
      now rewrite String.eqb_refl in E.
Qed.

Lemma bucket_of_value k g d :
  NoDup (map fst d) -> In (k, g) d -> bucket k d = g.
Proof.
  induction d as [|[h v] d IH]; simpl; [contradiction|].
  intros Hn [E|Hin].
  - inversion E; subst. now rewrite String.eqb_refl.
  - apply NoDup_cons_iff in Hn as [Hh Hn].
    destruct (String.eqb h k) eqn:E; auto.
    apply String.eqb_eq in E. subst h. exfalso. apply Hh.
    apply in_map_iff. now exists (k, g).
Qed.

Lemma value_is_bucket g d :
  NoDup (map fst d) -> In g (values d) -> exists k, bucket k d = g.
Proof.
  intros Hn Hg. apply in_map_iff in Hg as ([k g'] & E & Hin). simpl in E.
  subst g'. exists k. now apply bucket_of_value.
Qed.

Section AtomicScan.
Variable is_entry : string -> bool.
Variable hc : path -> world -> world * handler.
Hypothesis Hhc : atomic_class hc.

(** One turn of the first loop on an entry point. *)
Lemma scan_loop_entry p rest d w :
  is_entry (pname p) = true ->
  exists w2, fs w2 = fs w /\
    scan_loop is_entry hc (p :: rest) d w =
    scan_loop is_entry hc rest
      (match digest_of w p with
       | Some h => dict_append h (snd (hc p w)) d
       | None => d
       end) w2.
Proof using Hhc.
  intros He. cbn [scan_loop]. rewrite He.
  destruct (Hhc p w) as (Hid & [_ Hh] & Hfs).
  destruct (hc p w) as [w1 obj]. cbn [fst snd] in *.
  pose proof (fs_hash obj w1) as Hfs2.
  pose proof (get_file_hash_digest p w1) as Hd.
  rewrite Hh, Hid in *.
  destruct (get_file_hash p w1) as [w2 fh]. cbn [fst snd] in *.
  rewrite (digest_of_fs w w1 p Hfs) in Hd. subst fh.
  exists w2. split; [congruence|].
  destruct (digest_of w p) as [h|] eqn:E; auto.
  now rewrite (digest_of_truthy _ _ _ E).
Qed.

Lemma scan_loop_skip p rest d w :
  is_entry (pname p) = false ->
  scan_loop is_entry hc (p :: rest) d w = scan_loop is_entry hc rest d w.
Proof using. intros He. cbn [scan_loop]. now rewrite He. Qed.

Lemma scan_loop_bucket w0 k :
  forall paths d w, fs w = fs w0 ->
    map identity_path (bucket k (snd (scan_loop is_entry hc paths d w))) =
    map identity_path (bucket k d) ++
    filter (fun p => is_entry (pname p) && has_digest w0 k p) paths.
Proof using Hhc.
  induction paths as [|p rest IH]; intros d w Hw.
  - simpl. now rewrite app_nil_r.
  - cbn [filter]. destruct (is_entry (pname p)) eqn:He.
    + destruct (scan_loop_entry p rest d w He) as (w2 & Hw2 & ->).
      rewrite IH by congruence.
      unfold has_digest at 2. rewrite <- (digest_of_fs w0 w p Hw).
      destruct (Hhc p w) as (Hid & _ & _).
      destruct (digest_of w p) as [h|]; cbn [andb]; auto.
      rewrite bucket_dict_append.
      destruct (String.eqb h k); auto.
      rewrite map_app, <- app_assoc. simpl. now rewrite Hid.
    + rewrite scan_loop_skip by auto. now apply IH.
Qed.

Lemma scan_loop_keys :
  forall paths d w, NoDup (map fst d) ->
    NoDup (map fst (snd (scan_loop is_entry hc paths d w))).
Proof using Hhc.
  induction paths as [|p rest IH]; intros d w Hn; auto.
  destruct (is_entry (pname p)) eqn:He.
  - destruct (scan_loop_entry p rest d w He) as (w2 & _ & ->).
    apply IH. destruct (digest_of w p); auto using keys_dict_append.
  - rewrite scan_loop_skip by auto. now apply IH.
Qed.

Lemma scan_loop_atomic :
  forall paths d w, Forall atomic_obj (all_objs d) ->
    Forall atomic_obj (all_objs (snd (scan_loop is_entry hc paths d w))).
Proof using Hhc.
  induction paths as [|p rest IH]; intros d w Hd; auto.
  destruct (is_entry (pname p)) eqn:He.
  - destruct (scan_loop_entry p rest d w He) as (w2 & _ & ->).
    apply IH. destruct (digest_of w p); auto.
    eapply Permutation_Forall;
      [symmetry; apply all_objs_dict_append|].
    constructor; auto. apply Hhc.
  - rewrite scan_loop_skip by auto. now apply IH.
Qed.

Lemma scan_loop_identities :
  forall paths d w, NoDup paths ->
    (forall x, In x (all_objs d) -> ~ In (identity_path x) paths) ->
    NoDup (map identity_path (all_objs d)) ->
    NoDup (map identity_path (all_objs (snd (scan_loop is_entry hc paths d w)))).
Proof using Hhc.
  induction paths as [|p rest IH]; intros d w Hp Hout Hn; auto.
  apply NoDup_cons_iff in Hp as [Hp Hrest].
  assert (Hout' : forall x, In x (all_objs d) -> ~ In (identity_path x) rest).
  { intros x Hx Hin. apply (Hout x Hx). now right. }
  destruct (is_entry (pname p)) eqn:He.
  - destruct (scan_loop_entry p rest d w He) as (w2 & _ & ->).
    destruct (Hhc p w) as (Hid & _ & _).
    destruct (digest_of w p) as [h|]; [|now apply IH].
    apply IH; auto.
    + intros x Hx.
      apply (Permutation_in _ (all_objs_dict_append h _ d)) in Hx.
      destruct Hx as [<-|Hx]; auto. now rewrite Hid.
    + rewrite (Permutation_map identity_path (all_objs_dict_append h _ d)).
      simpl. constructor; auto. rewrite Hid.
      intros Hin. apply in_map_iff in Hin as (x & Ex & Hx).
      apply (Hout x Hx). left. now symmetry.
  - rewrite scan_loop_skip by auto. now apply IH.
Qed.

(** The dictionary of a scan of a single-file family: the keys are
    distinct, every object is its entry file, and the bucket of a fingerprint
    holds, in walk order, the entry files that can be read and have it. *)
Lemma scan_atomic w :
  NoDup (map fst (snd (scan is_entry hc w))) /\
  Forall atomic_obj (all_objs (snd (scan is_entry hc w))) /\
  (NoDup (walk w) ->
   NoDup (map identity_path (all_objs (snd (scan is_entry hc w))))) /\
  (forall k,
     map identity_path (bucket k (snd (scan is_entry hc w))) =
     filter (fun p => is_entry (pname p) && has_digest w k p) (walk w)).
Proof using Hhc.
  unfold scan. repeat split.
  - apply scan_loop_keys. constructor.
  - apply scan_loop_atomic. constructor.
  - intros Hn.
    apply scan_loop_identities; [exact Hn | intros x [] | constructor].
  - intros k. now rewrite (scan_loop_bucket w k).
Qed.
End AtomicScan.

(** ** Which files an object claims *)

Lemma NoDup_map_filter {A B} (f : A -> B) (g : A -> bool) l :
  NoDup (map f l) -> NoDup (map f (filter g l)).
Proof.
  induction l as [|a l IH]; simpl; auto.
  intros Hn. apply NoDup_cons_iff in Hn as [Ha Hn].
  destruct (g a); simpl; auto.
  constructor; auto.
  intros Hin. apply Ha. apply in_map_iff in Hin as (b & E & Hb).
  apply filter_In in Hb as [Hb _]. apply in_map_iff. eauto.
Qed.

Lemma NoDup_walk w : NoDup (map fst (fs w)) -> NoDup (walk w).
Proof. apply NoDup_map_filter. Qed.

Lemma NoDup_map_eq {A B} (f : A -> B) l x y :
  NoDup (map f l) -> In x l -> In y l -> f x = f y -> x = y.
Proof.
  induction l as [|a l IH]; simpl; [contradiction|].
  intros Hn Hx Hy E. apply NoDup_cons_iff in Hn as [Ha Hn].
  destruct Hx as [->|Hx], Hy as [->|Hy]; auto.
  - exfalso. apply Ha. rewrite E. now apply in_map.
  - exfalso. apply Ha. rewrite <- E. now apply in_map.
Qed.

Lemma family_class_atomic f : atomic_family f -> atomic_class (family_class f).
Proof.
  destruct atomic_classes as (H1 & H2 & H3).
  now intros [->|[->| ->]].
Qed.

Lemma family_scan_atomic f w :
  atomic_family f ->
  NoDup (map fst (snd (family_scan f w))) /\
  Forall atomic_obj (all_objs (snd (family_scan f w))) /\
  (NoDup (walk w) ->
   NoDup (map identity_path (all_objs (snd (family_scan f w))))) /\
  (forall k,
     map identity_path (bucket k (snd (family_scan f w))) =
     filter (fun p => family_entry f (pname p) && has_digest w k p) (walk w)).
Proof.
  intros Hf. apply scan_atomic. now apply family_class_atomic.
Qed.

(** The objects of a scan come from entry points of the walk. *)
Lemma scan_loop_origin is_entry hc :
  forall paths d w x,
    In x (all_objs (snd (scan_loop is_entry hc paths d w))) ->
    In x (all_objs d) \/
    exists p w', In p paths /\ is_entry (pname p) = true /\ x = snd (hc p w').
Proof.
  induction paths as [|p rest IH]; intros d w x Hx; simpl in *; auto.
  destruct (is_entry (pname p)) eqn:He.
  - destruct (hc p w) as [w1 obj] eqn:E1.
    destruct (hash obj w1) as [w2 fh].
    assert (Hrest : forall d' w',
              In x (all_objs (snd (scan_loop is_entry hc rest d' w'))) ->
              (In x (all_objs d') -> In x (all_objs d) \/ x = obj) ->
              In x (all_objs d) \/
              exists p0 w0, (p = p0 \/ In p0 rest) /\
                            is_entry (pname p0) = true /\ x = snd (hc p0 w0)).
    { intros d' w' Hin Hd'. apply IH in Hin as [Hin|(p0 & w0 & ? & ? & ?)].
      - destruct (Hd' Hin) as [?| ->]; auto.
        right. exists p, w. rewrite E1. auto.
      - right. exists p0, w0. auto. }
    destruct fh as [h|]; [destruct (truthy (Some h))|];
      apply (Hrest _ _ Hx); auto.
    intros Hin. apply (Permutation_in _ (all_objs_dict_append h obj d)) in Hin.
    destruct Hin as [<-|Hin]; auto.
  - apply IH in Hx as [Hx|(p0 & w0 & ? & ? & ?)]; auto.
    right. exists p0, w0. auto.
Qed.

(** C5, as the code has it.  On a tree in which every path names one file:
    in the pass of a single-file family (package, archive, non-GIS database)
    an object claims its entry file and nothing else, so no file is claimed
    by two objects of the pass and no identity path has two objects; and
    every object of the generic pass was built from a file of the walk whose
    last extension, in lower case, is in none of the extension lists. *)
Theorem single_file_passes_partition w :
  NoDup (map fst (fs w)) ->
  (forall f, atomic_family f ->
     claims_disjoint (all_objs (snd (family_scan f w))) /\
     one_per_identity (all_objs (snd (family_scan f w)))) /\
  (forall x, In x (all_objs (snd (family_scan Generic w))) ->
     exists p, file_path_attr x = Some p /\ In p (walk w) /\
               is_generic (pname p) = true).
Proof.
  intros Hn. split.
  - intros f Hf.
    destruct (family_scan_atomic f w Hf) as (_ & Ha & Hid & _).
    specialize (Hid (NoDup_walk w Hn)).
    rewrite Forall_forall in Ha.
    assert (G : one_per_identity (all_objs (snd (family_scan f w)))).
    { intros x y Hx Hy E.
      now rewrite (NoDup_map_eq identity_path _ x y Hid Hx Hy E). }
    split; auto.
    intros x y p Hx Hy Hpx Hpy. apply G; auto.
    destruct (Ha x Hx) as [Ex _], (Ha y Hy) as [Ey _].
    rewrite Ex in Hpx. rewrite Ey in Hpy.
    destruct Hpx as [<-|[]], Hpy as [<-|[]]. reflexivity.
  - intros x Hx. simpl in Hx. unfold scan in Hx.
    apply scan_loop_origin in Hx as [[]|(p & w' & Hp & He & ->)].
    exists p. auto.
Qed.

Lemma single_file_passes_partition_witness :
  (forall f, atomic_family f ->
     claims_disjoint (all_objs (snd (family_scan f tree_zip_denied))) /\
     one_per_identity (all_objs (snd (family_scan f tree_zip_denied)))) /\
  (forall x, In x (all_objs (snd (family_scan Generic tree_zip_denied))) ->
     exists p, file_path_attr x = Some p /\ In p (walk tree_zip_denied) /\
               is_generic (pname p) = true).
Proof.
  apply (single_file_passes_partition tree_zip_denied).
  vm_compute. repeat constructor; simpl; intuition discriminate.
Defined.

(** C5, refuted as stated.  In [tree_one_raster] the image pass takes both
    [x.tif] and [x.tfw] as entry points: it builds two objects with the base
    path [img/x] and the same two members, which hash alike, so the second
    is consolidated as a duplicate of the first and the only copy of the
    raster leaves the input folder.  In [tree_shared_members] the file
    [a/s.prj] is a member of a shapefile object and of an image object, and
    [b/n.tif] of an image object and of a generic object. *)
Lemma same_file_claimed_twice :
  ~ claims_disjoint (all_objs (snd (family_scan Image tree_one_raster))) /\
  ~ one_per_identity (all_objs (snd (family_scan Image tree_one_raster))) /\
  map fst (fs (fst (main tree_one_raster))) =
    [ out ["img"] "x.tif"; out ["img"] "x.tfw" ] /\
  all_objs (snd (family_scan Shapefile tree_shared_members)) =
    [ ShapefileGroup 0 (inp ["a"] "s") [inp ["a"] "s.shp"; inp ["a"] "s.prj"] ] /\
  all_objs (snd (family_scan Image
              (run_passes [Shapefile; MapInfo] tree_shared_members))) =
    [ ImageGroup 1 (inp ["a"] "s") [inp ["a"] "s.prj"];
      ImageGroup 2 (inp ["b"] "n") [inp ["b"] "n.tif"] ] /\
  all_objs (snd (family_scan Generic
              (run_passes [Shapefile; MapInfo; Image; Package; Zip; NonGISDb]
                          tree_shared_members))) =
    [ GenericFile 3 (inp ["b"] "n.txt") (inp ["b"] "n")
                  [inp ["b"] "n.txt"; inp ["b"] "n.tif"] ].
Proof.
  assert (E : all_objs (snd (family_scan Image tree_one_raster)) =
              [ ImageGroup 0 (inp ["img"] "x")
                           [inp ["img"] "x.tif"; inp ["img"] "x.tfw"];
                ImageGroup 1 (inp ["img"] "x")
                           [inp ["img"] "x.tif"; inp ["img"] "x.tfw"] ])
    by (vm_compute; reflexivity).
  rewrite E. split; [|split].
  - intros H.
    specialize (H _ _ (inp ["img"] "x.tif")
                  (or_introl eq_refl) (or_intror (or_introl eq_refl))
                  (or_introl eq_refl) (or_introl eq_refl)).
    discriminate H.
  - intros H.
    specialize (H _ _ (or_introl eq_refl) (or_intror (or_introl eq_refl))
                  eq_refl).
    discriminate H.
  - vm_compute. repeat split.
Qed.

(** ** The file table under copies and removals *)

Lemma lookup_write_other p q f l :
  p <> q -> lookup p (write q f l) = lookup p l.
Proof.
  intros Hpq. induction l as [|[r g] l IH]; simpl.
  - destruct (path_eqb q p) eqn:E; auto.
    apply path_eqb_eq in E. congruence.
  - destruct (path_eqb r q) eqn:E; simpl.
    + apply path_eqb_eq in E. subst r.
      destruct (path_eqb q p) eqn:E'; auto.
      apply path_eqb_eq in E'. congruence.
    + now rewrite IH.
Qed.

Lemma in_keys_write k q f l :
  In k (map fst (write q f l)) -> k = q \/ In k (map fst l).
Proof.
  induction l as [|[r g] l IH]; simpl.
  - intuition auto.
  - destruct (path_eqb r q); simpl; intuition auto.
Qed.

Lemma NoDup_write q f l : NoDup (map fst l) -> NoDup (map fst (write q f l)).
Proof.
  induction l as [|[r g] l IH]; simpl; intros Hn.
  - repeat constructor. auto.
  - apply NoDup_cons_iff in Hn as [Hr Hn].
    destruct (path_eqb r q) eqn:E; simpl.
    + now constructor.
    + constructor; auto. intros Hin.
      apply in_keys_write in Hin as [->|Hin]; auto.
      now rewrite path_eqb_refl in E.
Qed.

Lemma lookup_remove_same p l : lookup p (remove p l) = None.
Proof.
  unfold remove. induction l as [|[r g] l IH]; simpl; auto.
  destruct (path_eqb r p) eqn:E; simpl; auto. now rewrite E.
Qed.

Lemma lookup_remove_some p q f l :
  lookup p (remove q l) = Some f -> lookup p l = Some f.
Proof.
  unfold remove. induction l as [|[r g] l IH]; simpl; auto.
  destruct (path_eqb r q) eqn:E; simpl.
  - intros H. specialize (IH H).
    destruct (path_eqb r p) eqn:E'; auto.
    apply path_eqb_eq in E, E'. subst.
    fold (remove p l) in H. now rewrite lookup_remove_same in H.
  - destruct (path_eqb r p); auto.
Qed.

Lemma lookup_in p f l : lookup p l = Some f -> In (p, f) l.
Proof.
  induction l as [|[r g] l IH]; simpl; [discriminate|].
  destruct (path_eqb r p) eqn:E; auto.
  apply path_eqb_eq in E. subst r. intros H. inversion H. now left.
Qed.

Lemma in_lookup p f l : In (p, f) l -> exists g, lookup p l = Some g.
Proof.
  induction l as [|[r g] l IH]; simpl; [contradiction|].
  intros [E|Hin].
  - inversion E; subst. rewrite path_eqb_refl. eauto.
  - destruct (path_eqb r p); eauto.
Qed.

Lemma in_walk_iff w p :
  In p (walk w) <->
  ptree p = InputFolder /\ exists f, lookup p (fs w) = Some f.
Proof.
  unfold walk. rewrite in_map_iff. split.
  - intros ([q f] & E & Hin). simpl in E. subst q.
    apply filter_In in Hin as [Hin Ht]. simpl in Ht.
    apply tree_eqb_eq in Ht. split; auto. eapply in_lookup; eauto.
  - intros (Ht & f & Hl). exists (p, f). split; auto.
    apply filter_In. split; [now apply lookup_in|].
    simpl. now apply tree_eqb_eq.
Qed.

Lemma shrinks_refl w : shrinks w w.
Proof. unfold shrinks. auto. Qed.

Lemma shrinks_trans a b c : shrinks a b -> shrinks b c -> shrinks a c.
Proof.
  intros (S1 & N1 & L1) (S2 & N2 & L2). repeat split; auto.
  congruence.
Qed.

Lemma shrinks_copied src fs' w :
  copy2 src (mirror src) w = Some fs' ->
  shrinks w (actions_log_append
               [CStr "Copied"; CPath src; CPath (mirror src); CStr (path_ext src)]
               (log INFO (MsgCopied src (mirror src)) (set_fs fs' w))).
Proof.
  unfold copy2. destruct (read_file w src); [|discriminate].
  destruct (mem_path _ _); [discriminate|].
  intros E. injection E as <-.
  repeat split; simpl.
  - apply NoDup_write.
  - intros p f Hp. rewrite lookup_write_other; auto.
    intros ->. discriminate.
Qed.

Lemma shrinks_deleted p fs' w :
  os_remove p w = Some fs' ->
  shrinks w (actions_log_append
               [CStr "Deleted"; CPath p; CStr ""; CStr (path_ext p)]
               (log INFO (MsgDeleted p) (set_fs fs' w))).
Proof.
  unfold os_remove. destruct (lookup p (fs w)); [|discriminate].
  destruct (removable f); [|discriminate].
  intros E. injection E as <-.
  repeat split; simpl.
  - apply NoDup_map_filter.
  - intros q g _. apply lookup_remove_some.
Qed.

Lemma shrinks_log lv m w : shrinks w (log lv m w).
Proof. unfold shrinks. simpl. auto. Qed.

Lemma shrinks_call c w : shrinks w (record_call c w).
Proof. unfold shrinks. simpl. auto. Qed.

Lemma shrinks_copy_to x w : shrinks w (copy_to x w).
Proof.
  apply copy_to_keeps;
    auto using shrinks_refl, shrinks_copied, shrinks_log, shrinks_call.
  apply shrinks_trans.
Qed.

Lemma shrinks_delete x w : shrinks w (delete x w).
Proof.
  apply delete_keeps;
    auto using shrinks_refl, shrinks_deleted, shrinks_log, shrinks_call.
  apply shrinks_trans.
Qed.

Lemma gone_stays p w w' :
  ptree p = InputFolder -> shrinks w w' -> gone p w -> gone p w'.
Proof.
  unfold gone. intros Hp (_ & _ & L) Hg.
  destruct (lookup p (fs w')) as [f|] eqn:E; auto.
  apply L in E; auto. congruence.
Qed.

Lemma cooperative_stays w w' : shrinks w w' -> cooperative w -> cooperative w'.
Proof.
  intros (S & _ & L) (Hs & Hr). split; [congruence|].
  intros p f Hp Hl. eapply Hr; eauto.
Qed.

(** ** The second loop on single-file objects, when every removal works *)

Lemma delete_atomic_gone x w :
  atomic_obj x -> ptree (identity_path x) = InputFolder -> cooperative w ->
  gone (identity_path x) (delete x w).
Proof.
  intros [Hm _] Hp [_ Hr]. unfold delete. rewrite Hm. cbn [fold_left].
  unfold delete_file, os_remove, gone. cbn [fs record_call].
  destruct (lookup (identity_path x) (fs w)) as [f|] eqn:E.
  - rewrite (Hr _ _ Hp E). simpl. apply lookup_remove_same.
  - simpl. exact E.
Qed.

Lemma duplicates_loop_gone ds :
  forall w, cooperative w ->
    (forall x, In x ds ->
       atomic_obj x /\ ptree (identity_path x) = InputFolder) ->
    shrinks w (fst (for_each ds
      (fun dup => bind (step (copy_to dup)) (fun _ => step (delete dup))) w)) /\
    forall x, In x ds ->
      gone (identity_path x) (fst (for_each ds
        (fun dup => bind (step (copy_to dup)) (fun _ => step (delete dup))) w)).
Proof.
  induction ds as [|d ds IH]; intros w Hw Hds.
  - split; [apply shrinks_refl | contradiction].
  - rewrite duplicates_loop_cons.
    destruct (Hds d (or_introl eq_refl)) as [Ha Hp].
    pose proof (shrinks_copy_to d w) as S1.
    pose proof (shrinks_delete d (copy_to d w)) as S2.
    pose proof (cooperative_stays _ _ S1 Hw) as Hw1.
    pose proof (cooperative_stays _ _ S2 Hw1) as Hw2.
    pose proof (delete_atomic_gone d (copy_to d w) Ha Hp Hw1) as Hg.
    destruct (IH (delete d (copy_to d w)) Hw2) as [S3 G3].
    { intros x Hx. apply Hds. now right. }
    split.
    + eauto using shrinks_trans.
    + intros x [<-|Hx]; auto.
      eapply gone_stays; eauto.
Qed.

Lemma consolidate_group_gone label retained g w :
  cooperative w ->
  (forall x, In x g -> atomic_obj x /\ ptree (identity_path x) = InputFolder) ->
  snd (consolidate_group label retained g w) = Ok tt /\
  shrinks w (fst (consolidate_group label retained g w)) /\
  ((1 < List.length g)%nat ->
   exists original duplicates,
     Permutation g (original :: duplicates) /\
     forall x, In x duplicates ->
       gone (identity_path x) (fst (consolidate_group label retained g w))).
Proof.
  intros Hw Hg. rewrite consolidate_group_eq.
  destruct (1 <? List.length g)%nat eqn:El.
  2:{ apply Nat.ltb_ge in El.
      split; [reflexivity|]. split; [apply shrinks_refl | lia]. }
  rewrite sort_group_ok by apply Hw.
  pose proof (sort_decorated_perm
                (fun x => creation_time w (identity_path x)) g) as Hp.
  destruct (map snd _) as [|original duplicates].
  { apply Permutation_sym, Permutation_nil in Hp. subst g. discriminate. }
  set (w0 := log INFO (MsgRetaining label (retained original))
               (record_call (Original (oid_of original)) w)).
  assert (S0 : shrinks w w0).
  { eapply shrinks_trans; [apply shrinks_call | apply shrinks_log]. }
  destruct (duplicates_loop_gone duplicates w0) as [S1 G1].
  { eapply cooperative_stays; eauto. }
  { intros x Hx. apply Hg. apply (Permutation_in _ (Permutation_sym Hp)).
    now right. }
  destruct (duplicates_loop duplicates w0) as [E1 _].
  split; [exact E1|]. split; [eauto using shrinks_trans|].
  intros _. exists original, duplicates. auto.
Qed.

Lemma consolidate_gone label retained gs :
  forall w, cooperative w ->
    (forall g x, In g gs -> In x g ->
       atomic_obj x /\ ptree (identity_path x) = InputFolder) ->
    snd (for_each gs (consolidate_group label retained) w) = Ok tt /\
    shrinks w (fst (for_each gs (consolidate_group label retained) w)) /\
    forall g, In g gs -> (1 < List.length g)%nat ->
      exists original duplicates,
        Permutation g (original :: duplicates) /\
        forall x, In x duplicates ->
          gone (identity_path x)
               (fst (for_each gs (consolidate_group label retained) w)).
Proof.
  induction gs as [|g gs IH]; intros w Hw Hgs.
  - split; [reflexivity|]. split; [apply shrinks_refl | contradiction].
  - cbn [for_each]. unfold bind.
    destruct (consolidate_group_gone label retained g w Hw) as (E & S1 & G1).
    { intros x Hx. apply (Hgs g x); auto. now left. }
    destruct (consolidate_group label retained g w) as [w1 r].
    cbn [fst snd] in *. subst r.
    destruct (IH w1) as (E2 & S2 & G2).
    { eapply cooperative_stays; eauto. }
    { intros g' x Hg' Hx. apply (Hgs g' x); auto. now right. }
    split; [exact E2|]. split; [eauto using shrinks_trans|].
    intros g' [<-|Hg'] Hlen; auto.
    destruct (G1 Hlen) as (o & ds & Hp & Hgone).
    exists o, ds. split; auto.
    intros x Hx. eapply gone_stays; eauto.
    apply (Hgs g x); [now left|].
    apply (Permutation_in _ (Permutation_sym Hp)). now right.
Qed.

Lemma small_groups_untouched label retained gs :
  forall w, (forall g, In g gs -> (List.length g <= 1)%nat) ->
            for_each gs (consolidate_group label retained) w = (w, Ok tt).
Proof.
  induction gs as [|g gs IH]; intros w Hgs; auto.
  cbn [for_each]. unfold bind. rewrite consolidate_group_eq.
  assert (El : (1 <? List.length g)%nat = false).
  { apply Nat.ltb_ge. apply Hgs. now left. }
  rewrite El. apply IH. intros g' Hg'. apply Hgs. now right.
Qed.

(** ** A pass of a single-file family, and the pass after it *)

Ltac by_class :=
  intros;
  first [ now apply new_ShapefileGroup_keeps
        | now apply new_MapInfoGroup_keeps
        | now apply new_ImageGroup_keeps
        | now apply new_PackageFile_keeps
        | now apply new_ZipFileHandler_keeps
        | now apply new_NonGISDatabase_keeps
        | now apply new_GenericFile_keeps ].

Lemma quiet_family_scan f w : quiet w (fst (family_scan f w)).
Proof.
  assert (Hr : forall w, quiet w w) by (unfold quiet; auto).
  assert (Ht : forall a b c, quiet a b -> quiet b c -> quiet a c)
    by (unfold quiet; intuition congruence).
  assert (Hl : forall lv m w, success_message lv m = false ->
                              quiet w (log lv m w))
    by (unfold quiet; simpl; auto).
  assert (Ho : forall w, quiet w (fst (fresh_oid w)))
    by (unfold quiet; simpl; auto).
  unfold family_scan. apply (scan_keeps quiet); auto.
  destruct f; cbn [family_class]; by_class.
Qed.

Lemma family_consolidate_eq f :
  exists label retained, family_consolidate f = consolidate label retained.
Proof. destruct f; simpl; eauto. Qed.

Lemma in_bucket_value x k d : In x (bucket k d) -> In (bucket k d) (values d).
Proof.
  induction d as [|[h v] d IH]; simpl; [contradiction|].
  destruct (String.eqb h k); auto.
Qed.

Lemma two_elements {A} (l : list A) x y :
  In x l -> In y l -> x <> y -> (1 < List.length l)%nat.
Proof.
  destruct l as [|a [|b l]]; simpl; intros Hx Hy Hne; try lia; try tauto.
  destruct Hx as [<-|[]], Hy as [<-|[]]. congruence.
Qed.

Lemma two_of_NoDup {A} (l : list A) :
  NoDup l -> (1 < List.length l)%nat ->
  exists x y, In x l /\ In y l /\ x <> y.
Proof.
  destruct l as [|a [|b l]]; simpl; intros Hn Hl; try lia.
  exists a, b. repeat split; auto.
  intros ->. apply NoDup_cons_iff in Hn as [Ha _]. apply Ha. now left.
Qed.

Lemma has_digest_lookup w w' k p :
  lookup p (fs w') = lookup p (fs w) -> has_digest w' k p = has_digest w k p.
Proof.
  unfold has_digest, digest_of, read_file. now intros ->.
Qed.

Lemma atomic_buckets f w g x :
  atomic_family f -> In g (values (snd (family_scan f w))) -> In x g ->
  atomic_obj x /\ ptree (identity_path x) = InputFolder.
Proof.
  intros Hf Hg Hx.
  destruct (family_scan_atomic f w Hf) as (Hk & Ha & _ & Hb).
  split.
  - rewrite Forall_forall in Ha. apply Ha. unfold all_objs.
    apply in_concat. eauto.
  - destruct (value_is_bucket g _ Hk Hg) as [k <-].
    assert (Hin : In (identity_path x)
                     (map identity_path (bucket k (snd (family_scan f w)))))
      by now apply in_map.
    rewrite Hb in Hin. apply filter_In in Hin as [Hin _].
    now apply in_walk_iff in Hin.
Qed.

(** After the pass of a single-file family in which every removal worked,
    no two entry files of the family have the same fingerprint. *)
Lemma pass_leaves_no_twins f w :
  atomic_family f -> cooperative w ->
  snd (family_pass f w) = Ok tt /\
  shrinks w (fst (family_pass f w)) /\
  no_twins f (fst (family_pass f w)).
Proof.
  intros Hf Hw. rewrite family_pass_eq.
  destruct (quiet_family_scan f w) as (Qfs & _ & _ & Qsd).
  destruct (family_scan_atomic f w Hf) as (Hk & Ha & _ & Hb).
  pose proof (atomic_buckets f w) as Hbk.
  destruct (family_scan f w) as [w0 d]. cbn [fst snd] in *.
  assert (S0 : shrinks w w0).
  { unfold shrinks. rewrite Qfs, Qsd. auto. }
  destruct (family_consolidate_eq f) as (label & retained & ->).
  destruct (consolidate_gone label retained (values d) w0) as (E & S1 & G).
  { eapply cooperative_stays; eauto. }
  { intros g x Hg Hx. now apply (Hbk g x). }
  unfold consolidate.
  split; [exact E|]. split; [eauto using shrinks_trans|].
  intros p q k Hp Hq Hne Hep Heq Hdp Hdq.
  set (w1 := fst (for_each (values d) (consolidate_group label retained) w0)) in *.
  assert (Hold : forall r, In r (walk w1) -> family_entry f (pname r) = true ->
            has_digest w1 k r = true ->
            lookup r (fs w1) <> None /\
            exists x, In x (bucket k d) /\ identity_path x = r).
  { intros r Hr Her Hdr.
    apply in_walk_iff in Hr as (Ht & fr & Hl).
    split; [congruence|].
    assert (Hl0 : lookup r (fs w) = Some fr).
    { destruct (shrinks_trans _ _ _ S0 S1) as (_ & _ & L). now apply L. }
    assert (Hin : In r (map identity_path (bucket k d))).
    { rewrite Hb. apply filter_In. split.
      - apply in_walk_iff. eauto.
      - rewrite Her. simpl. rewrite <- Hdr. symmetry.
        apply has_digest_lookup. congruence. }
    apply in_map_iff in Hin as (x & Ex & Hx). eauto. }
  destruct (Hold p Hp Hep Hdp) as (Np & x & Hx & Ex).
  destruct (Hold q Hq Heq Hdq) as (Nq & y & Hy & Ey).
  assert (Hxy : x <> y) by congruence.
  destruct (G (bucket k d)) as (o & ds & Hperm & Hgone).
  { eapply in_bucket_value; eauto. }
  { now apply (two_elements _ x y). }
  apply (Permutation_in _ Hperm) in Hx, Hy.
  destruct Hx as [<-|Hx].
  - destruct Hy as [Hy|Hy]; [congruence|].
    apply Nq. rewrite <- Ey. now apply Hgone.
  - apply Np. rewrite <- Ex. now apply Hgone.
Qed.

(** Where no two entry files have the same fingerprint, the pass of a
    single-file family only scans. *)
Lemma pass_without_twins f w :
  atomic_family f -> NoDup (map fst (fs w)) -> no_twins f w ->
  family_pass f w = (fst (family_scan f w), Ok tt).
Proof.
  intros Hf Hn Hno. rewrite family_pass_eq.
  destruct (family_scan_atomic f w Hf) as (Hk & _ & _ & Hb).
  destruct (family_consolidate_eq f) as (label & retained & ->).
  unfold consolidate. apply small_groups_untouched.
  intros g Hg. destruct (value_is_bucket g _ Hk Hg) as [k <-].
  destruct (le_lt_dec (List.length (bucket k (snd (family_scan f w)))) 1)
    as [|Hlen]; auto.
  exfalso.
  rewrite <- (length_map identity_path), Hb in Hlen.
  destruct (two_of_NoDup _ (NoDup_filter _ (NoDup_walk w Hn)) Hlen)
    as (p & q & Hp & Hq & Hne).
  apply filter_In in Hp as [Hp Hsp], Hq as [Hq Hsq].
  apply andb_true_iff in Hsp as [Hep Hdp], Hsq as [Heq Hdq].
  exact (Hno p q k Hp Hq Hne Hep Heq Hdp Hdq).
Qed.

(** One pass, twice.  For the pass of a single-file family (package,
    archive, non-GIS database) on a tree in which every path names one file,
    no creation-time lookup is refused and every file of the input folder
    can be removed: the pass ends normally, and the same pass run again by a
    new process on the files it left ends normally, changes no file, writes
    no audit record and calls no [copy_to] or [delete]. *)
Lemma single_file_pass_idempotent f w :
  atomic_family f ->
  NoDup (map fst (fs w)) ->
  cooperative w ->
  snd (family_pass f w) = Ok tt /\
  snd (family_pass f (restart (fst (family_pass f w)))) = Ok tt /\
  fs (fst (family_pass f (restart (fst (family_pass f w))))) =
    fs (fst (family_pass f w)) /\
  actions_log (fst (family_pass f (restart (fst (family_pass f w))))) = [] /\
  calls (fst (family_pass f (restart (fst (family_pass f w))))) = [].
Proof.
  intros Hf Hn Hw.
  destruct (pass_leaves_no_twins f w Hf Hw) as (E1 & (_ & N1 & _) & Hno).
  split; [exact E1|].
  set (w1 := fst (family_pass f w)) in *.
  assert (E2 : family_pass f (restart w1) =
               (fst (family_scan f (restart w1)), Ok tt)).
  { apply pass_without_twins; [exact Hf | exact (N1 Hn) | exact Hno]. }
  rewrite E2. cbn [fst snd].
  destruct (quiet_family_scan f (restart w1)) as (Q1 & Q2 & Q3 & _).
  rewrite Q1, Q2, Q3. repeat split.
Qed.


(** ** The defects behind the failing inputs, in general *)

(** X16.  [copy_to] followed by [delete], as the second loop of a pass
    calls them: a single-file object whose copy fails is removed all the
    same.  Its file is gone from the input folder, the audit trail gets the
    Deleted row and no Copied row. *)
Lemma delete_follows_failed_copy x w f :
  atomic_obj x ->
  copy2 (identity_path x) (mirror (identity_path x)) w = None ->
  lookup (identity_path x) (fs w) = Some f -> removable f = true ->
  lookup (identity_path x) (fs (delete x (copy_to x w))) = None /\
  actions_log (delete x (copy_to x w)) =
    actions_log w ++
    [[CStr "Deleted"; CPath (identity_path x); CStr "";
      CStr (path_ext (identity_path x))]].
Proof.
  intros [Hm _] Hc Hl Hr. unfold delete, copy_to. rewrite Hm.
  cbn [fold_left]. unfold copy_file.
  replace (copy2 (identity_path x) (mirror (identity_path x))
                 (record_call (CallCopyTo (oid_of x)) w))
    with (copy2 (identity_path x) (mirror (identity_path x)) w) by reflexivity.
  rewrite Hc. unfold delete_file, os_remove. cbn [fs record_call log].
  rewrite Hl, Hr. cbn [fs set_fs log actions_log actions_log_append].
  split; [apply lookup_remove_same | reflexivity].
Qed.



(** [run_all] is the seven family passes, in this order. *)
Lemma run_all_family_passes :
  run_all =
  bind (family_pass Shapefile) (fun _ =>
  bind (family_pass MapInfo) (fun _ =>
  bind (family_pass Image) (fun _ =>
  bind (family_pass Package) (fun _ =>
  bind (family_pass Zip) (fun _ =>
  bind (family_pass NonGISDb) (fun _ =>
  family_pass Generic)))))).
Proof. reflexivity. Qed.

(** ** A whole run, and the run after it *)





Lemma scan_loop_no_entries is_entry hc :
  forall paths d w,
    (forall p, In p paths -> is_entry (pname p) = false) ->
    scan_loop is_entry hc paths d w = (w, d).
Proof.
  induction paths as [|p paths IH]; intros d w H; auto.
  cbn [scan_loop]. rewrite (H p) by now left.
  apply IH. intros q Hq. apply H. now right.
Qed.

(** A pass whose family has no entry point does nothing at all. *)
Lemma pass_no_entries f w : no_entries f w -> family_pass f w = (w, Ok tt).
Proof.
  intros H. rewrite family_pass_eq. unfold family_scan, scan.
  rewrite scan_loop_no_entries by exact H.
  destruct (family_consolidate_eq f) as (label & retained & ->).
  reflexivity.
Qed.






Lemma run_all_for_each w : run_all w = for_each all_families family_pass w.
Proof.
  rewrite run_all_family_passes. cbn [all_families for_each]. unfold bind.
  repeat (match goal with
          | |- context [family_pass ?f ?w0] =>
              destruct (family_pass f w0) as [? [[]|?]]
          end; try reflexivity).
Qed.

Lemma main_eq w :
  main w =
  match run_all (log INFO MsgStarting w) with
  | (w1, Ok _) => (log INFO MsgComplete (write_csv_report w1), Ok tt)
  | (w1, Raise e) => (w1, Raise e)
  end.
Proof.
  unfold main, bind, step.
  now destruct (run_all (log INFO MsgStarting w)) as [w1 [[]|e]].
Qed.







(* ===================================================================== *)
(** * The classes, the file operations and a whole run *)
(* ===================================================================== *)

(** What the constructors collect, what a fingerprint is made of, what
    [copy_to] and [delete] do to the files, and what a run keeps.  File
    names are compared as [glob] and [str] compare them on a file system
    that tells upper case from lower case; only the tests of an extension
    go through [lower]. *)

(** ** Names, extensions and base paths *)

Lemma substring_whole s : substring 0 (String.length s) s = s.
Proof. induction s as [|c s IH]; simpl; congruence. Qed.

Lemma substring_split s :
  forall d, (d <= String.length s)%nat ->
    (substring 0 d s ++ substring d (String.length s - d) s)%string = s.
Proof.
  induction s as [|c s IH]; intros [|d] Hd; simpl in *; try lia; auto.
  - now rewrite substring_whole.
  - rewrite IH by lia. reflexivity.
Qed.

Lemma length_substring_prefix s :
  forall d, (d <= String.length s)%nat -> String.length (substring 0 d s) = d.
Proof.
  induction s as [|c s IH]; intros [|d] Hd; simpl in *; try lia; auto.
  rewrite IH; lia.
Qed.

Lemma prefix_substring s : forall d, String.prefix (substring 0 d s) s = true.
Proof.
  induction s as [|c s IH]; intros [|d]; simpl; auto.
  destruct (ascii_dec c c); [apply IH | congruence].
Qed.

Lemma prefix_refl s : String.prefix s s = true.
Proof.
  induction s as [|c s IH]; simpl; auto.
  destruct (ascii_dec c c); [exact IH | congruence].
Qed.

Lemma prefix_trans a : forall b c,
  String.prefix a b = true -> String.prefix b c = true -> String.prefix a c = true.
Proof.
  induction a as [|x a IH]; intros [|y b] [|z c]; simpl; auto; try discriminate.
  destruct (ascii_dec x y), (ascii_dec y z); try discriminate.
  subst. destruct (ascii_dec z z); [apply IH | congruence].
Qed.

Lemma append_empty_r s : (s ++ "")%string = s.
Proof. induction s as [|c s IH]; simpl; congruence. Qed.

(** Where [rfind] finds the last occurrence of a character: the string
    splits there, and the character does not occur after it. *)
Lemma rfind_split c s :
  forall d, rfind c s = Some d ->
    (d < String.length s)%nat /\
    exists rest, substring d (String.length s - d) s = String c rest /\
                 rfind c rest = None.
Proof.
  induction s as [|a s IH]; intros d; simpl; [discriminate|].
  destruct (rfind c s) as [i|] eqn:E.
  - intros H. injection H as <-. destruct (IH i eq_refl) as (Hi & rest & Hs & Hr).
    split; [lia|]. exists rest. simpl. auto.
  - destruct (Ascii.eqb_spec a c); [|discriminate].
    intros H. injection H as <-. subst a. split; [lia|].
    exists s. simpl. now rewrite substring_whole.
Qed.

(** [os.path.splitext]: root and extension make up the name; the root is a
    prefix of the name; the extension is empty, or a dot followed by
    characters none of which is a dot. *)
Lemma splitext_parts name :
  (fst (splitext name) ++ snd (splitext name))%string = name /\
  String.prefix (fst (splitext name)) name = true /\
  (snd (splitext name) = "" \/
   exists rest, snd (splitext name) = String "." rest /\ rfind "." rest = None).
Proof.
  unfold splitext. destruct (rfind "." name) as [d|] eqn:E.
  - destruct (rfind_split _ _ _ E) as (Hd & rest & Hs & Hr).
    destruct (all_dots d name); simpl.
    + split; [apply append_empty_r|]. split; [apply prefix_refl | now left].
    + split; [apply substring_split; lia|].
      split; [apply prefix_substring|]. right. eauto.
  - simpl. split; [apply append_empty_r|]. split; [apply prefix_refl | now left].
Qed.




Lemma glob_names_In base ok w f :
  In f (glob_names base ok w) <->
  (exists file, In (f, file) (fs w)) /\
  ptree f = ptree base /\ pdir f = pdir base /\ ok (pname f) = true.
Proof.
  unfold glob_names. rewrite in_map_iff. split.
  - intros ([q file] & E & Hin). simpl in E. subst q.
    apply filter_In in Hin as [Hin Hc]. simpl in Hc.
    apply andb_true_iff in Hc as [Hc Hok].
    apply andb_true_iff in Hc as [Ht Hd].
    apply tree_eqb_eq in Ht. apply dir_eqb_eq in Hd. eauto.
  - intros ((file & Hin) & Ht & Hd & Hok). exists (f, file). split; auto.
    apply filter_In. split; auto. simpl.
    rewrite Hok, Ht, Hd.
    replace (tree_eqb (ptree base) (ptree base)) with true
      by (symmetry; now apply tree_eqb_eq).
    replace (dir_eqb (pdir base) (pdir base)) with true
      by (symmetry; now apply dir_eqb_eq).
    reflexivity.
Qed.


Lemma length_substring s : forall n m, (n + m <= String.length s)%nat ->
  String.length (substring n m s) = m.
Proof.
  induction s as [|c s IH]; intros [|n] [|m] H; simpl in *; auto; try lia.
  - rewrite (IH 0%nat m); auto. lia.
  - apply IH. lia.
  - apply IH. lia.
Qed.

Lemma strip_suffixes_fixed fuel name :
  suffix name = "" -> strip_suffixes fuel name = name.
Proof. intros H. destruct fuel; cbn [strip_suffixes]; auto. now rewrite H. Qed.

Lemma strip_suffixes_ends fuel : forall name,
  (String.length name <= fuel)%nat -> suffix (strip_suffixes fuel name) = "".
Proof.
  induction fuel as [|fuel IH]; intros name Hl.
  - destruct name; [reflexivity | simpl in Hl; lia].
  - cbn [strip_suffixes]. destruct (suffix name) as [|c suf] eqn:E; auto.
    apply IH. rewrite length_substring_prefix by lia.
    cbn [String.length]. lia.
Qed.

Lemma strip_suffixes_prefix fuel : forall name,
  String.prefix (strip_suffixes fuel name) name = true.
Proof.
  induction fuel as [|fuel IH]; intros name; cbn [strip_suffixes].
  - apply prefix_refl.
  - destruct (suffix name) as [|c suf]; [apply prefix_refl|].
    eapply prefix_trans; [apply IH | apply prefix_substring].
Qed.

(** X2.  [MapInfoGroup._get_base_path]: the loop that strips suffixes ends,
    and the name it returns has no suffix left; that name is a prefix of the
    name of the table, in the same directory; stripping again changes
    nothing. *)
Theorem get_base_path_strips_every_suffix tab_path :
  suffix (pname (_get_base_path tab_path)) = "" /\
  String.prefix (pname (_get_base_path tab_path)) (pname tab_path) = true /\
  pdir (_get_base_path tab_path) = pdir tab_path /\
  _get_base_path (_get_base_path tab_path) = _get_base_path tab_path.
Proof.
  unfold _get_base_path. cbn [pname pdir ptree].
  assert (H : suffix (strip_suffixes (String.length (pname tab_path))
                                     (pname tab_path)) = "")
    by (apply strip_suffixes_ends; lia).
  repeat split; auto.
  - apply strip_suffixes_prefix.
  - f_equal. now apply strip_suffixes_fixed.
Qed.






(** ** Which files start a pass *)

Lemma length_append a b :
  String.length (a ++ b)%string = (String.length a + String.length b)%nat.
Proof. induction a as [|c a IH]; simpl; auto. Qed.

Lemma append_assoc a b c : ((a ++ b) ++ c)%string = (a ++ (b ++ c))%string.
Proof. induction a as [|x a IH]; simpl; auto. now rewrite IH. Qed.

Lemma lower_append a b : lower (a ++ b) = (lower a ++ lower b)%string.
Proof. induction a as [|c a IH]; simpl; auto. now rewrite IH. Qed.

Lemma substring_append_r a b :
  substring (String.length a) (String.length b) (a ++ b) = b.
Proof.
  induction a as [|c a IH]; simpl; auto. apply substring_whole.
Qed.

(** [s.endswith(suf)] holds when [s] is something followed by [suf]. *)
Lemma endswith_iff s suf :
  endswith s suf = true <-> exists pre, s = (pre ++ suf)%string.
Proof.
  unfold endswith. rewrite andb_true_iff, Nat.leb_le, String.eqb_eq. split.
  - intros [Hl E].
    exists (substring 0 (String.length s - String.length suf) s).
    pose proof (substring_split s (String.length s - String.length suf)) as H.
    replace (String.length s - (String.length s - String.length suf))%nat
      with (String.length suf) in H by lia.
    rewrite E in H. symmetry. apply H. lia.
  - intros [pre ->]. rewrite length_append. split; [lia|].
    replace (String.length pre + String.length suf - String.length suf)%nat
      with (String.length pre) by lia.
    apply substring_append_r.
Qed.

Lemma append_eq_append a : forall x b y,
  (a ++ x)%string = (b ++ y)%string ->
  exists t, x = (t ++ y)%string \/ y = (t ++ x)%string.
Proof.
  induction a as [|c a IH]; intros x [|d b] y E; simpl in E.
  - exists "". now left.
  - exists (String d b). now left.
  - exists (String c a). now right.
  - injection E as _ E. eauto.
Qed.

Lemma endswith_comparable a x e :
  endswith (a ++ x) e = true -> comparable x e = true.
Proof.
  intros H. apply endswith_iff in H as [pre E].
  apply append_eq_append in E as [t [->| ->]]; unfold comparable;
    apply orb_true_iff; [left | right]; apply endswith_iff; eauto.
Qed.

Lemma matches_any_comparable stem x exts :
  matches_any (stem ++ x) exts = true ->
  existsb (comparable (lower x)) exts = true.
Proof.
  unfold matches_any. rewrite !existsb_exists, lower_append.
  intros (e & He & H). exists e. split; auto.
  now apply endswith_comparable in H.
Qed.

Lemma family_entry_exts f name :
  f <> Generic ->
  family_entry f name = matches_any name (entry_exts f).
Proof.
  destruct f; intros Hf; try congruence; cbn [family_entry entry_exts];
    auto; unfold matches_any; cbn [existsb]; now rewrite orb_false_r.
Qed.

(** X5.  The first loops of [_process_shapefiles], [_process_mapinfo],
    [_process_files] and [_process_generic_files]: a file whose last
    extension, in lower case, is one of [.shx .dbf .cpg .sbn .sbx .map .id
    .ind .mif .mid .wor .gml .gdb .geodatabase .mdb .accdb .sde] is an entry
    point of no pass.  Such a file is never hashed for itself: it is
    consolidated only as a member of the group of another file, and two
    identical ones on their own are never found. *)
Theorem no_pass_starts_from_a_component name f :
  In (lower (snd (splitext name))) never_entry_exts ->
  family_entry f name = false.
Proof.
  intros Hin.
  destruct (splitext_parts name) as (Hname & _ & _).
  set (x := lower (snd (splitext name))) in *.
  destruct f.
  7:{ cbn [family_entry]. unfold is_generic. fold x.
      assert (G : forallb (fun x => existsb (String.eqb x) known_exts)
                          never_entry_exts = true) by (vm_compute; reflexivity).
      rewrite forallb_forall in G. now rewrite (G x Hin). }
  all: rewrite family_entry_exts by discriminate;
    destruct (matches_any name _) eqn:E; auto;
    rewrite <- Hname in E; apply matches_any_comparable in E; fold x in E.
  all: match type of E with
       | existsb _ ?L = true =>
           assert (G : forallb (fun x => negb (existsb (comparable x) L))
                               never_entry_exts = true)
             by (vm_compute; reflexivity)
       end;
    rewrite forallb_forall in G; specialize (G x Hin);
    rewrite E in G; discriminate G.
Qed.

Lemma no_pass_starts_from_a_component_witness :
  family_entry Generic "parcels.DBF" = false /\
  family_entry Image "parcels.DBF" = false /\
  family_entry NonGISDb "survey.mdb" = false.
Proof.
  split; [|split].
  - apply (no_pass_starts_from_a_component "parcels.DBF" Generic).
    vm_compute. tauto.
  - apply (no_pass_starts_from_a_component "parcels.DBF" Image).
    vm_compute. tauto.
  - apply (no_pass_starts_from_a_component "survey.mdb" NonGISDb).
    vm_compute. tauto.
Defined.

(** ** What a fingerprint is made of *)

Lemma hash_members_spec w files : forall sha w', fs w' = fs w ->
  hash_members files sha w' =
  (log_hash_errors (unreadable_in w files) w',
   sha ++ List.concat (map (readable_bytes w) files)).
Proof.
  induction files as [|f files IH]; intros sha w' Hw; cbn [hash_members].
  - simpl. now rewrite app_nil_r.
  - cbn [unreadable_in filter map List.concat]. unfold readable_bytes at 1.
    rewrite (read_file_fs w w' f Hw).
    destruct (read_file w f) as [bs|].
    + rewrite IH by exact Hw. now rewrite feed_app, app_assoc.
    + rewrite IH by exact Hw. reflexivity.
Qed.

(** X6.  [get_file_hash] and the [hash] methods: the fingerprint is the
    SHA-256 digest of the bytes read, whatever the size of the blocks they
    are read in.  For a group these are the bytes of the members that can be
    opened, one file after the other in the order of [self.files] (sorted
    for a MapInfo group), with nothing between two files; a member that
    cannot be opened adds nothing and is logged as an error, and the
    fingerprint is a digest all the same.  For a single file that cannot be
    opened the error is logged and there is no fingerprint.  Nothing but the
    log changes. *)
Theorem hash_is_digest_of_bytes_read x w :
  hash x w =
  (log_hash_errors (unreadable_in w (hashed_files x)) w,
   if grouped x
   then Some (hexdigest (List.concat (map (readable_bytes w) (hashed_files x))))
   else match file_path_attr x with
        | Some p => option_map hexdigest (read_file w p)
        | None => None
        end).
Proof.
  assert (G : forall files,
            hash_group files w =
            (log_hash_errors (unreadable_in w files) w,
             Some (hexdigest (List.concat (map (readable_bytes w) files))))).
  { intros files. unfold hash_group.
    now rewrite (hash_members_spec w files sha256_new w eq_refl). }
  assert (A : forall p,
            get_file_hash p w =
            (log_hash_errors (unreadable_in w [p]) w,
             option_map hexdigest (read_file w p))).
  { intros p. unfold get_file_hash, unreadable_in. cbn [filter].
    destruct (read_file w p) as [bs|]; [|reflexivity].
    now rewrite feed_app. }
  destruct x; cbn [hash hashed_files members grouped file_path_attr];
    first [apply G | apply A].
Qed.

(** ** What the methods of an object do to the files *)

Lemma lookup_remove_other p q l :
  p <> q -> lookup p (remove q l) = lookup p l.
Proof.
  intros Hpq. unfold remove. induction l as [|[r g] l IH]; simpl; auto.
  destruct (path_eqb r q) eqn:E; simpl.
  - apply path_eqb_eq in E. subst r.
    destruct (path_eqb q p) eqn:E'; auto.
    apply path_eqb_eq in E'. congruence.
  - now rewrite IH.
Qed.

Lemma lookup_write_same q f l : lookup q (write q f l) = Some f.
Proof.
  induction l as [|[r g] l IH]; simpl.
  - now rewrite path_eqb_refl.
  - destruct (path_eqb r q) eqn:E; simpl; now rewrite E.
Qed.

Lemma path_eqb_neq p q : path_eqb p q = false <-> p <> q.
Proof.
  split.
  - intros E H. apply path_eqb_eq in H. congruence.
  - intros H. destruct (path_eqb p q) eqn:E; auto.
    apply path_eqb_eq in E. contradiction.
Qed.

Lemma lookup_delete_file p w q :
  lookup q (fs (delete_file p w)) =
  match lookup q (fs w) with
  | Some f => if path_eqb q p && removable f then None else Some f
  | None => None
  end.
Proof.
  unfold delete_file, os_remove.
  destruct (path_eqb q p) eqn:E.
  - apply path_eqb_eq in E. subst q.
    destruct (lookup p (fs w)) as [f|] eqn:El; simpl; [|now rewrite El].
    destruct (removable f); simpl; [apply lookup_remove_same | exact El].
  - apply path_eqb_neq in E.
    destruct (lookup p (fs w)) as [f|]; simpl; [|now destruct lookup].
    destruct (removable f); simpl; [|now destruct lookup].
    rewrite lookup_remove_other by exact E. now destruct lookup.
Qed.

Lemma lookup_delete_files l q : forall w,
  lookup q (fs (fold_left (fun w f => delete_file f w) l w)) =
  match lookup q (fs w) with
  | Some f => if mem_path q l && removable f then None else Some f
  | None => None
  end.
Proof.
  induction l as [|p l IH]; intros w; cbn [fold_left mem_path existsb].
  - now destruct lookup.
  - rewrite IH, lookup_delete_file.
    destruct (lookup q (fs w)) as [f|]; auto.
    unfold mem_path.
    destruct (path_eqb q p), (removable f) eqn:Er,
             (existsb (path_eqb q) l);
      cbn [andb orb]; rewrite ?Er; reflexivity.
Qed.

Lemma lookup_delete x w q :
  lookup q (fs (delete x w)) =
  match lookup q (fs w) with
  | Some f => if mem_path q (members x) && removable f then None else Some f
  | None => None
  end.
Proof. unfold delete. now rewrite lookup_delete_files. Qed.

(** X7.  The [delete] methods and [delete_file]: after [delete] a path names
    no file when it named none before, or when it is a member of the object
    and its file could be removed; every other path names the file it named
    before.  A member that cannot be removed stays, and so does every file
    that is no member. *)
Theorem delete_removes_the_removable_members x w :
  (forall q,
     lookup q (fs (delete x w)) =
     match lookup q (fs w) with
     | Some f => if mem_path q (members x) && removable f then None else Some f
     | None => None
     end) /\
  write_denied (delete x w) = write_denied w /\
  stat_denied (delete x w) = stat_denied w /\
  clock (delete x w) = clock w.
Proof.
  split; [intros q; apply lookup_delete|].
  repeat split.
  - apply (delete_keeps (fun a b => write_denied b = write_denied a));
      intros; simpl; congruence.
  - apply (delete_keeps (fun a b => stat_denied b = stat_denied a));
      intros; simpl; congruence.
  - apply (delete_keeps (fun a b => clock b = clock a));
      intros; simpl; congruence.
Qed.

Lemma lookup_copy_file p w q :
  lookup q (fs (copy_file p (mirror p) w)) =
  match copied_bytes w p with
  | Some bs => if path_eqb q (mirror p) then Some (File bs (clock w) true true)
               else lookup q (fs w)
  | None => lookup q (fs w)
  end.
Proof.
  unfold copy_file, copy2, copied_bytes.
  destruct (mem_path (mirror p) (write_denied w));
    destruct (read_file w p) as [bs|]; simpl; auto.
  destruct (path_eqb q (mirror p)) eqn:E.
  - apply path_eqb_eq in E. subst q. apply lookup_write_same.
  - apply path_eqb_neq in E. now apply lookup_write_other.
Qed.

Lemma copy_file_oracles p dst w :
  write_denied (copy_file p dst w) = write_denied w /\
  stat_denied (copy_file p dst w) = stat_denied w /\
  clock (copy_file p dst w) = clock w.
Proof. unfold copy_file. now destruct copy2. Qed.

Lemma mirror_source_of p q :
  ptree p = InputFolder -> (mirror p = q <-> ptree q = OutputFolder /\ p = source_of q).
Proof.
  destruct p as [t d n], q as [t' d' n']. unfold mirror, source_of. simpl.
  intros ->. split.
  - intros E. inversion E. auto.
  - intros [-> E]. inversion E. reflexivity.
Qed.

Lemma copied_bytes_copy_file p w r :
  ptree r = InputFolder ->
  copied_bytes (copy_file p (mirror p) w) r = copied_bytes w r.
Proof.
  intros Hr. unfold copied_bytes, read_file.
  destruct (copy_file_oracles p (mirror p) w) as (-> & _ & _).
  rewrite lookup_copy_file.
  destruct (copied_bytes w p); auto.
  destruct (path_eqb r (mirror p)) eqn:E; auto.
  apply path_eqb_eq in E. subst r. discriminate.
Qed.

Lemma lookup_copy_files l q : forall w,
  Forall (fun p => ptree p = InputFolder) l ->
  lookup q (fs (fold_left (fun w f => copy_file f (mirror f) w) l w)) =
  match ptree q,
        (if mem_path (source_of q) l then copied_bytes w (source_of q)
         else None) with
  | OutputFolder, Some bs => Some (File bs (clock w) true true)
  | _, _ => lookup q (fs w)
  end.
Proof.
  induction l as [|p l IH]; intros w Hl; cbn [fold_left mem_path existsb].
  - now destruct (ptree q).
  - apply Forall_cons_iff in Hl as [Hp Hl].
    rewrite IH by exact Hl.
    destruct (copy_file_oracles p (mirror p) w) as (_ & _ & ->).
    rewrite copied_bytes_copy_file by reflexivity.
    rewrite lookup_copy_file.
    fold (mem_path (source_of q) l).
    destruct (path_eqb q (mirror p)) eqn:E.
    + apply path_eqb_eq in E. symmetry in E.
      apply (mirror_source_of p q Hp) in E as [Ht <-].
      rewrite Ht, path_eqb_refl. cbn [orb].
      destruct (copied_bytes w p) as [bs|]; [|now destruct (mem_path p l)].
      now destruct (mem_path p l).
    + assert (E' : path_eqb (source_of q) p = false \/ ptree q = InputFolder).
      { destruct (ptree q) eqn:Ht; auto. left.
        apply path_eqb_neq. intros <-. apply path_eqb_neq in E. apply E.
        symmetry. apply mirror_source_of; auto. }
      destruct E' as [E'|Ht].
      * rewrite E'. cbn [orb]. now destruct (copied_bytes w p).
      * rewrite Ht. now destruct (copied_bytes w p).
Qed.

Lemma lookup_copy_to x w q :
  input_obj x ->
  lookup q (fs (copy_to x w)) =
  match ptree q,
        (if mem_path (source_of q) (members x) then copied_bytes w (source_of q)
         else None) with
  | OutputFolder, Some bs => Some (File bs (clock w) true true)
  | _, _ => lookup q (fs w)
  end.
Proof. intros Hx. unfold copy_to. now rewrite lookup_copy_files. Qed.


(** ** What a run keeps, when the objects are made of files of the input
       folder *)

Lemma glob_names_tree base ok w q :
  In q (glob_names base ok w) -> ptree q = ptree base.
Proof. intros H. now apply glob_names_In in H. Qed.

Lemma members_new_ShapefileGroup p w :
  members (snd (new_ShapefileGroup p w)) =
  filter (fun f => existsb (String.eqb (lower (path_ext f))) SHAPEFILE_EXTENSIONS)
         (glob_dot_star (path_stem p) (fst (fresh_oid w))).
Proof.
  unfold new_ShapefileGroup. cbn [fresh_oid fst]. now destruct (filter _ _).
Qed.

Lemma members_new_MapInfoGroup p w :
  members (snd (new_MapInfoGroup p w)) =
  flat_map (fun ext =>
              glob_exact (_get_base_path p) ext (fst (fresh_oid w)) ++
              glob_exact (_get_base_path p) (ext ++ ".xml")%string
                         (fst (fresh_oid w)))
           MAPINFO_EXTENSIONS.
Proof.
  unfold new_MapInfoGroup, _gather_components. cbn [fresh_oid fst].
  now destruct (flat_map _ _).
Qed.

(** An object built from a file of the input folder is made of files of the
    input folder. *)
Lemma family_class_input f p w :
  ptree p = InputFolder -> input_obj (snd (family_class f p w)).
Proof.
  intros Hp. unfold input_obj. destruct f; cbn [family_class].
  - rewrite members_new_ShapefileGroup. apply Forall_forall. intros q Hq.
    apply filter_In in Hq as [Hq _]. apply glob_names_tree in Hq.
    now rewrite Hq.
  - rewrite members_new_MapInfoGroup. apply Forall_forall. intros q Hq.
    apply in_flat_map in Hq as (ext & _ & Hq).
    apply in_app_or in Hq as [Hq|Hq]; apply glob_names_tree in Hq;
      now rewrite Hq.
  - unfold new_ImageGroup. cbn [fresh_oid snd members].
    apply Forall_forall. intros q Hq.
    apply filter_In in Hq as [Hq _]. apply glob_names_tree in Hq.
    now rewrite Hq.
  - repeat constructor. exact Hp.
  - repeat constructor. exact Hp.
  - repeat constructor. exact Hp.
  - unfold new_GenericFile. cbn [fresh_oid snd members].
    apply Forall_forall. intros q Hq. apply glob_names_tree in Hq.
    now rewrite Hq.
Qed.

Lemma same_files_family_scan f w : same_files w (fst (family_scan f w)).
Proof.
  unfold family_scan. apply (scan_keeps same_files).
  - unfold same_files. auto.
  - unfold same_files. intuition congruence.
  - unfold same_files. simpl. auto.
  - destruct f; cbn [family_class]; intros p w0;
      first [ apply new_ShapefileGroup_keeps
            | apply new_MapInfoGroup_keeps
            | apply new_ImageGroup_keeps
            | apply new_PackageFile_keeps
            | apply new_ZipFileHandler_keeps
            | apply new_NonGISDatabase_keeps
            | apply new_GenericFile_keeps ];
      unfold same_files; simpl; intuition congruence.
Qed.

(** The objects of a scan are made of files of the input folder. *)
Lemma family_scan_input f w g x :
  In g (values (snd (family_scan f w))) -> In x g -> input_obj x.
Proof.
  intros Hg Hx.
  assert (Hin : In x (all_objs (snd (family_scan f w)))).
  { unfold all_objs. apply in_concat. eauto. }
  unfold family_scan, scan in Hin.
  apply scan_loop_origin in Hin as [[]|(p & w' & Hp & _ & ->)].
  apply family_class_input. now apply in_walk_iff in Hp.
Qed.

Section Guarded.
Variable R : world -> world -> Prop.
Hypothesis R_refl : forall w, R w w.
Hypothesis R_trans : forall a b c, R a b -> R b c -> R a c.
Hypothesis R_same : forall w w', same_files w w' -> R w w'.
Hypothesis R_body : forall x w, input_obj x -> R w (delete x (copy_to x w)).

Lemma guarded_duplicates ds :
  Forall input_obj ds ->
  forall w, R w (fst (for_each ds
    (fun dup => bind (step (copy_to dup)) (fun _ => step (delete dup))) w)).
Proof using R_refl R_trans R_body.
  induction 1 as [|d ds Hd Hds IH]; intros w.
  - apply R_refl.
  - rewrite duplicates_loop_cons.
    eapply R_trans; [apply R_body; exact Hd | apply IH].
Qed.

Lemma guarded_group label retained g w :
  Forall input_obj g -> R w (fst (consolidate_group label retained g w)).
Proof using R_refl R_trans R_same R_body.
  intros Hg. rewrite consolidate_group_eq.
  destruct (1 <? List.length g)%nat; [|apply R_refl].
  rewrite sort_group_spec.
  destruct (first_denied w (map identity_path g)); [apply R_refl|].
  pose proof (sort_decorated_perm (key_in w identity_path) g) as Hp.
  destruct (map snd _) as [|original duplicates]; [apply R_refl|].
  eapply R_trans.
  - apply R_same with
      (w' := log INFO (MsgRetaining label (retained original))
               (record_call (Original (oid_of original)) w)).
    unfold same_files. auto.
  - apply guarded_duplicates.
    apply (Permutation_Forall Hp) in Hg. now inversion Hg.
Qed.

Lemma guarded_consolidate label retained gs :
  (forall g, In g gs -> Forall input_obj g) ->
  forall w, R w (fst (for_each gs (consolidate_group label retained) w)).
Proof using R_refl R_trans R_same R_body.
  induction gs as [|g gs IH]; intros Hgs w.
  - apply R_refl.
  - cbn [for_each]. unfold bind.
    pose proof (guarded_group label retained g w (Hgs g (or_introl eq_refl)))
      as H1.
    destruct (consolidate_group label retained g w) as [w1 [[]|e]];
      cbn [fst] in *; auto.
    eapply R_trans; [exact H1|]. apply IH.
    intros g' Hg'. apply Hgs. now right.
Qed.

Lemma guarded_pass f w : R w (fst (family_pass f w)).
Proof using R_refl R_trans R_same R_body.
  rewrite family_pass_eq.
  pose proof (same_files_family_scan f w) as Hs.
  pose proof (family_scan_input f w) as Hin.
  destruct (family_scan f w) as [w0 d]. cbn [fst snd] in *.
  destruct (family_consolidate_eq f) as (label & retained & ->).
  eapply R_trans; [apply R_same; exact Hs|].
  apply guarded_consolidate.
  intros g Hg. apply Forall_forall. intros x Hx. now apply (Hin g x).
Qed.

Lemma guarded_passes fams : forall w, R w (fst (for_each fams family_pass w)).
Proof using R_refl R_trans R_same R_body.
  induction fams as [|f fams IH]; intros w.
  - apply R_refl.
  - cbn [for_each]. unfold bind.
    pose proof (guarded_pass f w) as H1.
    destruct (family_pass f w) as [w1 [[]|e]]; cbn [fst] in *; auto.
    eapply R_trans; [exact H1 | apply IH].
Qed.

Lemma guarded_main w : R w (fst (main w)).
Proof using R_refl R_trans R_same R_body.
  rewrite main_eq, run_all_for_each.
  pose proof (guarded_passes all_families (log INFO MsgStarting w)) as H.
  assert (H0 : R w (log INFO MsgStarting w))
    by (apply R_same; unfold same_files; auto).
  destruct (for_each all_families family_pass (log INFO MsgStarting w))
    as [w1 [[]|e]]; cbn [fst] in *.
  - eapply R_trans; [exact H0|]. eapply R_trans; [exact H|].
    apply R_same. unfold same_files. auto.
  - eapply R_trans; eauto.
Qed.
End Guarded.

Lemma input_obj_not_output x q :
  input_obj x -> ptree q = OutputFolder -> mem_path q (members x) = false.
Proof.
  intros Hx Hq. unfold mem_path.
  destruct (existsb (path_eqb q) (members x)) eqn:E; auto.
  apply existsb_exists in E as (p & Hp & E). apply path_eqb_eq in E. subst p.
  unfold input_obj in Hx. rewrite Forall_forall in Hx.
  specialize (Hx q Hp). congruence.
Qed.

Lemma lookup_copy_to_input x w p :
  input_obj x -> ptree p = InputFolder ->
  lookup p (fs (copy_to x w)) = lookup p (fs w).
Proof. intros Hx Hp. rewrite lookup_copy_to by exact Hx. now rewrite Hp. Qed.

Lemma lookup_delete_output x w q :
  input_obj x -> ptree q = OutputFolder ->
  lookup q (fs (delete x w)) = lookup q (fs w).
Proof.
  intros Hx Hq. rewrite lookup_delete, (input_obj_not_output x q Hx Hq).
  now destruct lookup.
Qed.

Lemma oracles_body x w :
  write_denied (delete x (copy_to x w)) = write_denied w /\
  stat_denied (delete x (copy_to x w)) = stat_denied w /\
  clock (delete x (copy_to x w)) = clock w.
Proof.
  pose (Q := fun a b : world => write_denied b = write_denied a /\
                                stat_denied b = stat_denied a /\
                                clock b = clock a).
  assert (Ht : forall a b c, Q a b -> Q b c -> Q a c)
    by (unfold Q; intuition congruence).
  apply (Ht w (copy_to x w)).
  - apply (copy_to_keeps Q); unfold Q; intros; simpl; intuition congruence.
  - apply (delete_keeps Q); unfold Q; intros; simpl; intuition congruence.
Qed.

(** X9.  [main], [run_all] and the passes, on any tree and however the run
    ends: a file that is in the input folder afterwards was there before,
    with the same content and times (a run creates and changes nothing
    there); a path of the output folder that named a file before names one
    afterwards (a run removes nothing there, it can only write over it);
    and the run changes nothing of what decides whether a copy, a removal or
    a lookup works. *)
Theorem run_only_moves_files w :
  (forall p f, ptree p = InputFolder ->
     lookup p (fs (fst (main w))) = Some f -> lookup p (fs w) = Some f) /\
  (forall q, ptree q = OutputFolder ->
     lookup q (fs w) <> None -> lookup q (fs (fst (main w))) <> None) /\
  write_denied (fst (main w)) = write_denied w /\
  stat_denied (fst (main w)) = stat_denied w.
Proof.
  pose (R := fun a b : world =>
    (forall p f, ptree p = InputFolder ->
       lookup p (fs b) = Some f -> lookup p (fs a) = Some f) /\
    output_grows a b /\
    write_denied b = write_denied a /\ stat_denied b = stat_denied a).
  assert (H : R w (fst (main w))).
  { apply (guarded_main R).
    - intros a. unfold R, output_grows. auto.
    - intros a b c (I1 & O1 & W1 & S1) (I2 & O2 & W2 & S2).
      unfold R, output_grows in *. repeat split; auto; congruence.
    - intros a b (E1 & E2 & E3 & _). unfold R, output_grows.
      rewrite E1. repeat split; auto.
    - intros x a Hx. unfold R, output_grows.
      destruct (oracles_body x a) as (E1 & E2 & _).
      repeat split; auto.
      + intros p f Hp. rewrite lookup_delete.
        rewrite (lookup_copy_to_input x a p Hx Hp).
        destruct (lookup p (fs a)) as [g|]; [|discriminate].
        now destruct (_ && _).
      + intros q Hq Hl. rewrite (lookup_delete_output x _ q Hx Hq).
        rewrite lookup_copy_to by exact Hx. rewrite Hq.
        now destruct (if mem_path _ _ then _ else _). }
  exact H.
Qed.

Lemma safely_refl w : safely w w.
Proof.
  intros H. repeat split; try apply H; auto.
  intros p f Hp Hl. now left.
Qed.

Lemma safely_trans a b c : safely a b -> safely b c -> safely a c.
Proof.
  intros Hab Hbc Ha.
  destruct (Hab Ha) as (Hb & I1 & K1 & M1).
  destruct (Hbc Hb) as (Hc & I2 & K2 & M2).
  assert (G : forall p, ptree p = InputFolder ->
                        lookup p (fs b) = None -> lookup p (fs c) = None).
  { intros p Hp Hn. destruct (lookup p (fs c)) as [f|] eqn:E; auto.
    apply I2 in E; auto. congruence. }
  split; [exact Hc|]. split; [auto|]. split.
  - intros p f Hp Hl.
    destruct (K1 p f Hp Hl) as [Hl1|(Hn1 & g & Hg & Eg)].
    + now apply K2.
    + right. split; [now apply G|].
      exists g. rewrite M2; auto.
  - intros p Hp Hn. rewrite M2, M1; auto.
    destruct (lookup p (fs b)) as [f|] eqn:E; auto.
    apply I1 in E; auto. congruence.
Qed.

Lemma safely_same w w' : same_files w w' -> safely w w'.
Proof.
  intros (E1 & E2 & _ & _) (Hwd & Hrd). unfold copies_succeed, kept_or_mirrored.
  rewrite E1, E2. repeat split; auto.
Qed.

Lemma safely_body x w : input_obj x -> safely w (delete x (copy_to x w)).
Proof.
  intros Hx (Hwd & Hrd).
  destruct (oracles_body x w) as (Ewd & _ & _).
  assert (F2 : forall p f, ptree p = InputFolder ->
            lookup p (fs (delete x (copy_to x w))) = Some f ->
            lookup p (fs w) = Some f).
  { intros p f Hp. rewrite lookup_delete.
    rewrite (lookup_copy_to_input x w p Hx Hp).
    destruct (lookup p (fs w)) as [g|]; [|discriminate].
    now destruct (_ && _). }
  assert (F4 : forall p, ptree p = InputFolder ->
            lookup (mirror p) (fs (delete x (copy_to x w))) =
            match (if mem_path p (members x) then read_file w p else None) with
            | Some bs => Some (File bs (clock w) true true)
            | None => lookup (mirror p) (fs w)
            end).
  { intros p Hp.
    rewrite (lookup_delete_output x _ (mirror p) Hx eq_refl).
    rewrite lookup_copy_to by exact Hx.
    replace (source_of (mirror p)) with p
      by (destruct p; simpl in *; now subst).
    unfold copied_bytes. rewrite Hwd. reflexivity. }
  split; [|split; [exact F2|split]].
  - split; [congruence|]. intros p f Hp Hl. eapply Hrd; eauto.
  - intros p f Hp Hl. rewrite (F4 p Hp).
    rewrite lookup_delete, (lookup_copy_to_input x w p Hx Hp), Hl.
    destruct (mem_path p (members x)); cbn [andb]; auto.
    destruct (removable f); auto.
    right. split; auto.
    unfold read_file. rewrite Hl, (Hrd p f Hp Hl). eauto.
  - intros p Hp Hn. rewrite (F4 p Hp). unfold read_file. rewrite Hn.
    now destruct (mem_path p (members x)).
Qed.

(** X10.  [main], [run_all] and the passes, when every file of the input
    folder can be read and every place of the output folder can be written:
    however the run ends, and whichever files it took for duplicates, every
    file of the input folder is afterwards either where it was, as it was,
    or gone from there with its bytes in the file at the mirrored place of
    the output folder.  No content is lost. *)
Theorem run_loses_no_content w :
  copies_succeed w -> kept_or_mirrored w (fst (main w)).
Proof.
  intros Hw.
  apply (guarded_main safely safely_refl safely_trans safely_same safely_body w).
  exact Hw.
Qed.

Lemma run_loses_no_content_witness :
  kept_or_mirrored tree_prefix (fst (main tree_prefix)).
Proof.
  apply (run_loses_no_content tree_prefix).
  split; [reflexivity|].
  intros p f _ Hl. apply lookup_in in Hl. simpl in Hl.
  repeat (destruct Hl as [Hl|Hl]; [now inversion Hl|]).
  contradiction.
Defined.


(** ** What a pass of a single-file family leaves in the input folder *)

Lemma atomic_input_obj x :
  atomic_obj x -> ptree (identity_path x) = InputFolder -> input_obj x.
Proof. intros [Hm _] Hp. unfold input_obj. rewrite Hm. now repeat constructor. Qed.

Lemma frame_body x w q :
  atomic_obj x -> ptree (identity_path x) = InputFolder ->
  ptree q = InputFolder -> q <> identity_path x ->
  lookup q (fs (delete x (copy_to x w))) = lookup q (fs w).
Proof.
  intros Ha Hp Hq Hne.
  rewrite lookup_delete.
  rewrite (lookup_copy_to_input x w q (atomic_input_obj x Ha Hp) Hq).
  destruct Ha as [Hm _]. rewrite Hm. unfold mem_path. cbn [existsb].
  apply path_eqb_neq in Hne. rewrite Hne. now destruct lookup.
Qed.

Lemma frame_duplicates ds :
  (forall x, In x ds -> atomic_obj x /\ ptree (identity_path x) = InputFolder) ->
  forall w q, ptree q = InputFolder -> ~ In q (map identity_path ds) ->
    lookup q (fs (fst (for_each ds
      (fun dup => bind (step (copy_to dup)) (fun _ => step (delete dup))) w))) =
    lookup q (fs w).
Proof.
  induction ds as [|d ds IH]; intros Hds w q Hq Hn; auto.
  rewrite duplicates_loop_cons.
  destruct (Hds d (or_introl eq_refl)) as [Ha Hp].
  rewrite IH; auto.
  - apply frame_body; auto. intros ->. apply Hn. now left.
  - intros x Hx. apply Hds. now right.
  - intros Hin. apply Hn. now right.
Qed.

(** The second loop on one bucket of single-file objects: one object of the
    bucket keeps its file, and no file outside the bucket is touched. *)
Lemma survivor_group label retained g w :
  (forall x, In x g -> atomic_obj x /\ ptree (identity_path x) = InputFolder) ->
  NoDup (map identity_path g) ->
  (g <> [] ->
   exists o, In o g /\
     lookup (identity_path o) (fs (fst (consolidate_group label retained g w))) =
     lookup (identity_path o) (fs w)) /\
  (forall q, ptree q = InputFolder -> ~ In q (map identity_path g) ->
     lookup q (fs (fst (consolidate_group label retained g w))) =
     lookup q (fs w)).
Proof.
  intros Hg Hn. rewrite consolidate_group_eq.
  assert (Same : forall w', fs w' = fs w ->
    (g <> [] -> exists o, In o g /\
       lookup (identity_path o) (fs w') = lookup (identity_path o) (fs w)) /\
    (forall q, ptree q = InputFolder -> ~ In q (map identity_path g) ->
       lookup q (fs w') = lookup q (fs w))).
  { intros w' E. rewrite E. split; auto.
    destruct g as [|o g]; [congruence|]. intros _. exists o. split; auto.
    now left. }
  destruct (1 <? List.length g)%nat; [|now apply Same].
  rewrite sort_group_spec.
  destruct (first_denied w (map identity_path g)); [now apply Same|].
  pose proof (sort_decorated_perm (key_in w identity_path) g) as Hp.
  destruct (map snd _) as [|original duplicates]; [now apply Same|].
  set (w0 := log INFO (MsgRetaining label (retained original))
               (record_call (Original (oid_of original)) w)).
  assert (Hds : forall x, In x duplicates ->
            atomic_obj x /\ ptree (identity_path x) = InputFolder).
  { intros x Hx. apply Hg. apply (Permutation_in _ (Permutation_sym Hp)).
    now right. }
  assert (Hn' : NoDup (map identity_path (original :: duplicates))).
  { eapply Permutation_NoDup; [apply Permutation_map; exact Hp | exact Hn]. }
  cbn [map] in Hn'. apply NoDup_cons_iff in Hn' as [Ho _].
  split.
  - intros _. exists original. split.
    + apply (Permutation_in _ (Permutation_sym Hp)). now left.
    + rewrite frame_duplicates; auto.
      apply Hg. apply (Permutation_in _ (Permutation_sym Hp)). now left.
  - intros q Hq Hnq. rewrite frame_duplicates; auto.
    intros Hin. apply Hnq.
    apply (Permutation_in _ (Permutation_map identity_path (Permutation_sym Hp))).
    now right.
Qed.

Lemma NoDup_map_app {A B} (f : A -> B) l1 l2 :
  NoDup (map f (l1 ++ l2)) ->
  NoDup (map f l1) /\ NoDup (map f l2) /\
  forall a b, In a l1 -> In b l2 -> f a <> f b.
Proof.
  rewrite map_app. induction l1 as [|a l1 IH]; simpl; intros Hn.
  - repeat split; auto. constructor.
  - apply NoDup_cons_iff in Hn as [Ha Hn].
    destruct (IH Hn) as (H1 & H2 & H3).
    repeat split; auto.
    + constructor; auto. intros Hin. apply Ha. apply in_or_app. now left.
    + intros x b [<-|Hx] Hb; auto.
      intros E. apply Ha. apply in_or_app. right. rewrite E. now apply in_map.
Qed.

Lemma survivor_consolidate label retained gs :
  forall w,
    (forall g x, In g gs -> In x g ->
       atomic_obj x /\ ptree (identity_path x) = InputFolder) ->
    NoDup (map identity_path (List.concat gs)) ->
    (forall g, In g gs -> g <> [] ->
       exists o, In o g /\
         lookup (identity_path o)
                (fs (fst (for_each gs (consolidate_group label retained) w))) =
         lookup (identity_path o) (fs w)) /\
    (forall q, ptree q = InputFolder ->
       ~ In q (map identity_path (List.concat gs)) ->
       lookup q (fs (fst (for_each gs (consolidate_group label retained) w))) =
       lookup q (fs w)).
Proof.
  induction gs as [|g gs IH]; intros w Hgs Hn.
  - split; [contradiction | reflexivity].
  - cbn [List.concat] in Hn.
    destruct (NoDup_map_app identity_path _ _ Hn) as (Hn1 & Hn2 & Hx).
    destruct (survivor_group label retained g w) as [S1 F1]; auto.
    { intros x Hin. apply (Hgs g x); auto. now left. }
    assert (Hgs' : forall g' x, In g' gs -> In x g' ->
              atomic_obj x /\ ptree (identity_path x) = InputFolder).
    { intros g' x Hg' Hin. apply (Hgs g' x); auto. now right. }
    cbn [for_each]. unfold bind.
    destruct (consolidate_group label retained g w) as [w1 r].
    cbn [fst] in S1, F1.
    destruct (IH w1 Hgs' Hn2) as [S2 F2].
    assert (Out : forall g' o, In g' gs -> In o g' ->
              ptree (identity_path o) = InputFolder /\
              ~ In (identity_path o) (map identity_path g)).
    { intros g' o Hg' Ho. split; [now apply (Hgs' g' o)|].
      intros Hin. apply in_map_iff in Hin as (a & Ea & Hina).
      apply (Hx a o); auto. apply in_concat. eauto. }
    assert (In1 : forall o, In o g ->
              ptree (identity_path o) = InputFolder /\
              ~ In (identity_path o) (map identity_path (List.concat gs))).
    { intros o Ho. split; [apply (Hgs g o); auto; now left|].
      intros Hin. apply in_map_iff in Hin as (b & Eb & Hinb).
      apply (Hx o b); auto. }
    destruct r as [[]|e]; cbn [fst].
    + split.
      * intros g' [<-|Hg'] Hne.
        -- destruct (S1 Hne) as (o & Ho & El). exists o. split; auto.
           destruct (In1 o Ho) as [Hp Hnot]. now rewrite F2.
        -- destruct (S2 g' Hg' Hne) as (o & Ho & El). exists o. split; auto.
           destruct (Out g' o Hg' Ho) as [Hp Hnot]. now rewrite El, F1.
      * intros q Hq Hnq. cbn [List.concat] in Hnq. rewrite map_app in Hnq.
        rewrite F2, F1; auto; intros Hin; apply Hnq, in_or_app; auto.
    + split.
      * intros g' [<-|Hg'] Hne; auto.
        destruct g' as [|o g']; [congruence|]. exists o.
        split; [now left|].
        destruct (Out (o :: g') o Hg' (or_introl eq_refl)) as [Hp Hnot].
        now apply F1.
      * intros q Hq Hnq. cbn [List.concat] in Hnq. rewrite map_app in Hnq.
        apply F1; auto. intros Hin. apply Hnq, in_or_app. auto.
Qed.

(** A pass of a single-file family leaves, for every fingerprint an entry
    file had, an entry file with that fingerprint where it was. *)
Lemma survivor_pass f w p k :
  atomic_family f -> NoDup (map fst (fs w)) ->
  In p (walk w) -> family_entry f (pname p) = true ->
  has_digest w k p = true ->
  exists q, In q (walk w) /\ family_entry f (pname q) = true /\
            has_digest w k q = true /\
            lookup q (fs (fst (family_pass f w))) = lookup q (fs w).
Proof.
  intros Hf Hn Hp He Hd. rewrite family_pass_eq.
  destruct (same_files_family_scan f w) as (Efs & _).
  destruct (family_scan_atomic f w Hf) as (Hk & Ha & Hid & Hb).
  specialize (Hid (NoDup_walk w Hn)).
  pose proof (fun g x => atomic_buckets f w g x Hf) as Hbk.
  destruct (family_scan f w) as [w0 d]. cbn [fst snd] in *.
  destruct (family_consolidate_eq f) as (label & retained & ->).
  assert (Hin : In p (map identity_path (bucket k d))).
  { rewrite Hb. apply filter_In. now rewrite He, Hd. }
  apply in_map_iff in Hin as (x & Ex & Hx).
  destruct (survivor_consolidate label retained (values d) w0) as [S _]; auto.
  destruct (S (bucket k d)) as (o & Ho & El).
  { eapply in_bucket_value; eauto. }
  { intros E. rewrite E in Hx. contradiction. }
  assert (Hq : In (identity_path o)
                  (filter (fun p => family_entry f (pname p) && has_digest w k p)
                          (walk w))).
  { rewrite <- Hb. now apply in_map. }
  apply filter_In in Hq as [Hq Hc]. apply andb_true_iff in Hc as [Hc1 Hc2].
  exists (identity_path o). repeat split; auto.
  unfold consolidate. now rewrite El, Efs.
Qed.

(** X11.  The pass of a single-file family (package, archive, non-GIS
    database) on a tree in which every path names one file, whether or not
    removals work and however the pass ends: for every entry file that could
    be read there is afterwards an entry file with the same fingerprint in
    the input folder, untouched.  The pass never consolidates the last file
    of a content. *)
Theorem single_file_pass_keeps_every_content f w p k :
  atomic_family f -> NoDup (map fst (fs w)) ->
  In p (walk w) -> family_entry f (pname p) = true ->
  has_digest w k p = true ->
  exists q, In q (walk (fst (family_pass f w))) /\
            family_entry f (pname q) = true /\
            has_digest (fst (family_pass f w)) k q = true /\
            lookup q (fs (fst (family_pass f w))) = lookup q (fs w).
Proof.
  intros Hf Hn Hp He Hd.
  destruct (survivor_pass f w p k Hf Hn Hp He Hd) as (q & Hq & Hc & Hdq & El).
  exists q. repeat split; auto.
  - apply in_walk_iff. apply in_walk_iff in Hq as (Ht & g & Hl).
    split; auto. exists g. congruence.
  - rewrite <- Hdq. now apply has_digest_lookup.
Qed.

Lemma single_file_pass_keeps_every_content_witness :
  exists q, In q (walk (fst (family_pass Zip tree_zip_denied))) /\
            family_entry Zip (pname q) = true /\
            has_digest (fst (family_pass Zip tree_zip_denied))
                       (hexdigest (bytes_of_string "PK-archive")) q = true /\
            lookup q (fs (fst (family_pass Zip tree_zip_denied))) =
            lookup q (fs tree_zip_denied).
Proof.
  apply (single_file_pass_keeps_every_content
           Zip tree_zip_denied (inp ["b"] "d.zip")
           (hexdigest (bytes_of_string "PK-archive"))).
  - right. now left.
  - vm_compute. repeat constructor; simpl; intuition discriminate.
  - vm_compute. auto.
  - vm_compute. reflexivity.
  - vm_compute. reflexivity.
Defined.

(** X12.  The pass of a single-file family on a tree in which every path
    names one file, no lookup of a creation time is refused and every file
    of the input folder can be removed: afterwards the input folder holds,
    for every fingerprint, exactly one entry file of the family with it if
    it held one or more before, and none if it held none. *)
Theorem single_file_pass_leaves_one_of_each f w k :
  atomic_family f -> NoDup (map fst (fs w)) -> cooperative w ->
  List.length
    (filter (fun p => family_entry f (pname p) &&
                      has_digest (fst (family_pass f w)) k p)
            (walk (fst (family_pass f w)))) =
  if existsb (fun p => family_entry f (pname p) && has_digest w k p) (walk w)
  then 1%nat else 0%nat.
Proof.
  intros Hf Hn Hw.
  destruct (pass_leaves_no_twins f w Hf Hw) as (_ & (_ & N1 & L1) & Hno).
  set (w' := fst (family_pass f w)) in *.
  set (l' := filter _ (walk w')).
  assert (Hnd : NoDup l') by (apply NoDup_filter, NoDup_walk, N1, Hn).
  assert (Back : forall q, In q l' ->
            In q (walk w) /\ family_entry f (pname q) = true /\
            has_digest w k q = true).
  { intros q Hq. apply filter_In in Hq as [Hq Hc].
    apply andb_true_iff in Hc as [Hc1 Hc2].
    apply in_walk_iff in Hq as (Ht & g & Hl).
    pose proof (L1 q g Ht Hl) as Hl0.
    split; [apply in_walk_iff; eauto|]. split; auto.
    rewrite <- Hc2. symmetry. apply has_digest_lookup. congruence. }
  destruct (existsb _ (walk w)) eqn:Ex.
  - apply existsb_exists in Ex as (p & Hp & Hc).
    apply andb_true_iff in Hc as [Hc1 Hc2].
    destruct (survivor_pass f w p k Hf Hn Hp Hc1 Hc2)
      as (q & Hq & Hq1 & Hq2 & El).
    assert (Hin : In q l').
    { apply filter_In. split.
      - apply in_walk_iff. apply in_walk_iff in Hq as (Ht & g & Hl).
        split; auto. exists g. unfold w'. congruence.
      - rewrite Hq1. cbn [andb]. rewrite <- Hq2.
        now apply has_digest_lookup. }
    destruct l' as [|a [|b l'']] eqn:El'; [contradiction | reflexivity |].
    exfalso.
    assert (Hab : a <> b).
    { intros ->. apply NoDup_cons_iff in Hnd as [Ha _]. apply Ha. now left. }
    assert (Ia : In a (filter (fun p => family_entry f (pname p) &&
                                        has_digest w' k p) (walk w')))
      by (fold l'; rewrite El'; now left).
    assert (Ib : In b (filter (fun p => family_entry f (pname p) &&
                                        has_digest w' k p) (walk w')))
      by (fold l'; rewrite El'; right; now left).
    apply filter_In in Ia as [Ia Ca], Ib as [Ib Cb].
    apply andb_true_iff in Ca as [Ca1 Ca2], Cb as [Cb1 Cb2].
    exact (Hno a b k Ia Ib Hab Ca1 Cb1 Ca2 Cb2).
  - destruct l' as [|a l''] eqn:El'; [reflexivity|]. exfalso.
    destruct (Back a (or_introl eq_refl)) as (Ha & Ha1 & Ha2).
    assert (Ex' : existsb (fun p => family_entry f (pname p) &&
                                    has_digest w k p) (walk w) = true).
    { apply existsb_exists. exists a. split; auto. now rewrite Ha1, Ha2. }
    congruence.
Qed.

Lemma single_file_pass_leaves_one_of_each_witness :
  List.length
    (filter (fun p => family_entry Zip (pname p) &&
                      has_digest (fst (family_pass Zip tree_zip_denied))
                                 (hexdigest (bytes_of_string "PK-archive")) p)
            (walk (fst (family_pass Zip tree_zip_denied)))) =
  if existsb (fun p => family_entry Zip (pname p) &&
                       has_digest tree_zip_denied
                                  (hexdigest (bytes_of_string "PK-archive")) p)
             (walk tree_zip_denied)
  then 1%nat else 0%nat.
Proof.
  apply (single_file_pass_leaves_one_of_each
           Zip tree_zip_denied (hexdigest (bytes_of_string "PK-archive"))).
  - right. now left.
  - vm_compute. repeat constructor; simpl; intuition discriminate.
  - split; [reflexivity|].
    intros p f _ Hl. apply lookup_in in Hl. simpl in Hl.
    repeat (destruct Hl as [Hl|Hl]; [now inversion Hl|]).
    contradiction.
Defined.

(** ** A run with nothing to start from *)

(** X13.  [main] on an input folder in which no file is an entry point of
    any pass (an empty folder, or one that holds only components and
    geodatabase files): the run ends normally, constructs no object, calls
    no method, changes no file and logs only its first and last message; the
    report is the header followed by the rows [actions_log] had. *)
Theorem run_without_entry_files w :
  (forall f, no_entries f w) ->
  main w = (log INFO MsgComplete (write_csv_report (log INFO MsgStarting w)),
            Ok tt).
Proof.
  intros H. rewrite main_eq, run_all_for_each.
  assert (P : forall f w', walk w' = walk w -> family_pass f w' = (w', Ok tt)).
  { intros f w' E. apply pass_no_entries. intros p Hp. apply (H f).
    now rewrite <- E. }
  cbn [all_families for_each]. unfold bind.
  now rewrite !P by reflexivity.
Qed.

Lemma run_without_entry_files_witness :
  main tree_dbf_twins =
  (log INFO MsgComplete (write_csv_report (log INFO MsgStarting tree_dbf_twins)),
   Ok tt).
Proof.
  apply (run_without_entry_files tree_dbf_twins).
  intros f p Hp. simpl in Hp.
  destruct Hp as [<-|[<-|[]]]; destruct f; vm_compute; reflexivity.
Defined.

(** ** The clusters of a scan, in every family *)

Lemma snd_hash_fs x w w' : fs w' = fs w -> snd (hash x w') = snd (hash x w).
Proof.
  intros E.
  assert (G : forall files, snd (hash_group files w') = snd (hash_group files w)).
  { intros files. unfold hash_group.
    rewrite (hash_members_spec w files sha256_new w' E).
    now rewrite (hash_members_spec w files sha256_new w eq_refl). }
  assert (A : forall p, snd (get_file_hash p w') = snd (get_file_hash p w)).
  { intros p. rewrite !get_file_hash_digest. now apply digest_of_fs. }
  destruct x; cbn [hash]; auto.
Qed.

Lemma in_dict_append k g h obj d :
  In (k, g) (dict_append h obj d) ->
  In (k, g) d \/
  (k = h /\ exists g0, g = g0 ++ [obj] /\ (g0 = [] \/ In (h, g0) d)).
Proof.
  induction d as [|[k' v] d IH]; simpl.
  - intros [E|[]]. inversion E; subst. right. split; auto. exists []. auto.
  - destruct (String.eqb k' h) eqn:Ek; simpl.
    + apply String.eqb_eq in Ek. subst k'.
      intros [E|Hin]; auto.
      inversion E; subst. right. split; auto. exists v. auto.
    + intros [E|Hin]; auto.
      destruct (IH Hin) as [?|(-> & g0 & -> & [->|?])]; auto.
      * right. split; auto. exists []. auto.
      * right. split; auto. exists g0. auto.
Qed.

Lemma scan_loop_clusters is_entry hc w0 :
  (forall p w, fs (fst (hc p w)) = fs w) ->
  forall paths d w, fs w = fs w0 ->
    NoDup (map fst d) ->
    (forall k g, In (k, g) d ->
       g <> [] /\ forall x, In x g -> snd (hash x w0) = Some k) ->
    NoDup (map fst (snd (scan_loop is_entry hc paths d w))) /\
    (forall k g, In (k, g) (snd (scan_loop is_entry hc paths d w)) ->
       g <> [] /\ forall x, In x g -> snd (hash x w0) = Some k).
Proof.
  intros Hhc. induction paths as [|p paths IH]; intros d w Hw Hn Hd; auto.
  cbn [scan_loop]. destruct (is_entry (pname p)); [|now apply IH].
  pose proof (Hhc p w) as E1.
  destruct (hc p w) as [w1 obj]. cbn [fst] in E1.
  pose proof (fs_hash obj w1) as E2.
  pose proof (snd_hash_fs obj w0 w1) as E3.
  destruct (hash obj w1) as [w2 fh]. cbn [fst snd] in E2, E3.
  assert (Hw2 : fs w2 = fs w0) by congruence.
  destruct fh as [h|]; [|now apply IH].
  destruct (truthy (Some h)); [|now apply IH].
  apply IH; auto using keys_dict_append.
  intros k g Hin. apply in_dict_append in Hin as [Hin|(-> & g0 & -> & Hg0)].
  - now apply Hd.
  - split; [now destruct g0|].
    intros x Hx. apply in_app_or in Hx as [Hx|[<-|[]]].
    + destruct Hg0 as [->|Hg0]; [contradiction|]. now apply (Hd h g0).
    + symmetry. apply E3. congruence.
Qed.

(** X14.  The first loop of every pass: the keys of the dictionary are
    distinct fingerprints, no bucket is empty, and every object of a bucket
    has the fingerprint of the bucket, computed on the files as they were
    when the pass began; so two objects lie in one bucket exactly when their
    fingerprints are equal.  The loop changes no file and adds no row to
    the audit trail. *)
Theorem scan_clusters_by_fingerprint f w :
  NoDup (map fst (snd (family_scan f w))) /\
  (forall k g, In (k, g) (snd (family_scan f w)) ->
     g <> [] /\ forall x, In x g -> snd (hash x w) = Some k) /\
  (forall k1 g1 k2 g2 x y,
     In (k1, g1) (snd (family_scan f w)) ->
     In (k2, g2) (snd (family_scan f w)) ->
     In x g1 -> In y g2 ->
     (snd (hash x w) = snd (hash y w) <-> g1 = g2)) /\
  fs (fst (family_scan f w)) = fs w /\
  actions_log (fst (family_scan f w)) = actions_log w.
Proof.
  assert (Hhc : forall p w0, fs (fst (family_class f p w0)) = fs w0).
  { destruct same_fs_scan_ingredients as (H1 & H2 & H3 & H4).
    intros p w0. destruct f; cbn [family_class];
      first [ now apply (new_ShapefileGroup_keeps same_fs)
            | now apply (new_MapInfoGroup_keeps same_fs)
            | now apply (new_ImageGroup_keeps same_fs)
            | now apply (new_PackageFile_keeps same_fs)
            | now apply (new_ZipFileHandler_keeps same_fs)
            | now apply (new_NonGISDatabase_keeps same_fs)
            | now apply (new_GenericFile_keeps same_fs) ]. }
  destruct (scan_loop_clusters (family_entry f) (family_class f) w Hhc
              (walk w) [] w eq_refl) as [Hk Hb].
  { constructor. }
  { intros k g []. }
  fold (scan (family_entry f) (family_class f) w) in Hk, Hb.
  fold (family_scan f w) in Hk, Hb.
  destruct (same_files_family_scan f w) as (Efs & _ & _ & _ & Eal).
  split; [exact Hk|]. split; [exact Hb|]. split; [|split; assumption].
  intros k1 g1 k2 g2 x y H1 H2 Hx Hy.
  destruct (Hb k1 g1 H1) as [_ F1], (Hb k2 g2 H2) as [_ F2].
  rewrite (F1 x Hx), (F2 y Hy). split.
  - intros E. injection E as <-.
    rewrite <- (bucket_of_value k1 g1 _ Hk H1).
    now rewrite <- (bucket_of_value k1 g2 _ Hk H2).
  - intros <-. f_equal.
    assert (E : Some k1 = Some k2) by (rewrite <- (F1 x Hx); now apply F2).
    now injection E.
Qed.

(** ** The audit trail against the files *)

Lemma reported_refl w : reported w w.
Proof.
  repeat split; auto. exists []. now rewrite app_nil_r.
Qed.

Lemma reported_same w w' : same_files w w' -> reported w w'.
Proof.
  intros (E1 & _ & _ & _ & E2). unfold reported. rewrite E1, E2.
  repeat split; auto. exists []. now rewrite app_nil_r.
Qed.

Lemma reported_trans a b c : reported a b -> reported b c -> reported a c.
Proof.
  intros (I1 & O1 & rows1 & A1 & H1) (I2 & O2 & rows2 & A2 & H2).
  assert (Gone : forall p, ptree p = InputFolder ->
                           lookup p (fs b) = None -> lookup p (fs c) = None).
  { intros p Hp Hn. destruct (lookup p (fs c)) as [f|] eqn:E; auto.
    apply I2 in E; auto. congruence. }
  assert (Out : forall q, ptree q = OutputFolder ->
     lookup q (fs c) = lookup q (fs a) \/
     exists f g, lookup (source_of q) (fs a) = Some f /\
                 lookup q (fs c) = Some g /\ content g = content f).
  { intros q Hq.
    destruct (O2 q Hq) as [E2|(f & g & Hf & Hg & Ec)].
    - rewrite E2. apply O1, Hq.
    - right. exists f, g. repeat split; auto. }
  split; [auto|]. split; [exact Out|].
  exists (rows1 ++ rows2). split; [now rewrite A2, A1, app_assoc|].
  apply Forall_app. split.
  - eapply Forall_impl; [|exact H1].
    intros row (p & Hp & [(-> & f & g & Hf & Hg & Ec)|(-> & Hs & Hn)]);
      exists p; (split; [exact Hp|]).
    + left. split; auto.
      destruct (O2 (mirror p) eq_refl) as [E|(f' & g' & Hf' & Hg' & Ec')].
      * exists f, g. rewrite E. auto.
      * exists f, g'. repeat split; auto.
        replace (source_of (mirror p)) with p in Hf'
          by (destruct p; simpl in *; now subst).
        apply I1 in Hf'; auto. congruence.
    + right. auto.
  - eapply Forall_impl; [|exact H2].
    intros row (p & Hp & [(-> & f & g & Hf & Hg & Ec)|(-> & Hs & Hn)]);
      exists p; (split; [exact Hp|]).
    + left. split; auto. exists f, g. auto.
    + right. repeat split; auto.
      destruct (lookup p (fs b)) as [f|] eqn:E; [|congruence].
      rewrite (I1 p f Hp E). discriminate.
Qed.

Lemma copy2_copied_bytes p w :
  copy2 p (mirror p) w =
  match copied_bytes w p with
  | Some bs => Some (write (mirror p) (File bs (clock w) true true) (fs w))
  | None => None
  end.
Proof.
  unfold copy2, copied_bytes.
  destruct (read_file w p); now destruct (mem_path _ _).
Qed.

Lemma reported_copy_file p w :
  ptree p = InputFolder -> reported w (copy_file p (mirror p) w).
Proof.
  intros Hp.
  assert (In_ : forall q f, ptree q = InputFolder ->
            lookup q (fs (copy_file p (mirror p) w)) = Some f ->
            lookup q (fs w) = Some f).
  { intros q f Hq. rewrite lookup_copy_file.
    destruct (copied_bytes w p); auto.
    destruct (path_eqb q (mirror p)) eqn:E; auto.
    apply path_eqb_eq in E. subst q. discriminate. }
  assert (Src : forall bs, copied_bytes w p = Some bs ->
            exists f, lookup p (fs w) = Some f /\ content f = bs).
  { intros bs. unfold copied_bytes, read_file.
    destruct (mem_path _ _); [discriminate|].
    destruct (lookup p (fs w)) as [f|]; [|discriminate].
    destruct (readable f); [|discriminate].
    intros E. injection E as <-. eauto. }
  split; [exact In_|]. split.
  - intros q Hq. rewrite lookup_copy_file.
    destruct (copied_bytes w p) as [bs|] eqn:Ec; auto.
    destruct (path_eqb q (mirror p)) eqn:E; auto.
    apply path_eqb_eq in E. subst q. right.
    destruct (Src bs eq_refl) as (f & Hf & Ef).
    replace (source_of (mirror p)) with p
      by (destruct p; simpl in *; now subst).
    exists f, (File bs (clock w) true true). repeat split; auto.
  - pose proof (lookup_copy_file p w (mirror p)) as Hl.
    rewrite path_eqb_refl in Hl.
    unfold copy_file in *. rewrite copy2_copied_bytes in *.
    destruct (copied_bytes w p) as [bs|] eqn:Ec.
    + exists [[CStr "Copied"; CPath p; CPath (mirror p); CStr (path_ext p)]].
      split; [reflexivity|]. repeat constructor.
      exists p. split; auto. left. split; auto.
      destruct (Src bs eq_refl) as (f & Hf & Ef).
      exists f, (File bs (clock w) true true). repeat split; auto.
    + exists []. simpl. now rewrite app_nil_r.
Qed.

Lemma reported_delete_file p w :
  ptree p = InputFolder -> reported w (delete_file p w).
Proof.
  intros Hp. split; [|split].
  - intros q f Hq. rewrite lookup_delete_file.
    destruct (lookup q (fs w)) as [g|]; [|discriminate].
    now destruct (_ && _).
  - intros q Hq. left. rewrite lookup_delete_file.
    destruct (path_eqb q p) eqn:E.
    + apply path_eqb_eq in E. subst q. congruence.
    + now destruct lookup.
  - pose proof (lookup_delete_file p w p) as Hl.
    rewrite path_eqb_refl in Hl.
    unfold delete_file, os_remove in *.
    destruct (lookup p (fs w)) as [f|] eqn:El;
      [destruct (removable f)|].
    + exists [[CStr "Deleted"; CPath p; CStr ""; CStr (path_ext p)]].
      split; [reflexivity|]. repeat constructor.
      exists p. split; auto. right.
      split; [reflexivity|]. split; [congruence | exact Hl].
    + exists []. simpl. now rewrite app_nil_r.
    + exists []. simpl. now rewrite app_nil_r.
Qed.

Lemma reported_fold (f : world -> path -> world) l :
  (forall w p, ptree p = InputFolder -> reported w (f w p)) ->
  Forall (fun p => ptree p = InputFolder) l ->
  forall w, reported w (fold_left f l w).
Proof.
  intros Hf. induction 1 as [|p l Hp Hl IH]; intros w; simpl.
  - apply reported_refl.
  - eapply reported_trans; [apply Hf; exact Hp | apply IH].
Qed.

Lemma reported_copy_to x w : input_obj x -> reported w (copy_to x w).
Proof.
  intros Hx. unfold copy_to.
  apply (reported_trans w (record_call (CallCopyTo (oid_of x)) w)).
  - apply reported_same. unfold same_files. now auto.
  - apply (reported_fold (fun w f => copy_file f (mirror f) w));
      [intros; now apply reported_copy_file | exact Hx].
Qed.

Lemma reported_delete x w : input_obj x -> reported w (delete x w).
Proof.
  intros Hx. unfold delete.
  apply (reported_trans w (record_call (CallDelete (oid_of x)) w)).
  - apply reported_same. unfold same_files. now auto.
  - apply (reported_fold (fun w f => delete_file f w));
      [intros; now apply reported_delete_file | exact Hx].
Qed.

Lemma reported_body x w : input_obj x -> reported w (delete x (copy_to x w)).
Proof.
  intros Hx. apply (reported_trans w (copy_to x w)).
  - now apply reported_copy_to.
  - now apply reported_delete.
Qed.

(** X15.  [main], [run_all], [copy_file] and [delete_file], on any tree and
    however the run ends: every row the run adds to [actions_log] is true
    of the files.  The source of a Copied row was a file of the input folder
    and the destination is its mirrored place, which holds the bytes of the
    source when the run ends; the source of a Deleted row was a file of the
    input folder and names no file when the run ends. *)
Theorem report_rows_hold w :
  exists rows, actions_log (fst (main w)) = actions_log w ++ rows /\
               Forall (row_holds w (fst (main w))) rows.
Proof.
  apply (guarded_main reported reported_refl reported_trans reported_same
                      reported_body w).
Qed.

(** ** The fingerprint of a MapInfo group and the order of a listing *)

Lemma ascii_compare_refl a : Ascii.compare a a = Eq.
Proof. unfold Ascii.compare. apply N.compare_refl. Qed.

Lemma ascii_compare_lt_trans a b c :
  Ascii.compare a b = Lt -> Ascii.compare b c = Lt -> Ascii.compare a c = Lt.
Proof.
  unfold Ascii.compare. rewrite !N.compare_lt_iff. apply N.lt_trans.
Qed.

Lemma string_leb_trans s1 : forall s2 s3,
  String.leb s1 s2 = true -> String.leb s2 s3 = true -> String.leb s1 s3 = true.
Proof.
  unfold String.leb.
  induction s1 as [|c1 s1 IH]; intros [|c2 s2] [|c3 s3]; simpl; auto;
    try discriminate.
  destruct (Ascii.compare c1 c2) eqn:E12; try discriminate;
    destruct (Ascii.compare c2 c3) eqn:E23; try discriminate.
  - apply Ascii.compare_eq_iff in E12, E23. subst.
    rewrite ascii_compare_refl. apply IH.
  - apply Ascii.compare_eq_iff in E12. subst. now rewrite E23.
  - apply Ascii.compare_eq_iff in E23. subst. now rewrite E12.
  - now rewrite (ascii_compare_lt_trans _ _ _ E12 E23).
Qed.

Lemma insert_path_perm p l : Permutation (insert_path p l) (p :: l).
Proof.
  induction l as [|q l IH]; simpl; auto.
  destruct (String.leb (pname p) (pname q)); auto.
  rewrite IH. apply perm_swap.
Qed.

Lemma sorted_perm l : Permutation (sorted l) l.
Proof.
  induction l as [|p l IH]; simpl; auto.
  rewrite insert_path_perm. now constructor.
Qed.

Lemma insert_path_sorted p l :
  StronglySorted (fun a b => String.leb (pname a) (pname b) = true) l ->
  StronglySorted (fun a b => String.leb (pname a) (pname b) = true)
                 (insert_path p l).
Proof.
  induction 1 as [|q l Hs IH Hq]; simpl.
  - repeat constructor.
  - destruct (String.leb (pname p) (pname q)) eqn:E.
    + constructor; [now constructor|].
      constructor; auto.
      eapply Forall_impl; [|exact Hq].
      intros a Ha. eapply string_leb_trans; eauto.
    + constructor; auto.
      eapply Permutation_Forall; [symmetry; apply insert_path_perm|].
      constructor; auto.
      destruct (String.leb_total (pname p) (pname q)); congruence.
Qed.

Lemma sorted_sorted l :
  StronglySorted (fun a b => String.leb (pname a) (pname b) = true) (sorted l).
Proof.
  induction l as [|p l IH]; simpl; [constructor|].
  now apply insert_path_sorted.
Qed.

Lemma sorted_lists_equal l : forall l',
  StronglySorted (fun a b => String.leb (pname a) (pname b) = true) l ->
  StronglySorted (fun a b => String.leb (pname a) (pname b) = true) l' ->
  Permutation l l' ->
  (forall p q, In p l -> In q l -> pname p = pname q -> p = q) ->
  l = l'.
Proof.
  induction l as [|a l IH]; intros l' Hs Hs' Hp Hinj.
  - now apply Permutation_nil in Hp.
  - destruct l' as [|b l'].
    { apply Permutation_sym, Permutation_nil in Hp. discriminate. }
    inversion Hs as [|? ? Hsl Ha]; subst.
    inversion Hs' as [|? ? Hsl' Hb]; subst.
    rewrite Forall_forall in Ha, Hb.
    assert (Hba : In b (a :: l))
      by (apply (Permutation_in _ (Permutation_sym Hp)); now left).
    assert (Hab : In a (b :: l'))
      by (apply (Permutation_in _ Hp); now left).
    assert (E : a = b).
    { destruct Hba as [->|Hba]; auto.
      destruct Hab as [->|Hab]; auto.
      apply Hinj; [now left | now right |].
      apply String.leb_antisym; auto. }
    subst b. f_equal.
    apply IH; auto.
    + eapply Permutation_cons_inv; eauto.
    + intros p q Hp' Hq'. apply Hinj; now right.
Qed.

Lemma sorted_of_permutation l l' :
  Permutation l l' ->
  (forall p q, In p l -> In q l -> pname p = pname q -> p = q) ->
  sorted l = sorted l'.
Proof.
  intros Hp Hinj. apply sorted_lists_equal; auto using sorted_sorted.
  - rewrite sorted_perm, Hp. symmetry. apply sorted_perm.
  - intros p q Hp' Hq'.
    apply Hinj; eapply Permutation_in; eauto using sorted_perm.
Qed.

Lemma lookup_permutation p l l' :
  Permutation l l' -> NoDup (map fst l) -> lookup p l = lookup p l'.
Proof.
  induction 1 as [|[q f] l l' Hp IH|[q f] [r g] l|l l' l'' H1 IH1 H2 IH2];
    intros Hn; simpl in *; auto.
  - apply NoDup_cons_iff in Hn as [_ Hn]. now rewrite IH.
  - apply NoDup_cons_iff in Hn as [Hr _].
    destruct (path_eqb r p) eqn:Er, (path_eqb q p) eqn:Eq_; auto.
    apply path_eqb_eq in Er, Eq_. subst. exfalso. apply Hr. now left.
  - rewrite IH1 by exact Hn. apply IH2.
    eapply Permutation_NoDup; [apply Permutation_map; exact H1 | exact Hn].
Qed.

Lemma glob_names_permutation base ok w w' :
  Permutation (fs w) (fs w') ->
  Permutation (glob_names base ok w) (glob_names base ok w').
Proof.
  intros Hp. unfold glob_names. apply Permutation_map.
  assert (G : forall (g : path * file -> bool) l l',
            Permutation l l' -> Permutation (filter g l) (filter g l')).
  { intros g l l' H. induction H; simpl.
    - constructor.
    - destruct (g x); auto.
    - destruct (g x), (g y); auto. apply perm_swap.
    - etransitivity; eauto. }
  now apply G.
Qed.

Lemma flat_map_permutation {A B} (f g : A -> list B) l :
  (forall a, Permutation (f a) (g a)) ->
  Permutation (flat_map f l) (flat_map g l).
Proof.
  intros H. induction l as [|a l IH]; simpl; auto.
  now apply Permutation_app.
Qed.

(** X18.  [MapInfoGroup.hash] with [MapInfoGroup._gather_components]: on a
    tree in which every path names one file, the fingerprint of the group of
    a table does not depend on the order in which the directories list their
    files.  ([sorted] puts the members in the order of their names before
    they are read.) *)
Theorem mapinfo_fingerprint_ignores_listing_order tab_path w w' :
  Permutation (fs w) (fs w') -> NoDup (map fst (fs w)) ->
  snd (hash (snd (new_MapInfoGroup tab_path w)) w) =
  snd (hash (snd (new_MapInfoGroup tab_path w')) w').
Proof.
  intros Hp Hn.
  assert (Hm : Permutation (members (snd (new_MapInfoGroup tab_path w)))
                           (members (snd (new_MapInfoGroup tab_path w')))).
  { rewrite !members_new_MapInfoGroup. apply flat_map_permutation.
    intros ext. apply Permutation_app; now apply glob_names_permutation. }
  assert (Hinj : forall p q,
            In p (members (snd (new_MapInfoGroup tab_path w))) ->
            In q (members (snd (new_MapInfoGroup tab_path w))) ->
            pname p = pname q -> p = q).
  { rewrite members_new_MapInfoGroup. intros p q Hp' Hq' E.
    apply in_flat_map in Hp' as (e1 & _ & Hp').
    apply in_flat_map in Hq' as (e2 & _ & Hq').
    assert (G : forall r e, In r (glob_exact (_get_base_path tab_path) e
                                     (fst (fresh_oid w)) ++
                                  glob_exact (_get_base_path tab_path)
                                     (e ++ ".xml") (fst (fresh_oid w))) ->
                ptree r = ptree tab_path /\ pdir r = pdir tab_path).
    { intros r e Hr.
      apply in_app_or in Hr as [Hr|Hr]; apply glob_names_In in Hr;
        now destruct Hr as (_ & ? & ? & _). }
    destruct (G p e1 Hp') as [T1 D1], (G q e2 Hq') as [T2 D2].
    destruct p, q; simpl in *; congruence. }
  assert (Hh : forall o t b fl v,
            snd (hash (MapInfoGroup o t b fl) v) =
            Some (hexdigest (List.concat (map (readable_bytes v) (sorted fl))))).
  { intros. cbn [hash]. unfold hash_group.
    now rewrite (hash_members_spec v (sorted fl) sha256_new v eq_refl). }
  destruct (snd (new_MapInfoGroup tab_path w)) eqn:E1;
    try (exfalso; revert E1; unfold new_MapInfoGroup; cbn [fresh_oid];
         destruct (_gather_components _ _); discriminate).
  destruct (snd (new_MapInfoGroup tab_path w')) eqn:E2;
    try (exfalso; revert E2; unfold new_MapInfoGroup; cbn [fresh_oid];
         destruct (_gather_components _ _); discriminate).
  cbn [members] in Hm, Hinj. rewrite !Hh.
  rewrite (sorted_of_permutation _ _ Hm Hinj).
  do 3 f_equal. apply map_ext. intros p.
  unfold readable_bytes, read_file.
  now rewrite (lookup_permutation p _ _ Hp Hn).
Qed.

Lemma mapinfo_fingerprint_ignores_listing_order_witness :
  snd (hash (snd (new_MapInfoGroup (inp ["b"] "q.tab") tree_tab_order))
            tree_tab_order) =
  snd (hash (snd (new_MapInfoGroup (inp ["b"] "q.tab") tree_tab_listed_back))
            tree_tab_listed_back).
Proof.
  apply (mapinfo_fingerprint_ignores_listing_order
           (inp ["b"] "q.tab") tree_tab_order tree_tab_listed_back).
  - simpl.
    apply (perm_trans (perm_swap _ _ _)).
    do 2 apply perm_skip. apply perm_swap.
  - vm_compute. repeat constructor; simpl; intuition discriminate.
Defined.

(** ** The general statements at work *)

Lemma delete_follows_failed_copy_witness :
  lookup (inp ["b"] "d.zip")
         (fs (delete (ZipFileHandler 1 (inp ["b"] "d.zip") (inp ["b"] "d.zip"))
                (copy_to (ZipFileHandler 1 (inp ["b"] "d.zip")
                                         (inp ["b"] "d.zip"))
                         tree_zip_denied))) = None /\
  actions_log
    (delete (ZipFileHandler 1 (inp ["b"] "d.zip") (inp ["b"] "d.zip"))
       (copy_to (ZipFileHandler 1 (inp ["b"] "d.zip") (inp ["b"] "d.zip"))
                tree_zip_denied)) =
  actions_log tree_zip_denied ++
  [[CStr "Deleted"; CPath (inp ["b"] "d.zip"); CStr "";
    CStr (path_ext (inp ["b"] "d.zip"))]].
Proof.
  apply (delete_follows_failed_copy
           (ZipFileHandler 1 (inp ["b"] "d.zip") (inp ["b"] "d.zip"))
           tree_zip_denied (plain "PK-archive" 200)).
  - split; [reflexivity | intros; reflexivity].
  - reflexivity.
  - reflexivity.
  - reflexivity.
Defined.


(** ** Tables that share a base path *)

(** X19.  [MapInfoGroup.__init__]: the members of a group, and so its
    fingerprint, depend on the table only through its base path.  Two
    tables of one directory whose names differ only after the first suffix,
    such as [map.v1.tab] and [map.v2.tab], get the same members and the same
    fingerprint, whatever they contain, and the first loop files them in
    one bucket. *)
Theorem mapinfo_groups_of_one_base tab_path tab_path' w w' :
  _get_base_path tab_path = _get_base_path tab_path' -> fs w' = fs w ->
  members (snd (new_MapInfoGroup tab_path w)) =
  members (snd (new_MapInfoGroup tab_path' w')) /\
  snd (hash (snd (new_MapInfoGroup tab_path w)) w) =
  snd (hash (snd (new_MapInfoGroup tab_path' w')) w').
Proof.
  intros Eb Ew.
  assert (Em : members (snd (new_MapInfoGroup tab_path w)) =
               members (snd (new_MapInfoGroup tab_path' w'))).
  { rewrite !members_new_MapInfoGroup, Eb. unfold glob_exact, glob_names.
    cbn [fresh_oid fst fs]. now rewrite Ew. }
  split; [exact Em|].
  assert (Hh : forall o t b fl v,
            snd (hash (MapInfoGroup o t b fl) v) =
            Some (hexdigest (List.concat (map (readable_bytes v) (sorted fl))))).
  { intros. cbn [hash]. unfold hash_group.
    now rewrite (hash_members_spec v (sorted fl) sha256_new v eq_refl). }
  destruct (snd (new_MapInfoGroup tab_path w)) eqn:E1;
    try (exfalso; revert E1; unfold new_MapInfoGroup; cbn [fresh_oid];
         destruct (_gather_components _ _); discriminate).
  destruct (snd (new_MapInfoGroup tab_path' w')) eqn:E2;
    try (exfalso; revert E2; unfold new_MapInfoGroup; cbn [fresh_oid];
         destruct (_gather_components _ _); discriminate).
  cbn [members] in Em. subst. rewrite !Hh. do 3 f_equal.
  apply map_ext. intros p. unfold readable_bytes, read_file. now rewrite Ew.
Qed.

Lemma mapinfo_groups_of_one_base_witness :
  members (snd (new_MapInfoGroup (inp ["m"] "map.v1.tab") tree_tab_versions)) =
  members (snd (new_MapInfoGroup (inp ["m"] "map.v2.tab") tree_tab_versions)) /\
  snd (hash (snd (new_MapInfoGroup (inp ["m"] "map.v1.tab") tree_tab_versions))
            tree_tab_versions) =
  snd (hash (snd (new_MapInfoGroup (inp ["m"] "map.v2.tab") tree_tab_versions))
            tree_tab_versions).
Proof.
  apply (mapinfo_groups_of_one_base
           (inp ["m"] "map.v1.tab") (inp ["m"] "map.v2.tab")
           tree_tab_versions tree_tab_versions).
  - vm_compute. reflexivity.
  - reflexivity.
Defined.

(** ** The two lookups of a creation time *)


(** ** Files that share a base name, in the generic pass *)








